(** * UndoTransaction: the transactional mutation journal of the sprite editor

    A shallow embedding of [src/undo_transaction.cpp].  Every method of
    [UndoTransaction] becomes a computation in a state-and-failure monad over
    a world made of the sprite, its undo history and the trace of the calls
    made on these two collaborators.  C++ [int] is [Z].  Where a position
    kept in the document is computed from an offset the caller gives
    ([displaceLayers], [cropSprite]) the sum is reduced to 32 bits, as the
    machine does ([int_wrap]); frame counts, indices and the offsets handed
    to the raster code are kept as written.  Pointers to layers and cels are
    identifiers; [ASSERT] is a failure. *)

From Stdlib Require Import ZArith Lia Bool.
From stdpp Require Import base list option strings.

Set Warnings "-register-all".

Local Open Scope Z_scope.

(** ** The state-and-failure monad *)

Definition M (W A : Type) : Type := W -> option (A * W).

Global Instance M_ret {W} : MRet (M W) := fun A a w => Some (a, w).

Global Instance M_bind {W} : MBind (M W) := fun A B k m w =>
  match m w with
  | Some (a, w') => k a w'
  | None => None
  end.

Definition gets {W A} (f : W -> A) : M W A := fun w => Some (f w, w).
Definition modify {W} (f : W -> W) : M W unit := fun w => Some (tt, f w).
Definition fail {W A} : M W A := fun _ => None.

(** [ASSERT(cond)]: a violated assertion is fatal. *)
Definition ASSERT {W} (cond : bool) : M W unit :=
  if cond then mret tt else fail.

Definition when {W} (cond : bool) (m : M W unit) : M W unit :=
  if cond then m else mret tt.

(** [for (...) body(x)] over the elements of [xs], in order. *)
Fixpoint forM_ {W A} (xs : list A) (body : A -> M W unit) : M W unit :=
  match xs with
  | [] => mret tt
  | x :: xs' => body x ;; forM_ xs' body
  end.

(** A loop that rebuilds the elements it visits. *)
Definition mapM {W A B} (body : A -> M W B) : list A -> M W (list B) :=
  fix go (xs : list A) : M W (list B) :=
    match xs with
    | [] => mret []
    | x :: xs' => y ← body x; ys ← go xs'; mret (y :: ys)
    end.

(** A loop with an accumulator. *)
Fixpoint foldM {W A S} (body : S -> A -> M W S) (acc : S) (xs : list A) : M W S :=
  match xs with
  | [] => mret acc
  | x :: xs' => acc' ← body acc x; foldM body acc' xs'
  end.

(** The integers [lo, lo+1, ..., lo+n-1]. *)
Definition zrange (lo : Z) (n : nat) : list Z :=
  map (fun i => lo + Z.of_nat i) (seq 0 n).

(** The integers [hi, hi-1, ..., hi-n+1]. *)
Definition zrange_down (hi : Z) (n : nat) : list Z :=
  map (fun i => hi - Z.of_nat i) (seq 0 n).

(** The frames [0 .. frames-1] of a [for (frame=0; frame<frames; ++frame)]. *)
Definition frames_upto (frames : Z) : list Z := zrange 0 (Z.to_nat frames).

Definition INT_MAX : Z := 2147483647.
Definition INT_MIN : Z := -2147483648.

(** The positions of cels and of the mask are C [int]s.  Where the code
    computes one from an offset it is given ([cel->x+dx], [-x],
    [mask->x-x]) the result is the sum reduced to 32 bits, two's
    complement, which is what the machine stores. *)
Definition int_wrap (z : Z) : Z := (z + 2147483648) mod 4294967296 - 2147483648.

(** ** The document model *)

Definition LayerId := nat.
Definition CelId := nat.

(** [raster/cel.h]: a cel; [cel_id] stands for the address of the object. *)
Record Cel := mkCel {
  cel_id : CelId;
  cel_frame : Z;
  cel_image : Z;
  cel_x : Z;
  cel_y : Z;
  cel_opacity : Z
}.

Arguments mkCel cel_id%_nat _ _ _ _ _.

Definition cel_new (id : CelId) (frame image : Z) : Cel :=
  mkCel id frame image 0 0 255.

Definition cel_set_frame (v : Z) (c : Cel) : Cel :=
  mkCel (cel_id c) v (cel_image c) (cel_x c) (cel_y c) (cel_opacity c).
Definition cel_set_position (vx vy : Z) (c : Cel) : Cel :=
  mkCel (cel_id c) (cel_frame c) (cel_image c) vx vy (cel_opacity c).

(** Layer flags and name. *)
Record LayerProps := mkProps {
  layer_name : string;
  is_background : bool;
  is_moveable : bool;
  is_readable : bool;
  is_writable : bool
}.

Definition default_props : LayerProps := mkProps "Layer" false true true true.

(** [raster/layer.h]: an image layer owns its cels, a folder its children. *)
Inductive Layer :=
| LayerImage (id : LayerId) (props : LayerProps) (cels : list Cel)
| LayerFolder (id : LayerId) (props : LayerProps) (layers : list Layer).

Arguments LayerImage id%_nat _ _.
Arguments LayerFolder id%_nat _ _.

Definition layer_id (l : Layer) : LayerId :=
  match l with LayerImage id _ _ => id | LayerFolder id _ _ => id end.
Definition layer_props (l : Layer) : LayerProps :=
  match l with LayerImage _ p _ => p | LayerFolder _ p _ => p end.
Definition is_image (l : Layer) : bool :=
  match l with LayerImage _ _ _ => true | LayerFolder _ _ _ => false end.
Definition get_layers_list (l : Layer) : list Layer :=
  match l with LayerImage _ _ _ => [] | LayerFolder _ _ ls => ls end.
Definition layer_cels (l : Layer) : list Cel :=
  match l with LayerImage _ _ cs => cs | LayerFolder _ _ _ => [] end.

(** Induction over the layer tree, with the hypothesis on every child. *)
Lemma Layer_tree_ind (P : Layer -> Prop)
  (Himage : forall id props cels, P (LayerImage id props cels))
  (Hfolder : forall id props layers, Forall P layers -> P (LayerFolder id props layers)) :
  forall l, P l.
Proof.
  fix IH 1. intros [id props cels | id props layers].
  - apply Himage.
  - apply Hfolder. induction layers as [|c cs IHcs]; constructor.
    + apply IH.
    + exact IHcs.
Qed.

(** [raster/mask.h]: a selection; no bitmap means the empty mask. *)
Record Mask := mkMask {
  mask_name : string;
  mask_x : Z;
  mask_y : Z;
  mask_w : Z;
  mask_h : Z;
  mask_bitmap : option (list bool)
}.

Definition mask_is_empty (m : Mask) : bool :=
  match mask_bitmap m with None => true | Some _ => false end.
Definition mask_none (m : Mask) : Mask :=
  match mask_bitmap m with
  | None => m
  | Some _ => mkMask (mask_name m) 0 0 0 0 None
  end.
Definition mask_set_name (n : string) (m : Mask) : Mask :=
  mkMask n (mask_x m) (mask_y m) (mask_w m) (mask_h m) (mask_bitmap m).
Definition mask_set_x (v : Z) (m : Mask) : Mask :=
  mkMask (mask_name m) v (mask_y m) (mask_w m) (mask_h m) (mask_bitmap m).
Definition mask_set_y (v : Z) (m : Mask) : Mask :=
  mkMask (mask_name m) (mask_x m) v (mask_w m) (mask_h m) (mask_bitmap m).

Inductive DitheringMethod := DITHERING_NONE | DITHERING_ORDERED.

Definition IMAGE_RGB : Z := 0.
Definition IMAGE_GRAYSCALE : Z := 1.
Definition IMAGE_INDEXED : Z := 2.

(** The pixel-surface and rendering collaborators, consumed as capabilities.
    Their code is outside this file ([raster/image], [raster/quantization],
    [raster/palette], the renderer); nothing is assumed about them. *)
Class Raster := {
  Image : Type;
  Palette : Type;
  RgbMap : Type;
  image_new : Z -> Z -> Z -> Image;
  image_clear : Image -> Z -> Image;
  image_copy : Image -> Image -> Z -> Z -> Image;
  image_crop : Image -> Z -> Z -> Z -> Z -> Z -> Image;
  image_getpixel : Image -> Z -> Z -> Z;
  image_shrink_rect : Image -> Z -> option (Z * Z * Z * Z);
  convert_imgtype :
    Image -> Z -> DitheringMethod -> RgbMap -> Palette -> bool -> Image;
  layer_render : Layer -> list (option Image) -> Image -> Z -> Z -> Z -> Image;
  palette_at : list Palette -> Z -> Palette;
  rgbmap_at : list Palette -> Z -> RgbMap;
  createGrayscale : Palette
}.

(** ** Structural primitives of the layer tree

    [raster/layer.cpp] is outside this file; these are the list and tree
    manipulations its interface names ([getCel], [addCel], [removeCel],
    [add_layer], [remove_layer], [move_layer], [get_parent], [get_prev],
    [get_next]). *)

(** [LayerImage::getCel(frame)]: the first cel of the list at that frame. *)
Fixpoint getCel (cels : list Cel) (frame : Z) : option Cel :=
  match cels with
  | [] => None
  | c :: cs => if cel_frame c =? frame then Some c else getCel cs frame
  end.

(** [LayerImage::addCel(cel)]: insertion before the first later cel. *)
Fixpoint cels_add (cel : Cel) (cels : list Cel) : list Cel :=
  match cels with
  | [] => [cel]
  | c :: cs => if cel_frame c >? cel_frame cel then cel :: c :: cs
               else c :: cels_add cel cs
  end.

(** [LayerImage::removeCel(cel)]: the cel with that address leaves the list. *)
Definition cels_remove (cel : Cel) (cels : list Cel) : list Cel :=
  filter (fun c => cel_id c ≠ cel_id cel) cels.

(** Writing through a [Cel*]: the cel with that address is replaced. *)
Definition cels_update (cel : Cel) (cels : list Cel) : list Cel :=
  map (fun c => if Nat.eqb (cel_id c) (cel_id cel) then cel else c) cels.

Definition set_cels (cels : list Cel) (l : Layer) : Layer :=
  match l with
  | LayerImage id p _ => LayerImage id p cels
  | LayerFolder _ _ _ => l
  end.
Definition set_props (p : LayerProps) (l : Layer) : Layer :=
  match l with
  | LayerImage id _ cs => LayerImage id p cs
  | LayerFolder id _ ls => LayerFolder id p ls
  end.

(** All layer identifiers of a tree, parents before children. *)
Fixpoint layer_ids (l : Layer) : list LayerId :=
  match l with
  | LayerImage id _ _ => [id]
  | LayerFolder id _ ls => id :: flat_map layer_ids ls
  end.

(** The cel lists of the image layers, in traversal order. *)
Fixpoint image_layers (l : Layer) : list (list Cel) :=
  match l with
  | LayerImage _ _ cs => [cs]
  | LayerFolder _ _ ls => flat_map image_layers ls
  end.

(** Applies [f] to every node carrying the identifier [id]. *)
Fixpoint update_layer (id : LayerId) (f : Layer -> Layer) (l : Layer) : Layer :=
  let l' := match l with
            | LayerImage _ _ _ => l
            | LayerFolder i p ls => LayerFolder i p (map (update_layer id f) ls)
            end in
  if Nat.eqb (layer_id l) id then f l' else l'.

Definition set_layers (ls : list Layer) (l : Layer) : Layer :=
  match l with
  | LayerImage _ _ _ => l
  | LayerFolder id p _ => LayerFolder id p ls
  end.

(** Storing a layer object back at its address. *)
Definition replace_layer (l' : Layer) (root : Layer) : Layer :=
  update_layer (layer_id l') (fun _ => l') root.

Fixpoint find_layer (id : LayerId) (l : Layer) : option Layer :=
  if Nat.eqb (layer_id l) id then Some l
  else match l with
       | LayerImage _ _ _ => None
       | LayerFolder _ _ ls =>
           (fix go (ls : list Layer) : option Layer :=
              match ls with
              | [] => None
              | c :: cs => match find_layer id c with
                           | Some r => Some r
                           | None => go cs
                           end
              end) ls
       end.

(** [find_layer] through a list of children. *)
Fixpoint find_layers (id : LayerId) (ls : list Layer) : option Layer :=
  match ls with
  | [] => None
  | c :: cs => match find_layer id c with
               | Some r => Some r
               | None => find_layers id cs
               end
  end.

Definition has_child (id : LayerId) (ls : list Layer) : bool :=
  existsb (fun c => Nat.eqb (layer_id c) id) ls.

(** [Layer::get_parent()]: the folder that lists the layer. *)
Fixpoint get_parent (id : LayerId) (l : Layer) : option LayerId :=
  match l with
  | LayerImage _ _ _ => None
  | LayerFolder pid _ ls =>
      if has_child id ls then Some pid
      else (fix go (ls : list Layer) : option LayerId :=
              match ls with
              | [] => None
              | c :: cs => match get_parent id c with
                           | Some r => Some r
                           | None => go cs
                           end
              end) ls
  end.

(** [get_parent] through a list of children. *)
Fixpoint get_parents (id : LayerId) (ls : list Layer) : option LayerId :=
  match ls with
  | [] => None
  | c :: cs => match get_parent id c with
               | Some r => Some r
               | None => get_parents id cs
               end
  end.

(** The sibling just before [id] in a list of children. *)
Fixpoint prev_in (id : LayerId) (ls : list Layer) : option LayerId :=
  match ls with
  | a :: ((b :: _) as rest) =>
      if Nat.eqb (layer_id a) id then None
      else if Nat.eqb (layer_id b) id then Some (layer_id a)
      else prev_in id rest
  | _ => None
  end.

(** The sibling just after [id] in a list of children. *)
Fixpoint next_in (id : LayerId) (ls : list Layer) : option LayerId :=
  match ls with
  | a :: rest =>
      if Nat.eqb (layer_id a) id then layer_id <$> head rest
      else next_in id rest
  | [] => None
  end.

Definition siblings (id : LayerId) (root : Layer) : list Layer :=
  match get_parent id root with
  | Some p => match find_layer p root with
              | Some f => get_layers_list f
              | None => []
              end
  | None => []
  end.

(** [Layer::get_prev()] and [Layer::get_next()]. *)
Definition get_prev (id : LayerId) (root : Layer) : option LayerId :=
  prev_in id (siblings id root).
Definition get_next (id : LayerId) (root : Layer) : option LayerId :=
  next_in id (siblings id root).

(** [LayerFolder::add_layer(layer)]: the new child goes on top. *)
Definition add_layer (folder : LayerId) (l : Layer) (root : Layer) : Layer :=
  update_layer folder (fun f => set_layers (get_layers_list f ++ [l]) f) root.

Definition remove_child (id : LayerId) (ls : list Layer) : list Layer :=
  filter (fun c => layer_id c ≠ id) ls.

(** [LayerFolder::remove_layer(layer)]. *)
Definition remove_layer (folder : LayerId) (id : LayerId) (root : Layer) : Layer :=
  update_layer folder (fun f => set_layers (remove_child id (get_layers_list f)) f) root.

(** Places [l] just after the child [after] ([None]: at the bottom). *)
Fixpoint insert_after (after : option LayerId) (l : Layer) (ls : list Layer)
  : list Layer :=
  match after with
  | None => l :: ls
  | Some a =>
      match ls with
      | [] => [l]
      | c :: cs => if Nat.eqb (layer_id c) a then c :: l :: cs
                   else c :: insert_after after l cs
      end
  end.

(** [LayerFolder::move_layer(layer, after)]. *)
Definition move_layer (folder : LayerId) (id : LayerId) (after : option LayerId)
    (root : Layer) : Layer :=
  update_layer folder
    (fun f => match find (fun c => Nat.eqb (layer_id c) id) (get_layers_list f) with
              | Some l =>
                  set_layers (insert_after after l (remove_child id (get_layers_list f))) f
              | None => f
              end) root.

(** Applies [f] to every cel of the tree. *)
Fixpoint map_cels (f : Cel -> Cel) (l : Layer) : Layer :=
  match l with
  | LayerImage id p cs => LayerImage id p (map f cs)
  | LayerFolder id p ls => LayerFolder id p (map (map_cels f) ls)
  end.

(** Writing a field through a [Cel*] found anywhere in the tree. *)
Definition update_cel (id : CelId) (f : Cel -> Cel) (root : Layer) : Layer :=
  map_cels (fun c => if Nat.eqb (cel_id c) id then f c else c) root.

Section Model.
Context `{R : Raster}.

(** ** Stock, sprite and undo history

    [raster/stock.cpp], [raster/sprite.cpp] and [raster/undo_history.cpp] are
    outside this file. *)

(** Modelled from the spec: the stock of [raster/stock.h] is missing; it is
    the indexed pool of shared images of the data model.  A freed slot stays
    in the pool as a null entry; a new image takes a new slot at the end. *)
Record Stock := mkStock {
  stock_imgtype : Z;
  stock_images : list (option Image)
}.

Definition stock_size (st : Stock) : Z := Z.of_nat (length (stock_images st)).

Definition stock_getImage (st : Stock) (index : Z) : option Image :=
  if index <? 0 then None
  else match stock_images st !! Z.to_nat index with
       | Some slot => slot
       | None => None
       end.

Definition stock_addImage (img : Image) (st : Stock) : Stock :=
  mkStock (stock_imgtype st) (stock_images st ++ [Some img]).

Definition stock_put (index : Z) (slot : option Image) (st : Stock) : Stock :=
  mkStock (stock_imgtype st) (<[Z.to_nat index := slot]> (stock_images st)).

Definition stock_setImgType (v : Z) (st : Stock) : Stock :=
  mkStock v (stock_images st).

(** Modelled from the spec: the sprite of [raster/sprite.h] is missing; its
    fields are those of the data model (layer tree, stock, current frame,
    frame count, durations, mask and mask repository, palettes, colour mode,
    current layer). *)
Record Sprite := mkSprite {
  m_imgtype : Z;
  m_width : Z;
  m_height : Z;
  m_frames : Z;
  m_frlens : list Z;
  m_frame : Z;
  m_palettes : list Palette;
  m_stock : Stock;
  m_folder : Layer;
  m_layer : option LayerId;
  m_mask : Mask;
  m_masks : list Mask
}.

Definition set_imgtype v s :=
  mkSprite v (m_width s) (m_height s) (m_frames s) (m_frlens s) (m_frame s)
    (m_palettes s) (m_stock s) (m_folder s) (m_layer s) (m_mask s) (m_masks s).
Definition set_size w h s :=
  mkSprite (m_imgtype s) w h (m_frames s) (m_frlens s) (m_frame s)
    (m_palettes s) (m_stock s) (m_folder s) (m_layer s) (m_mask s) (m_masks s).
Definition set_frames v s :=
  mkSprite (m_imgtype s) (m_width s) (m_height s) v (m_frlens s) (m_frame s)
    (m_palettes s) (m_stock s) (m_folder s) (m_layer s) (m_mask s) (m_masks s).
Definition set_frlens v s :=
  mkSprite (m_imgtype s) (m_width s) (m_height s) (m_frames s) v (m_frame s)
    (m_palettes s) (m_stock s) (m_folder s) (m_layer s) (m_mask s) (m_masks s).
Definition set_frame v s :=
  mkSprite (m_imgtype s) (m_width s) (m_height s) (m_frames s) (m_frlens s) v
    (m_palettes s) (m_stock s) (m_folder s) (m_layer s) (m_mask s) (m_masks s).
Definition set_palettes v s :=
  mkSprite (m_imgtype s) (m_width s) (m_height s) (m_frames s) (m_frlens s)
    (m_frame s) v (m_stock s) (m_folder s) (m_layer s) (m_mask s) (m_masks s).
Definition set_stock v s :=
  mkSprite (m_imgtype s) (m_width s) (m_height s) (m_frames s) (m_frlens s)
    (m_frame s) (m_palettes s) v (m_folder s) (m_layer s) (m_mask s) (m_masks s).
Definition set_folder v s :=
  mkSprite (m_imgtype s) (m_width s) (m_height s) (m_frames s) (m_frlens s)
    (m_frame s) (m_palettes s) (m_stock s) v (m_layer s) (m_mask s) (m_masks s).
Definition set_layer v s :=
  mkSprite (m_imgtype s) (m_width s) (m_height s) (m_frames s) (m_frlens s)
    (m_frame s) (m_palettes s) (m_stock s) (m_folder s) v (m_mask s) (m_masks s).
Definition set_mask v s :=
  mkSprite (m_imgtype s) (m_width s) (m_height s) (m_frames s) (m_frlens s)
    (m_frame s) (m_palettes s) (m_stock s) (m_folder s) (m_layer s) v (m_masks s).
Definition set_masks v s :=
  mkSprite (m_imgtype s) (m_width s) (m_height s) (m_frames s) (m_frlens s)
    (m_frame s) (m_palettes s) (m_stock s) (m_folder s) (m_layer s) (m_mask s) v.

(** Modelled from the spec: [Sprite::setTotalFrames] is in [raster/sprite.cpp],
    which is missing.  The array of durations has one entry per frame (data
    model, invariant of the sprite): it is cut or extended to the new count;
    the duration of a frame that was not there reads 0, as
    [getFrameDuration] does past the end of the array. *)
Definition setTotalFrames (frames : Z) (s : Sprite) : Sprite :=
  set_frlens (resize (Z.to_nat frames) 0 (m_frlens s)) (set_frames frames s).

(** [Sprite::getFrameDuration] and [Sprite::setFrameDuration]. *)
Definition getFrameDuration (s : Sprite) (frame : Z) : Z :=
  if frame <? 0 then 0 else default 0 (m_frlens s !! Z.to_nat frame).
Definition put_frlen (frame msecs : Z) (s : Sprite) : Sprite :=
  if frame <? 0 then s
  else set_frlens (<[Z.to_nat frame := msecs]> (m_frlens s)) s.

(** [Sprite::getBackgroundLayer()]: the layer of the root folder that is
    flagged as background. *)
Definition getBackgroundLayer (s : Sprite) : option Layer :=
  find (fun l => is_image l && is_background (layer_props l))
       (get_layers_list (m_folder s)).

(** [Sprite::requestMask(name)]. *)
Definition requestMask (s : Sprite) (n : string) : option Mask :=
  find (fun m => String.eqb (mask_name m) n) (m_masks s).

(** The address of an [int] handed to [undo_int]. *)
Inductive IntField :=
| StockImgtype
| CelFrame (cel : CelId)
| CelX (cel : CelId)
| CelY (cel : CelId)
| MaskX
| MaskY.

(** Modelled from the spec: the records of [raster/undo_history.cpp] are
    missing; one tagged variant per primitive inverse kind, each holding the
    state needed to reverse one mutation. *)
Inductive UndoRecord :=
| UndoSetFrames (frames : Z)
| UndoSetFrame (frame : Z)
| UndoSetLayer (layer : option LayerId)
| UndoSetSize (w h : Z)
| UndoSetImgtype (imgtype : Z)
| UndoSetFrlen (frame msecs : Z)
| UndoInt (field : IntField) (value : Z)
| UndoDirty (index : Z) (saved : Image)
| UndoAddImage (index : Z)
| UndoRemoveImage (index : Z) (saved : option Image)
| UndoReplaceImage (index : Z) (saved : option Image)
| UndoAddLayer (folder layer : LayerId)
| UndoRemoveLayer (parent : LayerId) (after : option LayerId) (saved : Layer)
| UndoMoveLayer (layer : LayerId) (after : option LayerId)
| UndoAddCel (layer : LayerId) (cel : Cel)
| UndoRemoveCel (layer : LayerId) (saved : Cel)
| UndoSetMask (saved : Mask)
| UndoRemovePalette (saved : Palette).

(** Modelled from the spec: the replay of one inverse record against the
    document ([undo_history.cpp] is missing). *)
Definition undo_record (r : UndoRecord) (s : Sprite) : Sprite :=
  match r with
  | UndoSetFrames v => setTotalFrames v s
  | UndoSetFrame v => set_frame v s
  | UndoSetLayer l => set_layer l s
  | UndoSetSize w h => set_size w h s
  | UndoSetImgtype v => set_imgtype v s
  | UndoSetFrlen f v => put_frlen f v s
  | UndoInt StockImgtype v => set_stock (stock_setImgType v (m_stock s)) s
  | UndoInt (CelFrame c) v => set_folder (update_cel c (cel_set_frame v) (m_folder s)) s
  | UndoInt (CelX c) v =>
      set_folder (update_cel c (fun k => cel_set_position v (cel_y k) k) (m_folder s)) s
  | UndoInt (CelY c) v =>
      set_folder (update_cel c (fun k => cel_set_position (cel_x k) v k) (m_folder s)) s
  | UndoInt MaskX v => set_mask (mask_set_x v (m_mask s)) s
  | UndoInt MaskY v => set_mask (mask_set_y v (m_mask s)) s
  | UndoDirty i img => set_stock (stock_put i (Some img) (m_stock s)) s
  | UndoAddImage i => set_stock (stock_put i None (m_stock s)) s
  | UndoRemoveImage i img => set_stock (stock_put i img (m_stock s)) s
  | UndoReplaceImage i img => set_stock (stock_put i img (m_stock s)) s
  | UndoAddLayer f l => set_folder (remove_layer f l (m_folder s)) s
  | UndoRemoveLayer p after saved =>
      set_folder
        (update_layer p
           (fun f => set_layers (insert_after after saved (get_layers_list f)) f)
           (m_folder s)) s
  | UndoMoveLayer l after =>
      match get_parent l (m_folder s) with
      | Some p => set_folder (move_layer p l after (m_folder s)) s
      | None => s
      end
  | UndoAddCel l c =>
      set_folder
        (update_layer l (fun n => set_cels (cels_remove c (layer_cels n)) n)
           (m_folder s)) s
  | UndoRemoveCel l c =>
      set_folder
        (update_layer l (fun n => set_cels (cels_add c (layer_cels n)) n)
           (m_folder s)) s
  | UndoSetMask m => set_mask m s
  | UndoRemovePalette p => set_palettes (p :: m_palettes s) s
  end.

(** Modelled from the spec: the journal of [raster/undo_history.h] is
    missing.  An enabled flag, the group being recorded (most recent record
    first), the committed groups (most recent first) and the redo groups. *)
Record UndoHistory := mkHistory {
  h_enabled : bool;
  h_label : string;
  h_open : option (list UndoRecord);
  h_undo : list (string * list UndoRecord);
  h_redo : list (string * list UndoRecord)
}.

(** What the transaction does to its collaborators, in call order. *)
Inductive Target :=
| OnSprite | OnStock | OnFolder | OnLayer (l : LayerId) | OnCel (c : CelId)
| OnMask | OnMasks | OnPalettes.

Inductive Event :=
| Recorded (r : UndoRecord)
| Opened
| Closed
| Undone
| RedoCleared
| Mutated (o : Target).

Record World := mkWorld {
  sprite : Sprite;
  undoHistory : UndoHistory;
  next_id : nat;
  trace : list Event
}.

Arguments mkWorld _ _ next_id%_nat _.

Abbreviation Tx := (M World).

Definition emit (e : Event) : Tx unit :=
  modify (fun w => mkWorld (sprite w) (undoHistory w) (next_id w) (trace w ++ [e])).

(** A call that changes the document. *)
Definition mutate (o : Target) (f : Sprite -> Sprite) : Tx unit :=
  modify (fun w => mkWorld (f (sprite w)) (undoHistory w) (next_id w)
                     (trace w ++ [Mutated o])).

(** [new]: a fresh address. *)
Definition fresh : Tx nat :=
  fun w => Some (next_id w,
                 mkWorld (sprite w) (undoHistory w) (S (next_id w)) (trace w)).

(** Leaving a traversal: the rebuilt tree is the sprite's tree (the cels
    were already written one by one; no call is made here). *)
Definition store_folder (root : Layer) : Tx unit :=
  modify (fun w => mkWorld (set_folder root (sprite w)) (undoHistory w)
                     (next_id w) (trace w)).
Definition store_layer (l : Layer) : Tx unit :=
  modify (fun w => mkWorld (set_folder (replace_layer l (m_folder (sprite w))) (sprite w))
                     (undoHistory w) (next_id w) (trace w)).

Definition with_history (f : UndoHistory -> UndoHistory) (e : Event) : Tx unit :=
  modify (fun w => mkWorld (sprite w) (f (undoHistory w)) (next_id w)
                     (trace w ++ [e])).

(** [UndoHistory::undo_open()]: opens a group; fatal when one is open. *)
Definition undo_open : Tx unit :=
  h ← gets undoHistory;
  match h_open h with
  | Some _ => fail
  | None =>
      with_history
        (fun h => mkHistory (h_enabled h) (h_label h) (Some []) (h_undo h) (h_redo h))
        Opened
  end.

(** [UndoHistory::setLabel(label)]. *)
Definition setLabel (label : string) : Tx unit :=
  modify (fun w =>
    let h := undoHistory w in
    mkWorld (sprite w)
      (mkHistory (h_enabled h) label (h_open h) (h_undo h) (h_redo h))
      (next_id w) (trace w)).

(** [UndoHistory::undo_close()]: the open group joins the committed ones. *)
Definition undo_close : Tx unit :=
  h ← gets undoHistory;
  match h_open h with
  | None => fail
  | Some g =>
      with_history
        (fun h => mkHistory (h_enabled h) (h_label h) None
                    ((h_label h, g) :: h_undo h) (h_redo h))
        Closed
  end.

(** Appends one inverse record to the open group; fatal without one. *)
Definition record (r : UndoRecord) : Tx unit :=
  h ← gets undoHistory;
  match h_open h with
  | None => fail
  | Some g =>
      with_history
        (fun h => mkHistory (h_enabled h) (h_label h) (Some (r :: g))
                    (h_undo h) (h_redo h))
        (Recorded r)
  end.

(** [UndoHistory::doUndo()]: the last committed group is replayed, last
    record first, and becomes pending for redo. *)
Definition doUndo : Tx unit :=
  h ← gets undoHistory;
  match h_undo h with
  | [] => fail
  | (label, g) :: rest =>
      modify (fun w =>
        mkWorld (foldl (fun s r => undo_record r s) (sprite w) g)
          (mkHistory (h_enabled h) (h_label h) (h_open h) rest
             ((label, g) :: h_redo h))
          (next_id w) (trace w ++ [Undone]))
  end.

(** [UndoHistory::clearRedo()]. *)
Definition clearRedo : Tx unit :=
  with_history
    (fun h => mkHistory (h_enabled h) (h_label h) (h_open h) (h_undo h) [])
    RedoCleared.

(** The journal's recording calls: each reads what it saves at the moment it
    is called. *)
Definition undo_set_frames : Tx unit :=
  s ← gets sprite; record (UndoSetFrames (m_frames s)).
Definition undo_set_frame : Tx unit :=
  s ← gets sprite; record (UndoSetFrame (m_frame s)).
Definition undo_set_layer : Tx unit :=
  s ← gets sprite; record (UndoSetLayer (m_layer s)).
Definition undo_set_size : Tx unit :=
  s ← gets sprite; record (UndoSetSize (m_width s) (m_height s)).
Definition undo_set_imgtype : Tx unit :=
  s ← gets sprite; record (UndoSetImgtype (m_imgtype s)).
Definition undo_set_frlen (frame : Z) : Tx unit :=
  s ← gets sprite; record (UndoSetFrlen frame (getFrameDuration s frame)).
Definition undo_int (field : IntField) (value : Z) : Tx unit :=
  record (UndoInt field value).
Definition undo_dirty (index : Z) (saved : Image) : Tx unit :=
  record (UndoDirty index saved).
Definition undo_add_image (index : Z) : Tx unit :=
  record (UndoAddImage index).
Definition undo_remove_image (index : Z) : Tx unit :=
  s ← gets sprite; record (UndoRemoveImage index (stock_getImage (m_stock s) index)).
Definition undo_replace_image (index : Z) : Tx unit :=
  s ← gets sprite; record (UndoReplaceImage index (stock_getImage (m_stock s) index)).
Definition undo_add_layer (folder layer : LayerId) : Tx unit :=
  record (UndoAddLayer folder layer).
Definition undo_remove_layer (layer : LayerId) : Tx unit :=
  s ← gets sprite;
  match get_parent layer (m_folder s), find_layer layer (m_folder s) with
  | Some p, Some l => record (UndoRemoveLayer p (get_prev layer (m_folder s)) l)
  | _, _ => fail
  end.
Definition undo_move_layer (layer : LayerId) : Tx unit :=
  s ← gets sprite; record (UndoMoveLayer layer (get_prev layer (m_folder s))).
Definition undo_add_cel (layer : LayerId) (cel : Cel) : Tx unit :=
  record (UndoAddCel layer cel).
Definition undo_remove_cel (layer : LayerId) (cel : Cel) : Tx unit :=
  record (UndoRemoveCel layer cel).
Definition undo_set_mask : Tx unit :=
  s ← gets sprite; record (UndoSetMask (m_mask s)).
Definition undo_remove_palette (p : Palette) : Tx unit :=
  record (UndoRemovePalette p).

(** ** [UndoTransaction] *)

Record UndoTransaction := mkTransaction {
  m_committed : bool;
  m_enabledFlag : bool
}.

Definition isEnabled (t : UndoTransaction) : bool := m_enabledFlag t.

(** [UndoTransaction::UndoTransaction(document, label)] *)
Definition UndoTransaction_new (label : string) : Tx UndoTransaction :=
  h ← gets undoHistory;
  let t := mkTransaction false (h_enabled h) in
  when (isEnabled t) (setLabel label;; undo_open);;
  mret t.

(** [UndoTransaction::~UndoTransaction()] *)
Definition UndoTransaction_delete (t : UndoTransaction) : Tx unit :=
  when (isEnabled t)
    (undo_close;;
     when (negb (m_committed t))
       (doUndo;;
        clearRedo)).

(** [UndoTransaction::commit()] *)
Definition commit (t : UndoTransaction) : UndoTransaction :=
  mkTransaction true (m_enabledFlag t).

Definition setNumberOfFrames (t : UndoTransaction) (frames : Z) : Tx unit :=
  ASSERT (frames >=? 1);;
  when (isEnabled t) undo_set_frames;;
  mutate OnSprite (setTotalFrames frames).

Definition setCurrentFrame (t : UndoTransaction) (frame : Z) : Tx unit :=
  ASSERT (frame >=? 0);;
  when (isEnabled t) undo_set_frame;;
  mutate OnSprite (set_frame frame).

Definition setCurrentLayer (t : UndoTransaction) (layer : option LayerId) : Tx unit :=
  when (isEnabled t) undo_set_layer;;
  mutate OnSprite (set_layer layer).

Definition setSpriteSize (t : UndoTransaction) (w h : Z) : Tx unit :=
  ASSERT (w >? 0);;
  ASSERT (h >? 0);;
  when (isEnabled t) undo_set_size;;
  mutate OnSprite (set_size w h).

(** [Stock::addImage]: returns the index of the new slot. *)
Definition Stock_addImage (image : Image) : Tx Z :=
  s ← gets sprite;
  mutate OnStock (fun s => set_stock (stock_addImage image (m_stock s)) s);;
  mret (stock_size (m_stock s)).

Definition addImageInStock (t : UndoTransaction) (image : Image) : Tx Z :=
  image_index ← Stock_addImage image;
  when (isEnabled t) (undo_add_image image_index);;
  mret image_index.

Definition removeImageFromStock (t : UndoTransaction) (image_index : Z) : Tx unit :=
  ASSERT (image_index >=? 0);;
  s ← gets sprite;
  match stock_getImage (m_stock s) image_index with
  | None => fail
  | Some image =>
      when (isEnabled t) (undo_remove_image image_index);;
      mutate OnStock (fun s => set_stock (stock_put image_index None (m_stock s)) s)
  end.

Definition replaceStockImage (t : UndoTransaction) (image_index : Z)
    (new_image : Image) : Tx unit :=
  s ← gets sprite;
  match stock_getImage (m_stock s) image_index with
  | None => fail
  | Some old_image =>
      when (isEnabled t) (undo_replace_image image_index);;
      mutate OnStock
        (fun s => set_stock (stock_put image_index (Some new_image) (m_stock s)) s)
  end.

Definition setCelFramePosition (t : UndoTransaction) (cel : Cel) (frame : Z)
  : Tx Cel :=
  ASSERT (frame >=? 0);;
  when (isEnabled t) (undo_int (CelFrame (cel_id cel)) (cel_frame cel));;
  emit (Mutated (OnCel (cel_id cel)));;
  mret (cel_set_frame frame cel).

Definition setCelPosition (t : UndoTransaction) (cel : Cel) (x y : Z) : Tx Cel :=
  when (isEnabled t)
    (undo_int (CelX (cel_id cel)) (cel_x cel);;
     undo_int (CelY (cel_id cel)) (cel_y cel));;
  emit (Mutated (OnCel (cel_id cel)));;
  emit (Mutated (OnCel (cel_id cel)));;
  mret (cel_set_position x y cel).

Definition setFrameDuration (t : UndoTransaction) (frame msecs : Z) : Tx unit :=
  when (isEnabled t) (undo_set_frlen frame);;
  mutate OnSprite (put_frlen frame msecs).

Definition setMaskPosition (t : UndoTransaction) (x y : Z) : Tx unit :=
  s ← gets sprite;
  when (isEnabled t)
    (undo_int MaskX (mask_x (m_mask s));;
     undo_int MaskY (mask_y (m_mask s)));;
  mutate OnMask (fun s => set_mask (mask_set_x x (m_mask s)) s);;
  mutate OnMask (fun s => set_mask (mask_set_y y (m_mask s)) s).

Definition addCel (t : UndoTransaction) (layer : Layer) (cel : Cel) : Tx Layer :=
  when (isEnabled t) (undo_add_cel (layer_id layer) cel);;
  emit (Mutated (OnLayer (layer_id layer)));;
  mret (set_cels (cels_add cel (layer_cels layer)) layer).

(** The scan of [removeCel]: is the image of [cel] used by another cel of
    [layer] at one of the sprite's frames? *)
Definition image_used (cels : list Cel) (cel : Cel) (frames : Z) : bool :=
  existsb (fun frame =>
             match getCel cels frame with
             | Some it => negb (Nat.eqb (cel_id it) (cel_id cel))
                          && (cel_image it =? cel_image cel)
             | None => false
             end)
          (frames_upto frames).

Definition removeCel (t : UndoTransaction) (layer : Layer) (cel : Cel) : Tx Layer :=
  s ← gets sprite;
  let used := image_used (layer_cels layer) cel (m_frames s) in
  when (negb used) (removeImageFromStock t (cel_image cel));;
  when (isEnabled t) (undo_remove_cel (layer_id layer) cel);;
  emit (Mutated (OnLayer (layer_id layer)));;
  mret (set_cels (cels_remove cel (layer_cels layer)) layer).

Definition cropCel (t : UndoTransaction) (cel : Cel) (x y w h bgcolor : Z) : Tx Cel :=
  s ← gets sprite;
  match stock_getImage (m_stock s) (cel_image cel) with
  | None => fail
  | Some image =>
      let new_image := image_crop image (x - cel_x cel) (y - cel_y cel) w h bgcolor in
      replaceStockImage t (cel_image cel) new_image;;
      setCelPosition t cel x y
  end.

Definition cropLayer (t : UndoTransaction) (layer : Layer) (x y w h bgcolor : Z)
  : Tx Layer :=
  match layer with
  | LayerFolder _ _ _ => mret layer
  | LayerImage id props cels =>
      let bgcolor := if is_background props then bgcolor else 0 in
      cels' ← mapM (fun cel => cropCel t cel x y w h bgcolor) cels;
      mret (LayerImage id props cels')
  end.

Fixpoint displaceLayers (t : UndoTransaction) (layer : Layer) (dx dy : Z)
  : Tx Layer :=
  match layer with
  | LayerImage id props cels =>
      cels' ← mapM (fun cel => setCelPosition t cel (int_wrap (cel_x cel + dx))
                                  (int_wrap (cel_y cel + dy))) cels;
      mret (LayerImage id props cels')
  | LayerFolder id props layers =>
      layers' ← mapM (fun l => displaceLayers t l dx dy) layers;
      mret (LayerFolder id props layers')
  end.

Definition cropSprite (t : UndoTransaction) (x y w h bgcolor : Z) : Tx unit :=
  setSpriteSize t w h;;
  s ← gets sprite;
  folder ← displaceLayers t (m_folder s) (int_wrap (- x)) (int_wrap (- y));
  store_folder folder;;
  s ← gets sprite;
  match getBackgroundLayer s with
  | Some background_layer =>
      l ← cropLayer t background_layer 0 0 (m_width s) (m_height s) bgcolor;
      store_layer l
  | None => mret tt
  end;;
  s ← gets sprite;
  if negb (mask_is_empty (m_mask s))
  then setMaskPosition t (int_wrap (mask_x (m_mask s) - x))
                         (int_wrap (mask_y (m_mask s) - y))
  else mret tt.

(** [Sprite::render(image, x, y)]: the layers at the current frame. *)
Definition sprite_render (s : Sprite) (image : Image) (x y : Z) : Image :=
  layer_render (m_folder s) (stock_images (m_stock s)) image x y (m_frame s).

Definition bounds : Type := Z * Z * Z * Z.

(** One turn of the loop of [autocropSprite]. *)
Definition autocrop_frame (acc : Image * bounds) (frame : Z) : Tx (Image * bounds) :=
  let '(image, (x1, y1, x2, y2)) := acc in
  mutate OnSprite (set_frame frame);;
  s ← gets sprite;
  let image := sprite_render s (image_clear image 0) 0 0 in
  match image_shrink_rect image (image_getpixel image 0 0) with
  | Some (u1, v1, u2, v2) =>
      mret (image, (Z.min x1 u1, Z.min y1 v1, Z.max x2 u2, Z.max y2 v2))
  | None => mret (image, (x1, y1, x2, y2))
  end.

(** The part of [autocropSprite] up to [image_free]: the bounding box. *)
Definition autocrop_scan : Tx bounds :=
  s ← gets sprite;
  let old_frame := m_frame s in
  let image := image_new (m_imgtype s) (m_width s) (m_height s) in
  r ← foldM autocrop_frame (image, (INT_MAX, INT_MAX, INT_MIN, INT_MIN))
        (frames_upto (m_frames s));
  mutate OnSprite (set_frame old_frame);;
  mret (snd r).

Definition autocropSprite (t : UndoTransaction) (bgcolor : Z) : Tx unit :=
  '(x1, y1, x2, y2) ← autocrop_scan;
  if (x1 >? x2) || (y1 >? y2) then mret tt
  else cropSprite t x1 y1 (x2 - x1 + 1) (y2 - y1 + 1) bgcolor.

(** [Sprite::getRgbMap()] and [Sprite::getCurrentPalette()]. *)
Definition getRgbMap (s : Sprite) : RgbMap := rgbmap_at (m_palettes s) (m_frame s).
Definition getCurrentPalette (s : Sprite) : Palette :=
  palette_at (m_palettes s) (m_frame s).

(** Modelled from the spec: [Sprite::resetPalettes] followed by
    [Sprite::setPalette(graypal, true)] are missing; together they remove all
    existing palettes and install the one given. *)
Definition resetPalettes (s : Sprite) : Sprite := set_palettes [] s.
Definition setPalette (p : Palette) (s : Sprite) : Sprite :=
  set_palettes (m_palettes s ++ [p]) s.

(** The body of the loop of [setImgType] over the stock. *)
Definition convert_stock_image (t : UndoTransaction) (new_imgtype : Z)
    (dithering_method : DitheringMethod) (rgbmap : RgbMap) (c : Z) : Tx unit :=
  s ← gets sprite;
  match stock_getImage (m_stock s) c with
  | None => mret tt
  | Some old_image =>
      let new_image :=
        convert_imgtype old_image new_imgtype dithering_method rgbmap
          (getCurrentPalette s)
          (bool_decide (getBackgroundLayer s ≠ None)) in
      replaceStockImage t c new_image
  end.

(** [m_document->destroyExtraCel()] acts on the document's overlay, which is
    not part of the sprite: it has no counterpart here. *)
Definition setImgType (t : UndoTransaction) (new_imgtype : Z)
    (dithering_method : DitheringMethod) : Tx unit :=
  s ← gets sprite;
  if m_imgtype s =? new_imgtype then mret tt
  else
    when (isEnabled t) (undo_int StockImgtype (stock_imgtype (m_stock s)));;
    mutate OnStock (fun s => set_stock (stock_setImgType new_imgtype (m_stock s)) s);;
    s ← gets sprite;
    let rgbmap := getRgbMap s in
    forM_ (zrange 0 (length (stock_images (m_stock s))))
      (convert_stock_image t new_imgtype dithering_method rgbmap);;
    when (isEnabled t) undo_set_imgtype;;
    mutate OnSprite (set_imgtype new_imgtype);;
    if new_imgtype =? IMAGE_GRAYSCALE then
      when (isEnabled t)
        (s ← gets sprite; forM_ (m_palettes s) undo_remove_palette);;
      mutate OnPalettes resetPalettes;;
      mutate OnPalettes (setPalette createGrayscale)
    else mret tt.

(** [LayerFolder::add_layer] and [remove_layer] called on a folder object. *)
Definition folder_add_layer (l : Layer) (folder : Layer) : Layer :=
  set_layers (get_layers_list folder ++ [l]) folder.
Definition folder_remove_layer (id : LayerId) (folder : Layer) : Layer :=
  set_layers (remove_child id (get_layers_list folder)) folder.

Definition newLayer (t : UndoTransaction) : Tx LayerId :=
  id ← fresh;
  let layer := LayerImage id default_props [] in
  s ← gets sprite;
  when (isEnabled t) (undo_add_layer (layer_id (m_folder s)) id);;
  mutate OnFolder (fun s => set_folder (folder_add_layer layer (m_folder s)) s);;
  setCurrentLayer t (Some id);;
  mret id.

(** The selection that replaces a removed current layer. *)
Definition layer_select_after (layer : LayerId) (root : Layer) : option LayerId :=
  match get_prev layer root with
  | Some prev => Some prev
  | None =>
      match get_next layer root with
      | Some next => Some next
      | None =>
          match get_parent layer root with
          | Some parent =>
              if negb (Nat.eqb parent (layer_id root)) then Some parent else None
          | None => None
          end
      end
  end.

(** [delete layer] leaves nothing behind: the object was the list entry. *)
Definition removeLayer (t : UndoTransaction) (layer : LayerId) : Tx unit :=
  s ← gets sprite;
  let parent := get_parent layer (m_folder s) in
  when (bool_decide (m_layer s = Some layer))
    (setCurrentLayer t (layer_select_after layer (m_folder s)));;
  when (isEnabled t) (undo_remove_layer layer);;
  match parent with
  | None => fail
  | Some parent =>
      mutate OnFolder (fun s => set_folder (remove_layer parent layer (m_folder s)) s)
  end.

(** Modelled from the spec: [LayerImage::configureAsBackground] is missing;
    it sets the background flag, locks the layer in place, forces the name
    and moves the layer to the bottom of the root folder. *)
Definition configureAsBackground (id : LayerId) (s : Sprite) : Sprite :=
  let root := update_layer id
                (fun l => set_props
                   (mkProps "Background" true false
                      (is_readable (layer_props l)) (is_writable (layer_props l))) l)
                (m_folder s) in
  set_folder (move_layer (layer_id root) id None root) s.

(** One frame of the copy loop of [flattenLayers]; the scratch [image] is
    carried from one frame to the next. *)
Definition flatten_frame (t : UndoTransaction) (background : LayerId) (bgcolor : Z)
    (image : Image) (frame : Z) : Tx Image :=
  s ← gets sprite;
  let image := image_clear image bgcolor in
  let image := layer_render (m_folder s) (stock_images (m_stock s)) image 0 0 frame in
  match find_layer background (m_folder s) with
  | None => fail
  | Some bg =>
      match getCel (layer_cels bg) frame with
      | Some cel =>
          match stock_getImage (m_stock s) (cel_image cel) with
          | None => fail
          | Some cel_img =>
              when (isEnabled t) (undo_dirty (cel_image cel) cel_img);;
              mutate OnStock
                (fun s => set_stock
                   (stock_put (cel_image cel) (Some (image_copy cel_img image 0 0))
                      (m_stock s)) s)
          end
      | None =>
          let cel_img := image in
          index ← Stock_addImage cel_img;
          c ← fresh;
          let cel := cel_new c frame index in
          mutate (OnLayer background)
            (fun s => set_folder
               (update_layer background
                  (fun l => set_cels (cels_add cel (layer_cels l)) l) (m_folder s)) s);;
          mutate OnStock
            (fun s => set_stock
               (stock_put index (Some (image_copy cel_img image 0 0)) (m_stock s)) s)
      end
  end;;
  mret image.

Definition flattenLayers (t : UndoTransaction) (bgcolor : Z) : Tx unit :=
  s ← gets sprite;
  let image := image_new (m_imgtype s) (m_width s) (m_height s) in
  background ←
    match getBackgroundLayer s with
    | Some bg => mret (layer_id bg)
    | None =>
        id ← fresh;
        when (isEnabled t) (undo_add_layer (layer_id (m_folder s)) id);;
        mutate OnFolder
          (fun s => set_folder
             (folder_add_layer (LayerImage id default_props []) (m_folder s)) s);;
        when (isEnabled t) (undo_move_layer id);;
        mutate (OnLayer id) (configureAsBackground id);;
        mret id
    end;
  foldM (flatten_frame t background bgcolor) image (frames_upto (m_frames s));;
  s ← gets sprite;
  when (negb (bool_decide (m_layer s = Some background)))
    (when (isEnabled t) undo_set_layer;;
     mutate OnSprite (set_layer (Some background)));;
  s ← gets sprite;
  forM_ (get_layers_list (m_folder s))
    (fun old_layer =>
       when (negb (Nat.eqb (layer_id old_layer) background))
         (when (isEnabled t) (undo_remove_layer (layer_id old_layer));;
          mutate OnFolder
            (fun s => set_folder
               (folder_remove_layer (layer_id old_layer) (m_folder s)) s))).

(** The loop of [removeFrameOfLayer] over the frames after the removed one:
    one turn. *)
Definition shift_cel_back (t : UndoTransaction) (cels : list Cel) (frame : Z)
  : Tx (list Cel) :=
  match getCel cels frame with
  | Some cel =>
      cel' ← setCelFramePosition t cel (cel_frame cel - 1);
      mret (cels_update cel' cels)
  | None => mret cels
  end.

Fixpoint removeFrameOfLayer (t : UndoTransaction) (layer : Layer) (frame : Z)
  : Tx Layer :=
  ASSERT (frame >=? 0);;
  match layer with
  | LayerImage id props cels =>
      layer1 ← match getCel cels frame with
               | Some cel => removeCel t layer cel
               | None => mret layer
               end;
      s ← gets sprite;
      cels2 ← foldM (shift_cel_back t) (layer_cels layer1)
                (zrange (frame + 1) (Z.to_nat (m_frames s - (frame + 1))));
      mret (LayerImage id props cels2)
  | LayerFolder id props layers =>
      layers' ← mapM (fun l => removeFrameOfLayer t l frame) layers;
      mret (LayerFolder id props layers')
  end.

Definition removeFrame (t : UndoTransaction) (frame : Z) : Tx unit :=
  ASSERT (frame >=? 0);;
  s ← gets sprite;
  folder ← removeFrameOfLayer t (m_folder s) frame;
  store_folder folder;;
  s ← gets sprite;
  let newTotalFrames := m_frames s - 1 in
  when (m_frame s >=? newTotalFrames) (setCurrentFrame t (newTotalFrames - 1));;
  setNumberOfFrames t newTotalFrames.

(** The new frame of a cel in [moveFrameBeforeLayer]. *)
Definition new_frame_of (cel_frame frame before_frame : Z) : Z :=
  if frame <? before_frame then
    if cel_frame =? frame then before_frame - 1
    else if (cel_frame >? frame) && (cel_frame <? before_frame) then cel_frame - 1
    else cel_frame
  else if before_frame <? frame then
    if cel_frame =? frame then before_frame
    else if (cel_frame >=? before_frame) && (cel_frame <? frame) then cel_frame + 1
    else cel_frame
  else cel_frame.

Fixpoint moveFrameBeforeLayer (t : UndoTransaction) (layer : Layer)
    (frame before_frame : Z) : Tx Layer :=
  match layer with
  | LayerImage id props cels =>
      cels' ← mapM (fun cel =>
                      let new_frame := new_frame_of (cel_frame cel) frame before_frame in
                      if negb (cel_frame cel =? new_frame)
                      then setCelFramePosition t cel new_frame
                      else mret cel) cels;
      mret (LayerImage id props cels')
  | LayerFolder id props layers =>
      layers' ← mapM (fun l => moveFrameBeforeLayer t l frame before_frame) layers;
      mret (LayerFolder id props layers')
  end.

Definition moveFrameBefore (t : UndoTransaction) (frame before_frame : Z) : Tx unit :=
  s ← gets sprite;
  if negb (frame =? before_frame)
     && (frame >=? 0) && (frame <? m_frames s)
     && (before_frame >=? 0) && (before_frame <? m_frames s)
  then
    let frlen_aux := getFrameDuration s frame in
    (if frame <? before_frame then
       forM_ (zrange frame (Z.to_nat (before_frame - 1 - frame)))
         (fun c => s ← gets sprite; setFrameDuration t c (getFrameDuration s (c + 1)));;
       setFrameDuration t (before_frame - 1) frlen_aux
     else if before_frame <? frame then
       forM_ (zrange_down frame (Z.to_nat (frame - before_frame)))
         (fun c => s ← gets sprite; setFrameDuration t c (getFrameDuration s (c - 1)));;
       setFrameDuration t before_frame frlen_aux
     else mret tt);;
    s ← gets sprite;
    folder ← moveFrameBeforeLayer t (m_folder s) frame before_frame;
    store_folder folder
  else mret tt.

(** [Sprite::removeMask(mask)]: the mask found by [requestMask] leaves the
    repository. *)
Fixpoint removeMask (n : string) (masks : list Mask) : list Mask :=
  match masks with
  | [] => []
  | m :: ms => if String.eqb (mask_name m) n then ms else m :: removeMask n ms
  end.

Definition deselectMask (t : UndoTransaction) : Tx unit :=
  s ← gets sprite;
  match requestMask s "*deselected*" with
  | Some mask =>
      mutate OnMasks (fun s => set_masks (removeMask "*deselected*" (m_masks s)) s)
  | None => mret tt
  end;;
  s ← gets sprite;
  let mask := mask_set_name "*deselected*" (m_mask s) in
  mutate OnMasks (fun s => set_masks (m_masks s ++ [mask]) s);;
  when (isEnabled t) undo_set_mask;;
  mutate OnMask (fun s => set_mask (mask_none (m_mask s)) s).

End Model.

Abbreviation Tx := (M World).

(** ** What the properties speak of *)

Section Specification.
Context `{R : Raster}.

(** Weakest precondition: [m] runs to completion from [w] and its result and
    final world satisfy [Q]. *)
Definition wp {A} (m : Tx A) (Q : A -> World -> Prop) (w : World) : Prop :=
  match m w with
  | Some (a, w') => Q a w'
  | None => False
  end.

(** The handle's invariant: an enabled transaction has its group open. *)
Definition ready (t : UndoTransaction) (w : World) : Prop :=
  isEnabled t = true -> is_Some (h_open (undoHistory w)).

(** A recording call appends to the open group and touches nothing else. *)
Definition recording (u : Tx unit) : Prop :=
  forall w, is_Some (h_open (undoHistory w)) ->
    exists r g,
      h_open (undoHistory w) = Some g /\
      u w = Some (tt,
        mkWorld (sprite w)
          (mkHistory (h_enabled (undoHistory w)) (h_label (undoHistory w))
             (Some (r :: g)) (h_undo (undoHistory w)) (h_redo (undoHistory w)))
          (next_id w) (trace w ++ [Recorded r])).

(** An operation run in a transaction that is destroyed without commit. *)
Definition rolled_back (label : string) (O : UndoTransaction -> Tx unit) : Tx unit :=
  t ← UndoTransaction_new label;
  O t;;
  UndoTransaction_delete t.

(** What an observer of the document compares. *)
Definition observably_equal (s1 s2 : Sprite) : Prop :=
  m_folder s1 = m_folder s2 /\
  stock_images (m_stock s1) = stock_images (m_stock s2) /\
  m_mask s1 = m_mask s2 /\
  m_frames s1 = m_frames s2 /\
  m_frlens s1 = m_frlens s2 /\
  m_frame s1 = m_frame s2 /\
  m_layer s1 = m_layer s2.

(** The calls made between two worlds. *)
Definition new_events (w w' : World) : list Event :=
  drop (length (trace w)) (trace w').

(** In a sequence of calls, is the first record made before the first
    mutation? *)
Fixpoint record_precedes_mutation (evs : list Event) : bool :=
  match evs with
  | [] => true
  | Recorded _ :: _ => true
  | Mutated _ :: _ => false
  | _ :: rest => record_precedes_mutation rest
  end.

(** The stock indices used by the cels of a tree. *)
Definition layer_images (l : Layer) : list Z :=
  map cel_image (concat (image_layers l)).

(** Stock referential integrity: every cel's image is a live slot. *)
Definition stock_integrity (s : Sprite) : Prop :=
  Forall (fun i => is_Some (stock_getImage (m_stock s) i)) (layer_images (m_folder s)).

(** The cels of a layer: one per frame, distinct objects, frames in range. *)
Definition cels_wf (frames : Z) (cels : list Cel) : Prop :=
  NoDup (map cel_frame cels) /\
  NoDup (map cel_id cels) /\
  Forall (fun c => 0 <= cel_frame c < frames) cels.

Definition no_common (l1 l2 : list Z) : Prop :=
  forall i, i ∈ l1 -> i ∈ l2 -> False.

Fixpoint pairwise_disjoint (ls : list (list Z)) : Prop :=
  match ls with
  | [] => True
  | l :: rest => Forall (no_common l) rest /\ pairwise_disjoint rest
  end.

(** Every image layer is well formed and no two layers share a stock slot. *)
Fixpoint layers_wf (frames : Z) (l : Layer) : Prop :=
  match l with
  | LayerImage _ _ cels => cels_wf frames cels
  | LayerFolder _ _ ls =>
      foldr (fun c acc => layers_wf frames c /\ acc) True ls /\
      pairwise_disjoint (map layer_images ls)
  end.

(** The cels of a layer once a frame is removed: the cel of that frame is
    gone, the later ones are one frame earlier. *)
Definition cels_without_frame (frame : Z) (cels : list Cel) : list Cel :=
  map (fun c => if cel_frame c >? frame then cel_set_frame (cel_frame c - 1) c else c)
      (filter (fun c => cel_frame c ≠ frame) cels).

(** The cels once the frames [lo0 .. lo-1] have been moved one frame back. *)
Definition shifted (lo0 lo : Z) (c : Cel) : Cel :=
  if (lo0 <=? cel_frame c) && (cel_frame c <? lo)
  then cel_set_frame (cel_frame c - 1) c else c.

Fixpoint without_frame (frame : Z) (l : Layer) : Layer :=
  match l with
  | LayerImage id p cels => LayerImage id p (cels_without_frame frame cels)
  | LayerFolder id p ls => LayerFolder id p (map (without_frame frame) ls)
  end.

(** The frames of the cels of the image layer [id]. *)
Definition cel_frames_of (id : LayerId) (root : Layer) : list Z :=
  match find_layer id root with
  | Some l => map cel_frame (layer_cels l)
  | None => []
  end.

(** The remapping of cel frames as the description of [moveFrameBefore]
    words it: the cel at [frame] jumps to the target slot, the cels strictly
    between the two indices shift by one, every other cel stays. *)
Definition new_frame_in_words (cel_frame frame before_frame : Z) : Z :=
  if cel_frame =? frame then
    (if frame <? before_frame then before_frame - 1 else before_frame)
  else if (Z.min frame before_frame <? cel_frame)
          && (cel_frame <? Z.max frame before_frame) then
    (if frame <? before_frame then cel_frame - 1 else cel_frame + 1)
  else cel_frame.

(** The folder holding the selection: the selected layer when it is a
    folder, the folder that lists it otherwise. *)
Definition selected_folder (s : Sprite) : option LayerId :=
  match m_layer s with
  | None => None
  | Some l =>
      match find_layer l (m_folder s) with
      | Some (LayerFolder id _ _) => Some id
      | _ => get_parent l (m_folder s)
      end
  end.

(** The image a stock slot holds after [setImgType]. *)
Definition converted (s : Sprite) (new_imgtype : Z) (d : DitheringMethod)
    (img : Image) : Image :=
  convert_imgtype img new_imgtype d (getRgbMap s) (getCurrentPalette s)
    (bool_decide (getBackgroundLayer s ≠ None)).

(** A computation that, when it completes, leaves one reading of the sprite
    as it found it. *)
Definition keeps {A X} (f : Sprite -> X) (m : Tx A) : Prop :=
  forall w a w', m w = Some (a, w') -> f (sprite w') = f (sprite w).

(** The worlds met while the durations are rotated: only the durations
    differ from the sprite [s0] the rotation began with. *)
Definition durations_only (t : UndoTransaction) (s0 : Sprite) (w' : World) : Prop :=
  ready t w' /\
  sprite w' = set_frlens (m_frlens (sprite w')) s0 /\
  length (m_frlens (sprite w')) = length (m_frlens s0).

(** The sprite's fields other than the stock. *)
Definition same_but_stock (s s' : Sprite) : Prop :=
  s' = set_stock (m_stock s') s.

End Specification.

(** ** A concrete raster for the worked examples

    Images are numbers (what a surface shows is one value), so that the
    examples compute; a crop leaves its mark on the value. *)
#[export] Instance example_raster : Raster := {|
  Image := Z;
  Palette := Z;
  RgbMap := unit;
  image_new := fun _ _ _ => 0;
  image_clear := fun _ color => color;
  image_copy := fun _ src _ _ => src;
  image_crop := fun img x y _ _ bgcolor => 1000 * img + 100 * x + 10 * y + bgcolor;
  image_getpixel := fun _ _ _ => 0;
  image_shrink_rect := fun img _ => if img =? 0 then None else Some (1, 1, 2, 2);
  convert_imgtype := fun img imgtype _ _ _ _ => 10 * img + imgtype;
  layer_render := fun l stock img _ _ frame =>
    img + foldr Z.add 0
            (map (fun c => if cel_frame c =? frame
                           then default 0 (mjoin (stock !! Z.to_nat (cel_image c)))
                           else 0)
                 (concat (image_layers l)));
  palette_at := fun ps _ => default 0 (head ps);
  rgbmap_at := fun _ _ => tt;
  createGrayscale := 255
|}.

Definition empty_mask : Mask := mkMask "" 0 0 0 0 None.
Definition closed_history : UndoHistory := mkHistory true "" None [] [].
Definition open_history : UndoHistory := mkHistory true "" (Some []) [] [].
Definition tx_on : UndoTransaction := mkTransaction false true.

Definition cel_at (id : CelId) (frame image : Z) : Cel := mkCel id frame image 0 0 255.
Arguments cel_at id%_nat _ _.

Definition sprite_of (frames : Z) (frlens : list Z) (images : list (option Z))
    (root : Layer) (layer : option LayerId) : Sprite :=
  mkSprite IMAGE_RGB 4 4 frames frlens 0 [0] (mkStock IMAGE_RGB images) root layer
    empty_mask [].

(** One layer with cels at frames 1, 2 and 3 of a five-frame sprite. *)
Definition five_frames : World :=
  mkWorld
    (sprite_of 5 [100; 100; 100; 100; 100] [None; Some 11; Some 12; Some 13]
       (LayerFolder 0 default_props
          [LayerImage 1 default_props [cel_at 10 1 1; cel_at 11 2 2; cel_at 12 3 3]])
       (Some 1%nat))
    open_history 100 [].

(** A sprite of one frame. *)
Definition one_frame : World :=
  mkWorld
    (sprite_of 1 [100] [None; Some 11]
       (LayerFolder 0 default_props [LayerImage 1 default_props [cel_at 10 0 1]])
       (Some 1%nat))
    open_history 100 [].

(** Four frames, a cel in each, four different durations. *)
Definition four_frames : World :=
  mkWorld
    (sprite_of 4 [10; 20; 30; 40] [None; Some 11; Some 12; Some 13; Some 14]
       (LayerFolder 0 default_props
          [LayerImage 1 default_props
             [cel_at 10 0 1; cel_at 11 1 2; cel_at 12 2 3; cel_at 13 3 4]])
       (Some 1%nat))
    open_history 100 [].

(** The same sprite with its second frame current. *)
Definition second_of_four : World :=
  mkWorld (set_frame 1 (sprite four_frames)) open_history 100 [].

(** Two frames, a cel in each. *)
Definition two_frames : World :=
  mkWorld
    (sprite_of 2 [10; 20] [None; Some 11; Some 12]
       (LayerFolder 0 default_props
          [LayerImage 1 default_props [cel_at 10 0 1; cel_at 11 1 2]])
       (Some 1%nat))
    open_history 100 [].

(** Two layers whose cels show the same stock image. *)
Definition shared_image : World :=
  mkWorld
    (sprite_of 1 [100] [None; Some 11]
       (LayerFolder 0 default_props
          [LayerImage 1 default_props [cel_at 10 0 1];
           LayerImage 2 default_props [cel_at 20 0 1]])
       (Some 1%nat))
    open_history 100 [].

(** A folder inside the root, holding one image layer, which is selected. *)
Definition nested_folder : World :=
  mkWorld
    (sprite_of 1 [100] [None; Some 11]
       (LayerFolder 0 default_props
          [LayerFolder 1 default_props [LayerImage 2 default_props [cel_at 10 0 1]]])
       (Some 2%nat))
    open_history 100 [].

(** Three layers in the root, the middle one selected. *)
Definition three_layers : World :=
  mkWorld
    (sprite_of 1 [100] [None; Some 11; Some 12; Some 13]
       (LayerFolder 0 default_props
          [LayerImage 1 default_props [cel_at 10 0 1];
           LayerImage 2 default_props [cel_at 20 0 2];
           LayerImage 3 default_props [cel_at 30 0 3]])
       (Some 2%nat))
    open_history 100 [].

(** Two frames and a background layer with a cel at frame 0 only; no
    transaction open yet. *)
Definition unflattened : World :=
  mkWorld
    (sprite_of 2 [100; 100] [None; Some 11]
       (LayerFolder 0 default_props
          [LayerImage 1 (mkProps "Background" true false true true) [cel_at 10 0 1]])
       (Some 1%nat))
    closed_history 100 [].

(** * The other methods of [UndoTransaction] *)

Definition cel_set_opacity (v : Z) (c : Cel) : Cel :=
  mkCel (cel_id c) (cel_frame c) (cel_image c) (cel_x c) (cel_y c) v.

Definition BLEND_MODE_NORMAL : Z := 0.

(** Pixel access to a surface ([raster/image.h]), consumed as capabilities
    like the rest of the raster code: the size of an image, writing one
    pixel, merging one image onto another. *)
Class Pixels `{R : Raster} := {
  image_w : Image -> Z;
  image_h : Image -> Z;
  image_putpixel : Image -> Z -> Z -> Z -> Image;
  image_merge : Image -> Image -> Z -> Z -> Z -> Z -> Image
}.

Section MoreModel.
Context `{P : Pixels}.

(** The loop of [newFrameForLayer] over the frames from the last one down to
    the new one: one turn. *)
Definition shift_cel_forward (t : UndoTransaction) (cels : list Cel) (c : Z)
  : Tx (list Cel) :=
  match getCel cels c with
  | Some cel =>
      cel' ← setCelFramePosition t cel (cel_frame cel + 1);
      mret (cels_update cel' cels)
  | None => mret cels
  end.

(** [image_new_copy] gives an image with the same pixels: the same value. *)
Definition copyPreviousFrame (t : UndoTransaction) (layer : Layer) (frame : Z)
  : Tx Layer :=
  ASSERT (frame >? 0);;
  s ← gets sprite;
  let src_cel := getCel (layer_cels layer) (frame - 1) in
  let src_image :=
    match src_cel with
    | Some c => stock_getImage (m_stock s) (cel_image c)
    | None => None
    end in
  match src_image with
  | None => mret layer
  | Some src_image =>
      let dst_image := src_image in
      image_index ← addImageInStock t dst_image;
      c ← fresh;
      let dst_cel := cel_new c frame image_index in
      let dst_cel :=
        match src_cel with
        | Some src => cel_set_opacity (cel_opacity src)
                        (cel_set_position (cel_x src) (cel_y src) dst_cel)
        | None => dst_cel
        end in
      addCel t layer dst_cel
  end.

Fixpoint newFrameForLayer (t : UndoTransaction) (layer : Layer) (frame : Z)
  : Tx Layer :=
  ASSERT (frame >=? 0);;
  match layer with
  | LayerImage id props cels =>
      s ← gets sprite;
      cels1 ← foldM (shift_cel_forward t) cels
                (zrange_down (m_frames s - 1) (Z.to_nat (m_frames s - frame)));
      copyPreviousFrame t (LayerImage id props cels1) frame
  | LayerFolder id props layers =>
      layers' ← mapM (fun l => newFrameForLayer t l frame) layers;
      mret (LayerFolder id props layers')
  end.

Definition newFrame (t : UndoTransaction) : Tx unit :=
  s ← gets sprite;
  folder ← newFrameForLayer t (m_folder s) (m_frame s + 1);
  store_folder folder;;
  s ← gets sprite;
  setNumberOfFrames t (m_frames s + 1);;
  s ← gets sprite;
  setCurrentFrame t (m_frame s + 1).

(** [Sprite::setDurationForAllFrames(msecs)] is in [raster/sprite.cpp],
    outside this file: every frame gets the duration. *)
Definition setDurationForAllFrames (msecs : Z) (s : Sprite) : Sprite :=
  set_frlens (map (fun _ => msecs) (m_frlens s)) s.

Definition setConstantFrameRate (t : UndoTransaction) (msecs : Z) : Tx unit :=
  when (isEnabled t)
    (s ← gets sprite; forM_ (frames_upto (m_frames s)) undo_set_frlen);;
  mutate OnSprite (setDurationForAllFrames msecs).

(** [Sprite::getCurrentLayer()] as an object of the tree. *)
Definition getCurrentLayer (s : Sprite) : option Layer :=
  match m_layer s with
  | Some id => find_layer id (m_folder s)
  | None => None
  end.

Definition getCurrentCel (s : Sprite) : option Cel :=
  match getCurrentLayer s with
  | Some (LayerImage _ _ cels) => getCel cels (m_frame s)
  | _ => None
  end.

Definition getCelImage (s : Sprite) (cel : option Cel) : option Image :=
  match cel with
  | Some c =>
      if (cel_image c >=? 0) && (cel_image c <? stock_size (m_stock s))
      then stock_getImage (m_stock s) (cel_image c)
      else None
  | None => None
  end.

(** Modelled from the spec: [UndoHistory::undo_image(image, x, y, w, h)] is
    missing; it saves the pixels of a rectangle of an image, so that they
    can be put back.  The journal of this model keeps the image of the slot,
    as it does for [undo_dirty]. *)
Definition undo_image (index : Z) (image : Image) : Tx unit :=
  record (UndoDirty index image).

(** The bit of the mask at column [u] of row [v]; the rows of the bitmap
    follow one another. *)
Definition mask_bit (m : Mask) (u v : Z) : bool :=
  match mask_bitmap m with
  | Some bits => nth (Z.to_nat (v * mask_w m + u)) bits false
  | None => false
  end.

(** The two loops of [clearMask] over the bits of the mask. *)
Definition clear_masked (m : Mask) (offset_x offset_y bgcolor : Z) (image : Image)
  : Image :=
  foldl (fun img v =>
           foldl (fun img u =>
                    if mask_bit m u v
                    then image_putpixel img (u + offset_x) (v + offset_y) bgcolor
                    else img)
                 img (zrange 0 (Z.to_nat (mask_w m))))
        image (zrange 0 (Z.to_nat (mask_h m))).

Definition clearMask (t : UndoTransaction) (bgcolor : Z) : Tx unit :=
  s ← gets sprite;
  match getCurrentCel s with
  | None => mret tt
  | Some cel =>
      match getCelImage s (Some cel) with
      | None => mret tt
      | Some image =>
          if mask_is_empty (m_mask s) then
            match getCurrentLayer s with
            | None => fail
            | Some layer =>
                if is_background (layer_props layer) then
                  when (isEnabled t) (undo_image (cel_image cel) image);;
                  mutate OnStock
                    (fun s => set_stock
                       (stock_put (cel_image cel) (Some (image_clear image bgcolor))
                          (m_stock s)) s)
                else
                  l ← removeCel t layer cel;
                  store_layer l
            end
          else
            let offset_x := mask_x (m_mask s) - cel_x cel in
            let offset_y := mask_y (m_mask s) - cel_y cel in
            let x1 := Z.max 0 offset_x in
            let y1 := Z.max 0 offset_y in
            let x2 := Z.min (image_w image - 1) (offset_x + mask_w (m_mask s) - 1) in
            let y2 := Z.min (image_h image - 1) (offset_y + mask_h (m_mask s) - 1) in
            if (x1 >? x2) || (y1 >? y2) then mret tt
            else
              when (isEnabled t) (undo_image (cel_image cel) image);;
              mutate OnStock
                (fun s => set_stock
                   (stock_put (cel_image cel)
                      (Some (clear_masked (m_mask s) offset_x offset_y bgcolor image))
                      (m_stock s)) s)
      end
  end.

(** [pasteImage] asserts the layer and the cel.  The image of the cel is not
    asserted: [image_new_copy] reads it, so an empty slot stops the call
    there; the stop is the failure of this model. *)
Definition pasteImage (t : UndoTransaction) (src_image : Image) (x y opacity : Z)
  : Tx unit :=
  s ← gets sprite;
  match getCurrentLayer s with
  | None => fail
  | Some layer =>
      ASSERT (is_image layer);;
      ASSERT (is_readable (layer_props layer));;
      ASSERT (is_writable (layer_props layer));;
      match getCel (layer_cels layer) (m_frame s) with
      | None => fail
      | Some cel =>
          match stock_getImage (m_stock s) (cel_image cel) with
          | None => fail
          | Some cel_image1 =>
              let cel_image2 :=
                image_merge cel_image1 src_image (x - cel_x cel) (y - cel_y cel)
                  opacity BLEND_MODE_NORMAL in
              replaceStockImage t (cel_image cel) cel_image2
          end
      end
  end.

End MoreModel.

(** ** The methods that record and change by themselves *)

Section Steps.
Context `{R : Raster}.

(** The record is made first; [layer->get_parent()] is read for the move. *)
Definition moveLayerAfter (t : UndoTransaction) (layer : LayerId)
    (after_this : option LayerId) : Tx unit :=
  when (isEnabled t) (undo_move_layer layer);;
  s ← gets sprite;
  match get_parent layer (m_folder s) with
  | None => fail
  | Some parent =>
      mutate OnFolder
        (fun s => set_folder (move_layer parent layer after_this (m_folder s)) s)
  end.

(** Modelled from the spec: [mask_copy(dst, src)] is in [raster/mask.cpp],
    which is missing; the current mask becomes a copy of the one given. *)
Definition copyToCurrentMask (t : UndoTransaction) (mask : Mask) : Tx unit :=
  when (isEnabled t) undo_set_mask;;
  mutate OnMask (set_mask mask).

(** A call of one of the methods of the transaction that make their records
    and their changes of the document themselves, without calling another
    method of the transaction. *)
Inductive Step :=
| SetNumberOfFrames (frames : Z)
| SetCurrentFrame (frame : Z)
| SetCurrentLayer (layer : option LayerId)
| SetSpriteSize (w h : Z)
| AddImageInStock (image : Image)
| RemoveImageFromStock (image_index : Z)
| ReplaceStockImage (image_index : Z) (new_image : Image)
| MoveLayerAfter (layer : LayerId) (after_this : option LayerId)
| AddCel (layer : Layer) (cel : Cel)
| SetCelFramePosition (cel : Cel) (frame : Z)
| SetCelPosition (cel : Cel) (x y : Z)
| SetFrameDuration (frame msecs : Z)
| SetConstantFrameRate (msecs : Z)
| CopyToCurrentMask (mask : Mask)
| SetMaskPosition (x y : Z)
| DeselectMask.

Definition run_step (t : UndoTransaction) (p : Step) : Tx unit :=
  match p with
  | SetNumberOfFrames frames => setNumberOfFrames t frames
  | SetCurrentFrame frame => setCurrentFrame t frame
  | SetCurrentLayer layer => setCurrentLayer t layer
  | SetSpriteSize w h => setSpriteSize t w h
  | AddImageInStock image => _ ← addImageInStock t image; mret tt
  | RemoveImageFromStock image_index => removeImageFromStock t image_index
  | ReplaceStockImage image_index new_image => replaceStockImage t image_index new_image
  | MoveLayerAfter layer after_this => moveLayerAfter t layer after_this
  | AddCel layer cel => _ ← addCel t layer cel; mret tt
  | SetCelFramePosition cel frame => _ ← setCelFramePosition t cel frame; mret tt
  | SetCelPosition cel x y => _ ← setCelPosition t cel x y; mret tt
  | SetFrameDuration frame msecs => setFrameDuration t frame msecs
  | SetConstantFrameRate msecs => setConstantFrameRate t msecs
  | CopyToCurrentMask mask => copyToCurrentMask t mask
  | SetMaskPosition x y => setMaskPosition t x y
  | DeselectMask => deselectMask t
  end.



(** The calls of a step that records before it changes anything: records,
    at least one, and then changes of the document, at least one. *)
Definition journal_first (evs : list Event) : Prop :=
  exists rs os, rs <> [] /\ os <> [] /\ evs = map Recorded rs ++ map Mutated os.

End Steps.

(** ** What the further properties speak of *)

Section MoreSpecification.
Context `{R : Raster}.


(** A position that fits a C [int]. *)
Definition is_int (z : Z) : Prop := INT_MIN <= z <= INT_MAX.
Definition cel_in_range (c : Cel) : Prop := is_int (cel_x c) /\ is_int (cel_y c).


(** The frame count and the current frame. *)
Definition frame_counters (s : Sprite) : Z * Z := (m_frames s, m_frame s).

(** A property of the cels of every image layer of a tree. *)
Definition every_layer (P : list Cel -> Prop) (l : Layer) : Prop :=
  Forall P (image_layers l).

(** The cels while [newFrameForLayer] moves them: those at the frames
    [lo .. hi] are one frame later. *)
Definition raised (lo hi : Z) (c : Cel) : Cel :=
  if (lo <=? cel_frame c) && (cel_frame c <=? hi)
  then cel_set_frame (cel_frame c + 1) c else c.

(** The cels of a layer once room is made at [frame]: the cels from that
    frame on are one frame later. *)
Definition cels_shifted_from (frame : Z) (cels : list Cel) : list Cel :=
  map (fun c => if cel_frame c >=? frame then cel_set_frame (cel_frame c + 1) c else c)
      cels.

(** The copy of the cel [src] that [copyPreviousFrame] puts at [frame]. *)
Definition cel_copy (id : CelId) (frame image : Z) (src : Cel) : Cel :=
  mkCel id frame image (cel_x src) (cel_y src) (cel_opacity src).

(** A layer tree [l] and what [newFrame] makes of it, [l'], between the
    stocks [st] and [st']: in every image layer the cels from [frame] on are
    one frame later and, where the layer had a cel at [frame - 1], a new cel
    stands at [frame], with the position and the opacity of that cel and a
    new slot of the stock that holds the same image. *)
Fixpoint frame_added (frame : Z) (st st' : Stock) (l l' : Layer) : Prop :=
  match l, l' with
  | LayerImage id p cels, LayerImage id' p' cels' =>
      id' = id /\ p' = p /\
      match getCel cels (frame - 1) with
      | Some src =>
          exists c i img,
            stock_getImage st (cel_image src) = Some img /\
            stock_size st <= i /\
            stock_getImage st' i = Some img /\
            cels' = cels_add (cel_copy c frame i src) (cels_shifted_from frame cels)
      | None => cels' = cels_shifted_from frame cels
      end
  | LayerFolder id p ls, LayerFolder id' p' ls' =>
      id' = id /\ p' = p /\
      (fix go (ls ls' : list Layer) : Prop :=
         match ls, ls' with
         | [], [] => True
         | c :: cs, c' :: cs' => frame_added frame st st' c c' /\ go cs cs'
         | _, _ => False
         end) ls ls'
  | _, _ => False
  end.

(** [frame_added] through two lists of children. *)
Fixpoint frames_added (frame : Z) (st st' : Stock) (ls ls' : list Layer) : Prop :=
  match ls, ls' with
  | [], [] => True
  | c :: cs, c' :: cs' => frame_added frame st st' c c' /\ frames_added frame st st' cs cs'
  | _, _ => False
  end.

End MoreSpecification.

(** A concrete surface for the worked examples: four pixels by four; a
    written pixel and a merged image add to the value. *)
#[export] Instance example_pixels : @Pixels example_raster := {|
  image_w := fun _ => 4;
  image_h := fun _ => 4;
  image_putpixel := fun img _ _ color => img + color;
  image_merge := fun dst src _ _ _ _ => dst + src
|}.

Definition disabled_history : UndoHistory := mkHistory false "" None [] [].
Definition tx_off : UndoTransaction := mkTransaction false false.

(** The sprite of one frame, its journal disabled. *)
Definition no_journal : World :=
  mkWorld (sprite one_frame) disabled_history 100 [].


(** Two frames and a background layer with a cel at frame 0 only, in an
    open transaction. *)
Definition with_background : World :=
  mkWorld (sprite unflattened) open_history 100 [].

(** One frame, a background layer and a layer above it whose cel is at
    [(2, 3)], and a selection of two pixels by two at [(1, 1)]. *)
Definition layers_and_mask : World :=
  mkWorld
    (set_mask (mkMask "" 1 1 2 2 (Some [true; true; true; true]))
       (sprite_of 1 [100] [None; Some 11; Some 12]
          (LayerFolder 0 default_props
             [LayerImage 1 (mkProps "Background" true false true true) [cel_at 10 0 1];
              LayerImage 2 default_props [mkCel 20 0 2 2 3 255]])
          (Some 2%nat)))
    open_history 100 [].

(** The sprite of one frame with its only layer locked. *)
Definition locked_layer : World :=
  mkWorld
    (sprite_of 1 [100] [None; Some 11]
       (LayerFolder 0 default_props
          [LayerImage 1 (mkProps "Layer" false true true false) [cel_at 10 0 1]])
       (Some 1%nat))
    open_history 100 [].

(** * Reasoning about transactions *)

Section Reasoning.
Context `{R : Raster}.

Lemma run_bind {W A B} (m : M W A) (k : A -> M W B) (w : W) :
  (m ≫= k) w = match m w with Some (a, w') => k a w' | None => None end.
Proof. reflexivity. Qed.

Lemma wp_elim {A} (m : Tx A) Q w :
  wp m Q w -> exists a w', m w = Some (a, w') /\ Q a w'.
Proof.
  unfold wp. destruct (m w) as [[a w']|]; [eauto | tauto].
Qed.

Lemma wp_intro {A} (m : Tx A) (Q : A -> World -> Prop) w a w' :
  m w = Some (a, w') -> Q a w' -> wp m Q w.
Proof. unfold wp. intros ->. auto. Qed.

Lemma wp_mono {A} (m : Tx A) (Q Q' : A -> World -> Prop) w :
  wp m Q w -> (forall a w', Q a w' -> Q' a w') -> wp m Q' w.
Proof.
  unfold wp. destruct (m w) as [[a w']|]; [auto | tauto].
Qed.

Lemma wp_ret {A} (a : A) (Q : A -> World -> Prop) w : Q a w -> wp (mret a) Q w.
Proof. auto. Qed.

Lemma wp_bind {A B} (m : Tx A) (k : A -> Tx B) Q w :
  wp m (fun a w' => wp (k a) Q w') w -> wp (m ≫= k) Q w.
Proof.
  unfold wp. rewrite run_bind. destruct (m w) as [[a w']|]; auto.
Qed.

Lemma wp_gets {A} (f : World -> A) (Q : A -> World -> Prop) w :
  Q (f w) w -> wp (gets f) Q w.
Proof. auto. Qed.

Lemma wp_ASSERT (cond : bool) (Q : unit -> World -> Prop) w :
  cond = true -> Q tt w -> wp (ASSERT cond) Q w.
Proof. intros ->. auto. Qed.

Lemma wp_when (cond : bool) (m : Tx unit) (Q : unit -> World -> Prop) w :
  (cond = true -> wp m Q w) -> (cond = false -> Q tt w) -> wp (when cond m) Q w.
Proof. intros H1 H2. destruct cond; [apply H1 | apply H2]; reflexivity. Qed.

Lemma wp_mutate o f (Q : unit -> World -> Prop) w :
  Q tt (mkWorld (f (sprite w)) (undoHistory w) (next_id w) (trace w ++ [Mutated o])) ->
  wp (mutate o f) Q w.
Proof. auto. Qed.

Lemma wp_emit e (Q : unit -> World -> Prop) w :
  Q tt (mkWorld (sprite w) (undoHistory w) (next_id w) (trace w ++ [e])) ->
  wp (emit e) Q w.
Proof. auto. Qed.

Lemma wp_store_folder root (Q : unit -> World -> Prop) w :
  Q tt (mkWorld (set_folder root (sprite w)) (undoHistory w) (next_id w) (trace w)) ->
  wp (store_folder root) Q w.
Proof. auto. Qed.

Lemma recording_record r : recording (record r).
Proof.
  intros w [g Hg]. exists r, g. split; [done|].
  unfold record, with_history, gets, modify. rewrite run_bind. simpl.
  rewrite Hg. reflexivity.
Qed.

Lemma recording_gets {A} (f : World -> A) (k : A -> Tx unit) :
  (forall a, recording (k a)) -> recording (gets f ≫= k).
Proof. intros Hk w Hw. rewrite run_bind. simpl. apply Hk, Hw. Qed.

Lemma recording_seq (u v : Tx unit) :
  recording u -> recording v ->
  forall w, is_Some (h_open (undoHistory w)) ->
    exists w', (u ;; v) w = Some (tt, w') /\ sprite w' = sprite w /\
               next_id w' = next_id w /\ is_Some (h_open (undoHistory w')).
Proof.
  intros Hu Hv w Hw. destruct (Hu w Hw) as (r & g & Hg & Hrun).
  rewrite run_bind, Hrun.
  match goal with |- context [v ?w1] => destruct (Hv w1) as (r' & g' & Hg' & Hrun') end.
  { simpl. eauto. }
  rewrite Hrun'. eexists. split; [reflexivity|]. simpl. eauto.
Qed.

Create HintDb recording.
#[local] Hint Resolve recording_record : recording.

Lemma recording_undo_set_frames : recording undo_set_frames.
Proof. apply recording_gets. auto with recording. Qed.
Lemma recording_undo_set_frame : recording undo_set_frame.
Proof. apply recording_gets. auto with recording. Qed.
Lemma recording_undo_set_layer : recording undo_set_layer.
Proof. apply recording_gets. auto with recording. Qed.
Lemma recording_undo_set_size : recording undo_set_size.
Proof. apply recording_gets. auto with recording. Qed.
Lemma recording_undo_set_imgtype : recording undo_set_imgtype.
Proof. apply recording_gets. auto with recording. Qed.
Lemma recording_undo_set_frlen frame : recording (undo_set_frlen frame).
Proof. apply recording_gets. auto with recording. Qed.
Lemma recording_undo_int field v : recording (undo_int field v).
Proof. apply recording_record. Qed.
Lemma recording_undo_add_image i : recording (undo_add_image i).
Proof. apply recording_record. Qed.
Lemma recording_undo_remove_image i : recording (undo_remove_image i).
Proof. apply recording_gets. auto with recording. Qed.
Lemma recording_undo_replace_image i : recording (undo_replace_image i).
Proof. apply recording_gets. auto with recording. Qed.
Lemma recording_undo_add_layer f l : recording (undo_add_layer f l).
Proof. apply recording_record. Qed.
Lemma recording_undo_remove_cel l c : recording (undo_remove_cel l c).
Proof. apply recording_record. Qed.
Lemma recording_undo_set_mask : recording undo_set_mask.
Proof. apply recording_gets. auto with recording. Qed.
Lemma recording_undo_remove_palette p : recording (undo_remove_palette p).
Proof. apply recording_record. Qed.

#[local] Hint Resolve recording_undo_set_frames recording_undo_set_frame
  recording_undo_set_layer recording_undo_set_size recording_undo_set_imgtype
  recording_undo_set_frlen recording_undo_int recording_undo_add_image
  recording_undo_remove_image recording_undo_replace_image
  recording_undo_add_layer recording_undo_remove_cel recording_undo_set_mask
  recording_undo_remove_palette : recording.

(** What a logging step leaves: the document as it was, the group open. *)
Lemma wp_logged t (u : Tx unit) (Q : unit -> World -> Prop) w :
  recording u -> ready t w ->
  (forall w', sprite w' = sprite w -> next_id w' = next_id w -> ready t w' -> Q tt w') ->
  wp (when (isEnabled t) u) Q w.
Proof.
  intros Hu Hr HQ. apply wp_when.
  - intros He. destruct (Hu w (Hr He)) as (r & g & Hg & Hrun).
    eapply wp_intro; [exact Hrun|]. apply HQ; try reflexivity.
    intros _. simpl. eauto.
  - intros He. apply HQ; try reflexivity. intros He'. congruence.
Qed.

Lemma wp_logged2 t (u v : Tx unit) (Q : unit -> World -> Prop) w :
  recording u -> recording v -> ready t w ->
  (forall w', sprite w' = sprite w -> next_id w' = next_id w -> ready t w' -> Q tt w') ->
  wp (when (isEnabled t) (u ;; v)) Q w.
Proof.
  intros Hu Hv Hr HQ. apply wp_when.
  - intros He. destruct (recording_seq u v Hu Hv w (Hr He)) as (w' & Hrun & Hs & Hn & Ho).
    eapply wp_intro; [exact Hrun|]. apply HQ; try assumption. intros _. exact Ho.
  - intros He. apply HQ; try reflexivity. intros He'. congruence.
Qed.

(** Loops: a property of the worlds, told by the part already visited. *)
Lemma wp_mapM {A B} (body : A -> Tx B) (f : A -> B)
    (I : list A -> World -> Prop) (xs : list A) w :
  (forall pre x post w, xs = pre ++ x :: post -> I pre w ->
     wp (body x) (fun y w' => y = f x /\ I (pre ++ [x]) w') w) ->
  I [] w ->
  wp (mapM body xs) (fun ys w' => ys = map f xs /\ I xs w') w.
Proof.
  intros Hbody.
  assert (Hgen : forall post pre w, xs = pre ++ post -> I pre w ->
            wp (mapM body post) (fun ys w' => ys = map f post /\ I xs w') w).
  { induction post as [|x post IH]; intros pre w0 Hxs HI.
    - rewrite app_nil_r in Hxs. subst pre. apply wp_ret. auto.
    - simpl. apply wp_bind. eapply wp_mono; [apply (Hbody pre x post); auto|].
      intros y w1 [-> HI1]. apply wp_bind.
      eapply wp_mono; [apply (IH (pre ++ [x])); auto|].
      { rewrite <- app_assoc. exact Hxs. }
      intros ys w2 [-> HI2]. apply wp_ret. auto. }
  intros HI. apply (Hgen xs []); auto.
Qed.

Lemma wp_foldM {A S} (body : S -> A -> Tx S) (I : list A -> S -> World -> Prop)
    (xs : list A) (acc : S) w :
  (forall pre x post acc w, xs = pre ++ x :: post -> I pre acc w ->
     wp (body acc x) (fun acc' w' => I (pre ++ [x]) acc' w') w) ->
  I [] acc w ->
  wp (foldM body acc xs) (fun acc' w' => I xs acc' w') w.
Proof.
  intros Hbody.
  assert (Hgen : forall post pre acc w, xs = pre ++ post -> I pre acc w ->
            wp (foldM body acc post) (fun acc' w' => I xs acc' w') w).
  { induction post as [|x post IH]; intros pre acc0 w0 Hxs HI.
    - rewrite app_nil_r in Hxs. subst pre. apply wp_ret. auto.
    - simpl. apply wp_bind. eapply wp_mono; [apply (Hbody pre x post); auto|].
      intros acc1 w1 HI1. apply (IH (pre ++ [x])); auto.
      rewrite <- app_assoc. exact Hxs. }
  intros HI. apply (Hgen xs []); auto.
Qed.

Lemma wp_forM_ {A} (body : A -> Tx unit) (I : list A -> World -> Prop)
    (xs : list A) w :
  (forall pre x post w, xs = pre ++ x :: post -> I pre w ->
     wp (body x) (fun _ w' => I (pre ++ [x]) w') w) ->
  I [] w ->
  wp (forM_ xs body) (fun _ w' => I xs w') w.
Proof.
  intros Hbody.
  assert (Hgen : forall post pre w, xs = pre ++ post -> I pre w ->
            wp (forM_ post body) (fun _ w' => I xs w') w).
  { induction post as [|x post IH]; intros pre w0 Hxs HI.
    - rewrite app_nil_r in Hxs. subst pre. apply wp_ret. auto.
    - simpl. apply wp_bind. eapply wp_mono; [apply (Hbody pre x post); auto|].
      intros [] w1 HI1. apply (IH (pre ++ [x])); auto.
      rewrite <- app_assoc. exact Hxs. }
  intros HI. apply (Hgen xs []); auto.
Qed.

#[local] Arguments stock_getImage : simpl never.

(** Runs the monad's plumbing. *)
Ltac tx_run :=
  unfold mbind, M_bind, mret, M_ret, gets, modify, mutate, emit, with_history,
    ASSERT, when, fail;
  simpl.

(** ** Destruction after commit *)

Lemma new_events_app (w w' : World) evs :
  trace w' = trace w ++ evs -> new_events w w' = evs.
Proof. unfold new_events. intros ->. by rewrite drop_app_length. Qed.

(** C4 (commit finality): once [commit()] has been called, destroying the
    transaction only closes the group: the sprite is what it was, the group
    joins the committed ones, nothing is replayed and the redo groups are
    kept. *)
Theorem commit_then_delete_keeps_document (t : UndoTransaction) (w : World)
    (g : list UndoRecord) :
  (isEnabled t = true -> h_open (undoHistory w) = Some g) ->
  exists w',
    UndoTransaction_delete (commit t) w = Some (tt, w') /\
    sprite w' = sprite w /\
    h_redo (undoHistory w') = h_redo (undoHistory w) /\
    h_undo (undoHistory w') =
      (if isEnabled t then [(h_label (undoHistory w), g)] else [])
        ++ h_undo (undoHistory w) /\
    new_events w w' = (if isEnabled t then [Closed] else []).
Proof.
  intros Hopen. destruct t as [c [|]]; simpl in *.
  - specialize (Hopen eq_refl).
    unfold UndoTransaction_delete, commit, isEnabled. simpl.
    unfold undo_close, with_history, gets, modify. rewrite !run_bind. simpl.
    rewrite Hopen. simpl. eexists. split; [reflexivity|].
    repeat split. by apply new_events_app.
  - exists w. repeat split. apply new_events_app. by rewrite app_nil_r.
Qed.


(** ** [newLayer] *)

(** C8, as the code has it: [newLayer] creates an empty image layer, puts it
    on top of the children of the sprite's root folder, selects it and
    returns it. *)
Theorem newLayer_adds_to_root (t : UndoTransaction) (w : World)
    (id : LayerId) (props : LayerProps) (layers : list Layer) :
  m_folder (sprite w) = LayerFolder id props layers ->
  ready t w ->
  wp (newLayer t)
     (fun layer w' =>
        layer = next_id w /\
        m_folder (sprite w') =
          LayerFolder id props (layers ++ [LayerImage layer default_props []]) /\
        m_layer (sprite w') = Some layer) w.
Proof.
  intros Hroot Hr. unfold newLayer.
  apply wp_bind. unfold wp at 1. simpl.
  apply wp_bind, wp_gets. simpl.
  apply wp_bind, wp_logged; [auto with recording | exact Hr |].
  intros w1 Hs1 Hn1 Hr1. simpl in *.
  apply wp_bind, wp_mutate.
  apply wp_bind. unfold setCurrentLayer.
  apply wp_bind, wp_logged; [auto with recording | exact Hr1 |].
  intros w2 Hs2 Hn2 Hr2. simpl in *.
  apply wp_mutate, wp_ret. simpl.
  rewrite Hs2. simpl. rewrite Hs1. simpl. rewrite Hroot. auto.
Qed.

(** ** [setImgType] *)

Lemma zrange_split lo n pre (x : Z) post :
  zrange lo n = pre ++ x :: post ->
  x = lo + Z.of_nat (length pre) /\ (length pre < n)%nat.
Proof.
  intros Hsplit.
  assert (Hx : zrange lo n !! length pre = Some x).
  { rewrite Hsplit. by rewrite list_lookup_middle. }
  unfold zrange in Hx. rewrite list_lookup_fmap in Hx.
  destruct (seq 0 n !! length pre) as [i|] eqn:Hi; [|done].
  apply lookup_seq in Hi as [-> Hlt]. simpl in Hx. injection Hx as <-.
  split; [reflexivity | exact Hlt].
Qed.

Lemma stock_getImage_nat (st : Stock) (k : nat) :
  stock_getImage st (Z.of_nat k) = mjoin (stock_images st !! k).
Proof.
  unfold stock_getImage. destruct (Z.ltb_spec (Z.of_nat k) 0); [lia|].
  rewrite Nat2Z.id. by destruct (stock_images st !! k).
Qed.

Lemma converted_same s s' new_imgtype d img :
  same_but_stock s s' ->
  converted s' new_imgtype d img = converted s new_imgtype d img.
Proof. intros ->. reflexivity. Qed.

Lemma same_but_stock_refl s : same_but_stock s s.
Proof. by destruct s. Qed.

Lemma same_but_stock_set s s' st :
  same_but_stock s s' -> same_but_stock s (set_stock st s').
Proof. intros ->. reflexivity. Qed.

(** Recording a list of palettes leaves the document alone. *)
Lemma wp_record_palettes (ps : list Palette) (Q : unit -> World -> Prop) w :
  is_Some (h_open (undoHistory w)) ->
  (forall w', sprite w' = sprite w -> next_id w' = next_id w ->
              is_Some (h_open (undoHistory w')) -> Q tt w') ->
  wp (forM_ ps undo_remove_palette) Q w.
Proof.
  revert w. induction ps as [|p ps IH]; intros w Ho HQ.
  - apply wp_ret. auto.
  - simpl. apply wp_bind.
    destruct (recording_undo_remove_palette p w Ho) as (r & g & Hg & Hrun).
    eapply wp_intro; [exact Hrun|]. apply IH; [simpl; eauto|].
    intros w' Hs Hn Ho'. apply HQ; auto.
Qed.

(** One turn of the loop over the stock. *)
Lemma convert_stock_image_step t new_imgtype d s0 (imgs : list (option Image))
    (k : nat) w :
  ready t w ->
  same_but_stock s0 (sprite w) ->
  stock_imgtype (m_stock (sprite w)) = new_imgtype ->
  stock_images (m_stock (sprite w)) =
    map (option_map (converted s0 new_imgtype d)) (take k imgs) ++ drop k imgs ->
  (k < length imgs)%nat ->
  wp (convert_stock_image t new_imgtype d (getRgbMap s0) (Z.of_nat k))
     (fun _ w' =>
        ready t w' /\ same_but_stock s0 (sprite w') /\
        stock_imgtype (m_stock (sprite w')) = new_imgtype /\
        stock_images (m_stock (sprite w')) =
          map (option_map (converted s0 new_imgtype d)) (take (S k) imgs) ++ drop (S k) imgs) w.
Proof.
  intros Hr Hsame Hty Himgs Hk.
  destruct (lookup_lt_is_Some_2 imgs k Hk) as [slot Hslot].
  assert (Hlen : length (map (option_map (converted s0 new_imgtype d)) (take k imgs)) = k).
  { rewrite length_map, length_take. lia. }
  assert (Hget : stock_getImage (m_stock (sprite w)) (Z.of_nat k) = slot).
  { rewrite stock_getImage_nat, Himgs.
    rewrite lookup_app_r by lia. rewrite Hlen, Nat.sub_diag.
    rewrite (drop_S _ _ _ Hslot). reflexivity. }
  unfold convert_stock_image. apply wp_bind, wp_gets. rewrite Hget.
  rewrite (take_S_r _ _ _ Hslot), map_app, <- app_assoc. simpl.
  destruct slot as [old|].
  - unfold replaceStockImage. apply wp_bind, wp_gets. rewrite Hget.
    apply wp_bind, wp_logged; [auto with recording | exact Hr |].
    intros w1 Hs1 Hn1 Hr1. apply wp_mutate. simpl. rewrite Hs1.
    split; [exact Hr1|]. split; [by apply same_but_stock_set|].
    split; [exact Hty|].
    rewrite Nat2Z.id, Himgs, (drop_S _ _ _ Hslot).
    rewrite insert_app_r_alt by lia. rewrite Hlen, Nat.sub_diag. simpl.
    unfold converted. rewrite Hsame. reflexivity.
  - apply wp_ret. split; [exact Hr|]. split; [exact Hsame|]. split; [exact Hty|].
    rewrite Himgs, (drop_S _ _ _ Hslot). reflexivity.
Qed.

(** C9: [setImgType] does nothing, and records nothing, when the sprite is
    already in the target mode.  Otherwise every image of the stock is
    replaced by its conversion, the mode of the sprite (and of its stock) is
    the new one, and the palettes are replaced by the single generated
    grayscale palette exactly when the target is grayscale; for any other
    target the palettes are left as they were. *)
Theorem setImgType_converts_stock (t : UndoTransaction) (w : World)
    (new_imgtype : Z) (d : DitheringMethod) :
  ready t w ->
  (m_imgtype (sprite w) = new_imgtype ->
   setImgType t new_imgtype d w = Some (tt, w)) /\
  (m_imgtype (sprite w) <> new_imgtype ->
   wp (setImgType t new_imgtype d)
      (fun _ w' =>
         stock_images (m_stock (sprite w')) =
           map (option_map (converted (sprite w) new_imgtype d))
             (stock_images (m_stock (sprite w))) /\
         stock_imgtype (m_stock (sprite w')) = new_imgtype /\
         m_imgtype (sprite w') = new_imgtype /\
         m_palettes (sprite w') =
           (if new_imgtype =? IMAGE_GRAYSCALE then [createGrayscale]
            else m_palettes (sprite w))) w).
Proof.
  intros Hr. split.
  - intros Heq. unfold setImgType. tx_run.
    apply Z.eqb_eq in Heq. by rewrite Heq.
  - intros Hne. unfold setImgType. apply wp_bind, wp_gets.
    apply Z.eqb_neq in Hne. rewrite Hne.
    apply wp_bind, wp_logged; [auto with recording | exact Hr |].
    intros w1 Hs1 Hn1 Hr1.
    apply wp_bind, wp_mutate, wp_bind, wp_gets. simpl.
    set (s0 := set_stock (stock_setImgType new_imgtype (m_stock (sprite w1))) (sprite w1)).
    set (imgs := stock_images (m_stock (sprite w1))).
    apply wp_bind.
    eapply wp_mono.
    { apply (wp_forM_ _
        (fun pre w' =>
           ready t w' /\ same_but_stock s0 (sprite w') /\
           stock_imgtype (m_stock (sprite w')) = new_imgtype /\
           stock_images (m_stock (sprite w')) =
             map (option_map (converted s0 new_imgtype d)) (take (length pre) imgs)
               ++ drop (length pre) imgs)).
      - intros pre c post w' Hsplit (Hr' & Hsame & Hty & Himgs).
        apply zrange_split in Hsplit as [-> Hlt]. rewrite Z.add_0_l.
        rewrite length_app. simpl. rewrite Nat.add_1_r.
        apply convert_stock_image_step; auto.
      - split; [exact Hr1|]. split; [apply same_but_stock_refl|].
        split; [reflexivity|]. simpl. by rewrite drop_0. }
    intros [] w2 (Hr2 & Hsame2 & Hty2 & Himgs2). simpl in Himgs2.
    unfold zrange in Himgs2. rewrite length_map, length_seq in Himgs2.
    rewrite firstn_all, drop_all, app_nil_r in Himgs2.
    apply wp_bind, wp_logged; [auto with recording | exact Hr2 |].
    intros w3 Hs3 Hn3 Hr3. apply wp_bind, wp_mutate.
    assert (Hfinal :
      stock_images (m_stock (sprite w3)) =
        map (option_map (converted (sprite w) new_imgtype d))
            (stock_images (m_stock (sprite w))) /\
      stock_imgtype (m_stock (sprite w3)) = new_imgtype /\
      m_palettes (sprite w3) = m_palettes (sprite w)).
    { rewrite Hs3, Hty2, Himgs2. subst imgs. rewrite Hsame2. subst s0.
      rewrite Hs1. repeat split. }
    destruct Hfinal as (Hst & Hty & Hpal).
    destruct (new_imgtype =? IMAGE_GRAYSCALE) eqn:Hgray.
    + apply wp_bind, wp_when.
      * intros He. apply wp_bind, wp_gets.
        apply wp_record_palettes; [apply Hr3, He|].
        intros w4 Hs4 Hn4 Ho4. apply wp_bind, wp_mutate, wp_mutate. simpl.
        simpl in Hs4. rewrite Hs4. simpl. auto.
      * intros He. apply wp_bind, wp_mutate, wp_mutate. simpl. auto.
    + apply wp_ret. simpl. auto.
Qed.

(** ** [autocropSprite] and the current frame *)

Lemma keeps_ret {A X} (f : Sprite -> X) (a : A) : keeps f (mret a).
Proof. intros w a' w' H. by injection H as <- <-. Qed.

Lemma keeps_fail {A X} (f : Sprite -> X) : keeps f (fail : Tx A).
Proof. intros w a w' H. discriminate. Qed.

Lemma keeps_bind {A B X} (f : Sprite -> X) (m : Tx A) (k : A -> Tx B) :
  keeps f m -> (forall a, keeps f (k a)) -> keeps f (m ≫= k).
Proof.
  intros Hm Hk w b w' H. rewrite run_bind in H.
  destruct (m w) as [[a w1]|] eqn:E; [|discriminate].
  rewrite (Hk a _ _ _ H). eapply Hm, E.
Qed.

Lemma keeps_gets {A X} (f : Sprite -> X) (g : World -> A) : keeps f (gets g).
Proof. intros w a w' H. by injection H as <- <-. Qed.

Lemma keeps_ASSERT {X} (f : Sprite -> X) cond : keeps f (ASSERT cond).
Proof. destruct cond; [apply keeps_ret | apply keeps_fail]. Qed.

Lemma keeps_when {X} (f : Sprite -> X) cond (m : Tx unit) :
  keeps f m -> keeps f (when cond m).
Proof. destruct cond; [auto | intros _; apply keeps_ret]. Qed.

Lemma keeps_mutate {X} (f : Sprite -> X) o (g : Sprite -> Sprite) :
  (forall s, f (g s) = f s) -> keeps f (mutate o g).
Proof. intros Hg w a w' H. injection H as <- <-. simpl. apply Hg. Qed.

Lemma keeps_emit {X} (f : Sprite -> X) e : keeps f (emit e).
Proof. intros w a w' H. by injection H as <- <-. Qed.

Lemma keeps_record {X} (f : Sprite -> X) r : keeps f (record r).
Proof.
  intros w a w' H. unfold record in H. rewrite run_bind in H. simpl in H.
  destruct (h_open (undoHistory w)); [|discriminate].
  by injection H as <- <-.
Qed.

Lemma keeps_mapM {A B X} (f : Sprite -> X) (body : A -> Tx B) xs :
  (forall x, keeps f (body x)) -> keeps f (mapM body xs).
Proof.
  intros Hbody. induction xs as [|x xs IH]; simpl.
  - apply keeps_ret.
  - apply keeps_bind; [apply Hbody|]. intros y.
    apply keeps_bind; [exact IH|]. intros ys. apply keeps_ret.
Qed.

Lemma keeps_mapM_Forall {A B X} (f : Sprite -> X) (body : A -> Tx B) xs :
  Forall (fun x => keeps f (body x)) xs -> keeps f (mapM body xs).
Proof.
  induction 1 as [|x xs Hx Hxs IH]; simpl.
  - apply keeps_ret.
  - apply keeps_bind; [exact Hx|]. intros y.
    apply keeps_bind; [exact IH|]. intros ys. apply keeps_ret.
Qed.

Lemma keeps_frame_store_folder root : keeps m_frame (store_folder root).
Proof. intros w a w' H. by injection H as <- <-. Qed.

Lemma keeps_frame_store_layer l : keeps m_frame (store_layer l).
Proof. intros w a w' H. by injection H as <- <-. Qed.

(** One step through a computation that keeps the current frame. *)
Ltac keeps_frame :=
  repeat first
    [ apply keeps_ret
    | apply keeps_gets
    | apply keeps_ASSERT
    | apply keeps_emit
    | apply keeps_record
    | apply keeps_fail
    | apply keeps_frame_store_folder
    | apply keeps_frame_store_layer
    | apply keeps_mutate; intros; reflexivity
    | apply keeps_when
    | apply keeps_bind; [|intros]
    | apply keeps_mapM; intros ].

Lemma keeps_frame_replaceStockImage t i img :
  keeps m_frame (replaceStockImage t i img).
Proof.
  unfold replaceStockImage. apply keeps_bind; [apply keeps_gets|]. intros s.
  destruct (stock_getImage (m_stock s) i); unfold undo_replace_image; keeps_frame.
Qed.

Lemma keeps_frame_setCelPosition t cel x y :
  keeps m_frame (setCelPosition t cel x y).
Proof. unfold setCelPosition, undo_int. keeps_frame. Qed.

Lemma keeps_frame_cropCel t cel x y w h bg :
  keeps m_frame (cropCel t cel x y w h bg).
Proof.
  unfold cropCel. apply keeps_bind; [apply keeps_gets|]. intros s.
  destruct (stock_getImage (m_stock s) (cel_image cel)); [|apply keeps_fail].
  apply keeps_bind; [apply keeps_frame_replaceStockImage|]. intros _.
  apply keeps_frame_setCelPosition.
Qed.

Lemma keeps_frame_cropLayer t l x y w h bg :
  keeps m_frame (cropLayer t l x y w h bg).
Proof.
  destruct l as [id p cels | id p ls]; simpl; [|apply keeps_ret].
  apply keeps_bind; [|intros; apply keeps_ret].
  apply keeps_mapM. intros cel. apply keeps_frame_cropCel.
Qed.

Lemma keeps_frame_displaceLayers t l dx dy :
  keeps m_frame (displaceLayers t l dx dy).
Proof.
  induction l as [id p cels | id p ls IH] using Layer_tree_ind; simpl.
  - apply keeps_bind; [|intros; apply keeps_ret].
    apply keeps_mapM. intros cel. apply keeps_frame_setCelPosition.
  - apply keeps_bind; [|intros; apply keeps_ret].
    apply keeps_mapM_Forall, IH.
Qed.

Lemma keeps_frame_cropSprite t x y w h bg :
  keeps m_frame (cropSprite t x y w h bg).
Proof.
  unfold cropSprite, setSpriteSize, setMaskPosition, undo_set_size, undo_int.
  apply keeps_bind; [keeps_frame|]. intros _.
  apply keeps_bind; [keeps_frame|]. intros s.
  apply keeps_bind; [apply keeps_frame_displaceLayers|]. intros folder.
  apply keeps_bind; [keeps_frame|]. intros _.
  apply keeps_bind; [keeps_frame|]. intros s1.
  apply keeps_bind.
  { destruct (getBackgroundLayer s1) as [bg_layer|]; [|apply keeps_ret].
    apply keeps_bind; [apply keeps_frame_cropLayer|]. intros l'. keeps_frame. }
  intros _. apply keeps_bind; [keeps_frame|]. intros s2.
  destruct (negb (mask_is_empty (m_mask s2))); keeps_frame.
Qed.

Lemma set_frame_set_frame a b s : set_frame a (set_frame b s) = set_frame a s.
Proof. reflexivity. Qed.

Lemma set_frame_same s : set_frame (m_frame s) s = s.
Proof. by destruct s. Qed.

(** The scan of the frames ends with the sprite and the journal it began
    with. *)
Lemma autocrop_scan_restores w :
  wp autocrop_scan
     (fun _ w1 => sprite w1 = sprite w /\ undoHistory w1 = undoHistory w /\
                  next_id w1 = next_id w) w.
Proof.
  unfold autocrop_scan. apply wp_bind, wp_gets. apply wp_bind.
  eapply wp_mono.
  { apply (wp_foldM _
      (fun _ _ w' => set_frame (m_frame (sprite w)) (sprite w') = sprite w /\
                     undoHistory w' = undoHistory w /\ next_id w' = next_id w)).
    - intros pre frame post [image [[[x1 y1] x2] y2]] w' _ (Hs & Hh & Hn).
      unfold autocrop_frame. apply wp_bind, wp_mutate, wp_bind, wp_gets. simpl.
      destruct (image_shrink_rect _ _) as [[[[u1 v1] u2] v2]|]; apply wp_ret; auto.
    - split; [apply set_frame_same | auto]. }
  intros r w1 (Hs & Hh & Hn). apply wp_bind, wp_mutate, wp_ret. simpl. auto.
Qed.

(** ** [moveFrameBefore] *)

Lemma zrange_down_split hi n pre (x : Z) post :
  zrange_down hi n = pre ++ x :: post ->
  x = hi - Z.of_nat (length pre) /\ (length pre < n)%nat.
Proof.
  intros Hsplit.
  assert (Hx : zrange_down hi n !! length pre = Some x).
  { rewrite Hsplit. by rewrite list_lookup_middle. }
  unfold zrange_down in Hx. rewrite list_lookup_fmap in Hx.
  destruct (seq 0 n !! length pre) as [i|] eqn:Hi; [|done].
  apply lookup_seq in Hi as [-> Hlt]. simpl in Hx. injection Hx as <-.
  split; [reflexivity | exact Hlt].
Qed.

Lemma getFrameDuration_put_eq s f v :
  0 <= f < Z.of_nat (length (m_frlens s)) ->
  getFrameDuration (put_frlen f v s) f = v.
Proof.
  intros Hf. unfold getFrameDuration, put_frlen.
  destruct (Z.ltb_spec f 0); [lia|]. simpl.
  rewrite list_lookup_insert_eq by lia. reflexivity.
Qed.

Lemma getFrameDuration_put_ne s f f' v :
  f <> f' -> getFrameDuration (put_frlen f v s) f' = getFrameDuration s f'.
Proof.
  intros Hne. unfold getFrameDuration, put_frlen.
  destruct (Z.ltb_spec f 0); [reflexivity|].
  destruct (Z.ltb_spec f' 0); [reflexivity|]. simpl.
  rewrite list_lookup_insert_ne by lia. reflexivity.
Qed.

Lemma put_frlen_length s f v :
  length (m_frlens (put_frlen f v s)) = length (m_frlens s).
Proof.
  unfold put_frlen. destruct (f <? 0); [reflexivity|]. simpl.
  apply length_insert.
Qed.

Lemma put_frlen_fields s f v :
  put_frlen f v s = set_frlens (m_frlens (put_frlen f v s)) s.
Proof. unfold put_frlen. destruct (f <? 0); [by destruct s | reflexivity]. Qed.

Lemma wp_setFrameDuration t s0 frame msecs (Q : unit -> World -> Prop) w :
  durations_only t s0 w ->
  (forall w', durations_only t s0 w' ->
     sprite w' = put_frlen frame msecs (sprite w) -> Q tt w') ->
  wp (setFrameDuration t frame msecs) Q w.
Proof.
  intros (Hr & Hf & Hl) HQ. unfold setFrameDuration.
  apply wp_bind, wp_logged; [auto with recording | exact Hr |].
  intros w1 Hs1 Hn1 Hr1. apply wp_mutate. apply HQ; [|simpl; by rewrite Hs1].
  unfold durations_only. cbn [sprite undoHistory]. rewrite Hs1.
  split; [exact Hr1|]. split.
  - rewrite put_frlen_fields.
    generalize (m_frlens (put_frlen frame msecs (sprite w))). intros lens.
    rewrite Hf. reflexivity.
  - by rewrite put_frlen_length.
Qed.

(** Decides the comparisons of a goal and leaves arithmetic. *)
Ltac zbool :=
  repeat match goal with
    | |- context [?a <=? ?b] => destruct (Z.leb_spec a b)
    | |- context [?a <? ?b] => destruct (Z.ltb_spec a b)
    | |- context [?a >=? ?b] => destruct (Z.geb_spec a b)
    | |- context [?a >? ?b] => destruct (Z.gtb_spec a b)
    | |- context [?a =? ?b] => destruct (Z.eqb_spec a b)
    end;
  simpl; try reflexivity; try lia.

(** Moving a frame to the future: the loop over the frames in between. *)
Lemma durations_shift_down t s0 frame (n : nat) w :
  durations_only t s0 w ->
  sprite w = s0 ->
  0 <= frame ->
  frame + Z.of_nat n < Z.of_nat (length (m_frlens s0)) ->
  wp (forM_ (zrange frame n)
        (fun c => s ← gets sprite; setFrameDuration t c (getFrameDuration s (c + 1))))
     (fun _ w' =>
        durations_only t s0 w' /\
        forall j, getFrameDuration (sprite w') j =
                  if (frame <=? j) && (j <? frame + Z.of_nat n)
                  then getFrameDuration s0 (j + 1) else getFrameDuration s0 j) w.
Proof.
  intros Hd Hw Hframe Hlen.
  eapply wp_mono.
  { apply (wp_forM_ _
      (fun pre w' =>
         durations_only t s0 w' /\
         forall j, getFrameDuration (sprite w') j =
                   if (frame <=? j) && (j <? frame + Z.of_nat (length pre))
                   then getFrameDuration s0 (j + 1) else getFrameDuration s0 j)).
    - intros pre c post w' Hsplit (Hd' & Hdur).
      apply zrange_split in Hsplit as [-> Hlt].
      apply wp_bind, wp_gets.
      eapply wp_setFrameDuration; [exact Hd'|].
      intros w2 Hd2 Hs2. split; [exact Hd2|]. intros j. rewrite Hs2.
      rewrite length_app. cbn [length].
      destruct Hd' as (_ & _ & Hl').
      destruct (Z.eq_dec (frame + Z.of_nat (length pre)) j) as [<-|Hne].
      + rewrite getFrameDuration_put_eq by lia. rewrite Hdur. zbool.
      + rewrite getFrameDuration_put_ne by exact Hne. rewrite Hdur. zbool.
    - split; [exact Hd|]. intros j. rewrite Hw. cbn [length]. zbool. }
  intros [] w' (Hd' & Hdur). split; [exact Hd'|]. intros j. rewrite Hdur.
  unfold zrange. by rewrite length_map, length_seq.
Qed.

(** Moving a frame to the past: the loop walks down from [frame]. *)
Lemma durations_shift_up t s0 frame (n : nat) w :
  durations_only t s0 w ->
  sprite w = s0 ->
  0 <= frame - Z.of_nat n ->
  frame < Z.of_nat (length (m_frlens s0)) ->
  wp (forM_ (zrange_down frame n)
        (fun c => s ← gets sprite; setFrameDuration t c (getFrameDuration s (c - 1))))
     (fun _ w' =>
        durations_only t s0 w' /\
        forall j, getFrameDuration (sprite w') j =
                  if (frame - Z.of_nat n <? j) && (j <=? frame)
                  then getFrameDuration s0 (j - 1) else getFrameDuration s0 j) w.
Proof.
  intros Hd Hw Hframe Hlen.
  eapply wp_mono.
  { apply (wp_forM_ _
      (fun pre w' =>
         durations_only t s0 w' /\
         forall j, getFrameDuration (sprite w') j =
                   if (frame - Z.of_nat (length pre) <? j) && (j <=? frame)
                   then getFrameDuration s0 (j - 1) else getFrameDuration s0 j)).
    - intros pre c post w' Hsplit (Hd' & Hdur).
      apply zrange_down_split in Hsplit as [-> Hlt].
      apply wp_bind, wp_gets.
      eapply wp_setFrameDuration; [exact Hd'|].
      intros w2 Hd2 Hs2. split; [exact Hd2|]. intros j. rewrite Hs2.
      rewrite length_app. cbn [length].
      destruct Hd' as (_ & _ & Hl').
      destruct (Z.eq_dec (frame - Z.of_nat (length pre)) j) as [<-|Hne].
      + rewrite getFrameDuration_put_eq by lia. rewrite Hdur. zbool.
      + rewrite getFrameDuration_put_ne by exact Hne. rewrite Hdur. zbool.
    - split; [exact Hd|]. intros j. rewrite Hw. cbn [length]. zbool. }
  intros [] w' (Hd' & Hdur). split; [exact Hd'|]. intros j. rewrite Hdur.
  unfold zrange_down. by rewrite length_map, length_seq.
Qed.

Lemma cel_set_frame_same c : cel_set_frame (cel_frame c) c = c.
Proof. by destruct c. Qed.

Lemma new_frame_of_nonneg f frame before_frame :
  0 <= frame -> 0 <= before_frame ->
  new_frame_of f frame before_frame <> f ->
  0 <= new_frame_of f frame before_frame.
Proof.
  unfold new_frame_of. intros Hf Hb. zbool.
Qed.

(** The cels of a tree follow the remapping of frames. *)
Lemma moveFrameBeforeLayer_remaps t frame before_frame l :
  0 <= frame -> 0 <= before_frame ->
  forall w, ready t w ->
  wp (moveFrameBeforeLayer t l frame before_frame)
     (fun l' w' =>
        l' = map_cels
               (fun c => cel_set_frame (new_frame_of (cel_frame c) frame before_frame) c) l /\
        ready t w' /\ sprite w' = sprite w) w.
Proof.
  intros Hf Hb.
  induction l as [id p cels | id p ls IH] using Layer_tree_ind; intros w Hr; simpl.
  - apply wp_bind. eapply wp_mono.
    { apply (wp_mapM _
        (fun c => cel_set_frame (new_frame_of (cel_frame c) frame before_frame) c)
        (fun _ w' => ready t w' /\ sprite w' = sprite w)).
      - intros pre c post w' _ (Hr' & Hs').
        destruct (Z.eqb_spec (cel_frame c) (new_frame_of (cel_frame c) frame before_frame))
          as [Heq|Hne]; simpl.
        + apply wp_ret. rewrite <- Heq, cel_set_frame_same. auto.
        + unfold setCelFramePosition. apply wp_bind, wp_ASSERT.
          { apply Z.geb_le, new_frame_of_nonneg; auto. }
          apply wp_bind, wp_logged; [auto with recording | exact Hr' |].
          intros w1 Hs1 Hn1 Hr1. apply wp_bind, wp_emit, wp_ret. simpl.
          split; [reflexivity|]. split; [exact Hr1 | congruence].
      - auto. }
    intros cels' w' (-> & Hr' & Hs'). apply wp_ret. auto.
  - apply wp_bind. eapply wp_mono.
    { apply (wp_mapM _
        (map_cels (fun c => cel_set_frame (new_frame_of (cel_frame c) frame before_frame) c))
        (fun _ w' => ready t w' /\ sprite w' = sprite w)).
      - intros pre c post w' Hsplit (Hr' & Hs').
        assert (Hc : c ∈ ls).
        { rewrite Hsplit. apply elem_of_app. right. apply elem_of_cons. by left. }
        rewrite Forall_forall in IH.
        eapply wp_mono; [apply (IH c Hc w' Hr')|].
        intros l' w2 (-> & Hr2 & Hs2). split; [reflexivity|].
        split; [exact Hr2 | congruence].
      - auto. }
    intros ls' w' (-> & Hr' & Hs'). apply wp_ret. auto.
Qed.

Lemma durations_only_start t w : ready t w -> durations_only t (sprite w) w.
Proof. intros Hr. split; [exact Hr|]. split; [by destruct (sprite w) | reflexivity]. Qed.

(** The durations once the frame has been moved. *)
Lemma durations_rotated t frame before_frame w :
  ready t w ->
  length (m_frlens (sprite w)) = Z.to_nat (m_frames (sprite w)) ->
  frame <> before_frame ->
  0 <= frame < m_frames (sprite w) ->
  0 <= before_frame < m_frames (sprite w) ->
  wp (if frame <? before_frame then
        forM_ (zrange frame (Z.to_nat (before_frame - 1 - frame)))
          (fun c => s ← gets sprite; setFrameDuration t c (getFrameDuration s (c + 1)));;
        setFrameDuration t (before_frame - 1) (getFrameDuration (sprite w) frame)
      else if before_frame <? frame then
        forM_ (zrange_down frame (Z.to_nat (frame - before_frame)))
          (fun c => s ← gets sprite; setFrameDuration t c (getFrameDuration s (c - 1)));;
        setFrameDuration t before_frame (getFrameDuration (sprite w) frame)
      else mret tt)
     (fun _ w' =>
        durations_only t (sprite w) w' /\
        forall f, 0 <= f < m_frames (sprite w) ->
          getFrameDuration (sprite w') (new_frame_of f frame before_frame) =
          getFrameDuration (sprite w) f) w.
Proof.
  intros Hr Hlen Hne Hf Hb.
  destruct (Z.ltb_spec frame before_frame) as [Hlt|Hge].
  - apply wp_bind. eapply wp_mono.
    { apply (durations_shift_down t (sprite w) frame); auto using durations_only_start.
      - lia.
      - lia. }
    intros [] w1 (Hd1 & Hdur1).
    eapply wp_setFrameDuration; [exact Hd1|].
    intros w2 Hd2 Hs2. split; [exact Hd2|]. intros f Hfr. rewrite Hs2.
    destruct Hd1 as (_ & _ & Hl1).
    unfold new_frame_of.
    destruct (Z.ltb_spec frame before_frame); [|lia].
    destruct (Z.eqb_spec f frame) as [->|Hff].
    + rewrite getFrameDuration_put_eq by lia. reflexivity.
    + destruct ((f >? frame) && (f <? before_frame)) eqn:Hmid.
      * apply andb_prop in Hmid as [H1 H2].
        apply Z.gtb_lt in H1. apply Z.ltb_lt in H2.
        rewrite getFrameDuration_put_ne by lia. rewrite Hdur1.
        zbool; f_equal; lia.
      * assert (f < frame \/ before_frame <= f).
        { apply andb_false_iff in Hmid as [H1|H1].
          - left. destruct (Z.gtb_spec f frame); [done | lia].
          - right. by apply Z.ltb_ge in H1. }
        rewrite getFrameDuration_put_ne by lia. rewrite Hdur1. zbool.
  - destruct (Z.ltb_spec before_frame frame) as [Hlt|Hge']; [|lia].
    apply wp_bind. eapply wp_mono.
    { apply (durations_shift_up t (sprite w) frame); auto using durations_only_start.
      - lia.
      - lia. }
    intros [] w1 (Hd1 & Hdur1).
    eapply wp_setFrameDuration; [exact Hd1|].
    intros w2 Hd2 Hs2. split; [exact Hd2|]. intros f Hfr. rewrite Hs2.
    destruct Hd1 as (_ & _ & Hl1).
    unfold new_frame_of.
    destruct (Z.ltb_spec frame before_frame); [lia|].
    destruct (Z.ltb_spec before_frame frame); [|lia].
    destruct (Z.eqb_spec f frame) as [->|Hff].
    + rewrite getFrameDuration_put_eq by lia. reflexivity.
    + destruct ((f >=? before_frame) && (f <? frame)) eqn:Hmid.
      * apply andb_prop in Hmid as [H1 H2].
        apply Z.geb_le in H1. apply Z.ltb_lt in H2.
        rewrite getFrameDuration_put_ne by lia. rewrite Hdur1.
        zbool; f_equal; lia.
      * assert (f < before_frame \/ frame <= f).
        { apply andb_false_iff in Hmid as [H1|H1].
          - left. destruct (Z.geb_spec f before_frame); [done | lia].
          - right. by apply Z.ltb_ge in H1. }
        rewrite getFrameDuration_put_ne by lia. rewrite Hdur1. zbool.
Qed.

(** C7, as the code has it: [moveFrameBefore] does nothing when the two
    indices are equal or one of them is out of range.  Otherwise every cel of
    the tree gets the frame [new_frame_of] gives it (the cel at [frame] goes
    to [before_frame - 1] when moving to the future and to [before_frame]
    when moving to the past; the cels with [frame < f < before_frame] move one
    frame earlier, the cels with [before_frame <= f < frame] one frame
    later), and the duration of every frame [f] is found afterwards at the
    frame [new_frame_of f]: durations and cels follow the same rotation. *)
Theorem moveFrameBefore_rotates (t : UndoTransaction) (w : World)
    (frame before_frame : Z) :
  ready t w ->
  length (m_frlens (sprite w)) = Z.to_nat (m_frames (sprite w)) ->
  (frame = before_frame \/ ~ 0 <= frame < m_frames (sprite w) \/
   ~ 0 <= before_frame < m_frames (sprite w) ->
   moveFrameBefore t frame before_frame w = Some (tt, w)) /\
  (frame <> before_frame ->
   0 <= frame < m_frames (sprite w) ->
   0 <= before_frame < m_frames (sprite w) ->
   wp (moveFrameBefore t frame before_frame)
      (fun _ w' =>
         m_folder (sprite w') =
           map_cels
             (fun c => cel_set_frame (new_frame_of (cel_frame c) frame before_frame) c)
             (m_folder (sprite w)) /\
         m_frames (sprite w') = m_frames (sprite w) /\
         length (m_frlens (sprite w')) = length (m_frlens (sprite w)) /\
         forall f, 0 <= f < m_frames (sprite w) ->
           getFrameDuration (sprite w') (new_frame_of f frame before_frame) =
           getFrameDuration (sprite w) f) w).
Proof.
  intros Hr Hlen. split.
  - intros Hskip. unfold moveFrameBefore. rewrite run_bind. cbn [gets].
    assert (Hguard :
      negb (frame =? before_frame) && (frame >=? 0) && (frame <? m_frames (sprite w))
      && (before_frame >=? 0) && (before_frame <? m_frames (sprite w)) = false).
    { zbool. }
    rewrite Hguard. reflexivity.
  - intros Hne Hf Hb. unfold moveFrameBefore. apply wp_bind, wp_gets.
    assert (Hguard :
      negb (frame =? before_frame) && (frame >=? 0) && (frame <? m_frames (sprite w))
      && (before_frame >=? 0) && (before_frame <? m_frames (sprite w)) = true).
    { zbool. }
    rewrite Hguard. apply wp_bind.
    eapply wp_mono; [apply durations_rotated; auto|].
    intros [] w1 ((Hr1 & Hs1 & Hl1) & Hdur1).
    apply wp_bind, wp_gets. apply wp_bind.
    eapply wp_mono; [apply moveFrameBeforeLayer_remaps; [lia | lia | exact Hr1]|].
    intros folder w2 (-> & Hr2 & Hs2). apply wp_store_folder. cbn [sprite].
    rewrite Hs2. split; [|split; [|split]].
    + rewrite Hs1. reflexivity.
    + rewrite Hs1. reflexivity.
    + exact Hl1.
    + intros f Hfr. rewrite <- (Hdur1 f Hfr). reflexivity.
Qed.

(** ** [removeFrame] *)

Lemma zrange_S lo n : zrange lo (S n) = lo :: zrange (lo + 1) n.
Proof.
  unfold zrange. simpl. rewrite Z.add_0_r. f_equal.
  rewrite <- seq_shift, map_map. apply map_ext. intros i. lia.
Qed.

Lemma elem_of_zrange lo n (i : Z) : i ∈ zrange lo n <-> lo <= i < lo + Z.of_nat n.
Proof.
  revert lo. induction n as [|n IH]; intros lo.
  - unfold zrange. simpl. rewrite elem_of_nil. lia.
  - rewrite zrange_S, elem_of_cons, IH. lia.
Qed.

Lemma getCel_Some cels f c : getCel cels f = Some c -> c ∈ cels /\ cel_frame c = f.
Proof.
  induction cels as [|a cels IH]; simpl; [done|].
  destruct (Z.eqb_spec (cel_frame a) f) as [Heq|Hne].
  - intros [= ->]. split; [apply elem_of_cons; by left | exact Heq].
  - intros H. destruct (IH H) as [Hin Hf]. split; [apply elem_of_cons; by right | exact Hf].
Qed.

Lemma getCel_None cels f : getCel cels f = None -> forall c, c ∈ cels -> cel_frame c <> f.
Proof.
  induction cels as [|a cels IH]; simpl; intros H c Hc.
  - by apply elem_of_nil in Hc.
  - destruct (Z.eqb_spec (cel_frame a) f) as [Heq|Hne]; [done|].
    apply elem_of_cons in Hc as [->|Hc]; [exact Hne | by apply IH].
Qed.

(** A cel is found through a frame no other cel of the list has. *)
Lemma getCel_map (h : Cel -> Cel) cels f :
  (forall c, c ∈ cels -> cel_frame (h c) = f <-> cel_frame c = f) ->
  getCel (map h cels) f = h <$> getCel cels f.
Proof.
  induction cels as [|a cels IH]; intros Hh; simpl; [done|].
  assert (Ha : cel_frame (h a) = f <-> cel_frame a = f).
  { apply Hh, elem_of_cons. by left. }
  destruct (Z.eqb_spec (cel_frame (h a)) f) as [H1|H1];
    destruct (Z.eqb_spec (cel_frame a) f) as [H2|H2]; try tauto.
  apply IH. intros c Hc. apply Hh, elem_of_cons. by right.
Qed.

Lemma NoDup_map_eq {A B} (f : A -> B) (l : list A) a b :
  NoDup (map f l) -> a ∈ l -> b ∈ l -> f a = f b -> a = b.
Proof.
  induction l as [|x l IH]; simpl; intros Hnd Ha Hb Hf.
  - by apply elem_of_nil in Ha.
  - apply NoDup_cons in Hnd as [Hx Hnd].
    apply elem_of_cons in Ha as [->|Ha]; apply elem_of_cons in Hb as [->|Hb].
    + reflexivity.
    + exfalso. apply Hx. rewrite Hf. by apply (list_elem_of_fmap_2 f).
    + exfalso. apply Hx. rewrite <- Hf. by apply (list_elem_of_fmap_2 f).
    + by apply IH.
Qed.

Lemma map_ext_elem {A B} (f g : A -> B) (l : list A) :
  (forall a, a ∈ l -> f a = g a) -> map f l = map g l.
Proof.
  intros H. apply map_ext_in. intros a Ha. apply H. by apply list_elem_of_In.
Qed.

Lemma filter_ext_elem {A} (P Q : A -> Prop) `{!forall a, Decision (P a)}
    `{!forall a, Decision (Q a)} (l : list A) :
  (forall a, a ∈ l -> P a <-> Q a) -> filter P l = filter Q l.
Proof.
  induction l as [|x l IH]; intros Hext; [done|].
  rewrite !filter_cons.
  assert (Hx : P x <-> Q x) by (apply Hext, elem_of_cons; by left).
  rewrite IH by (intros a Ha; apply Hext, elem_of_cons; by right).
  destruct (decide (P x)), (decide (Q x)); tauto.
Qed.

Lemma filter_all {A} (P : A -> Prop) `{!forall a, Decision (P a)} (l : list A) :
  (forall a, a ∈ l -> P a) -> filter P l = l.
Proof.
  induction l as [|x l IH]; intros Hall; [done|].
  rewrite filter_cons. destruct (decide (P x)) as [_|Hn].
  - f_equal. apply IH. intros a Ha. apply Hall, elem_of_cons. by right.
  - exfalso. apply Hn, Hall, elem_of_cons. by left.
Qed.

(** In a well-formed layer, removing the cel of a frame removes that frame. *)
Lemma cels_remove_frame cels cel :
  NoDup (map cel_frame cels) -> NoDup (map cel_id cels) -> cel ∈ cels ->
  cels_remove cel cels = filter (fun c => cel_frame c ≠ cel_frame cel) cels.
Proof.
  intros Hf Hi Hin. unfold cels_remove. apply filter_ext_elem.
  intros c Hc. split; intros H Heq; apply H.
  - f_equal. eapply (NoDup_map_eq cel_frame); eauto.
  - f_equal. eapply (NoDup_map_eq cel_id); eauto.
Qed.

Lemma shifted_id lo0 lo c : cel_id (shifted lo0 lo c) = cel_id c.
Proof. unfold shifted. by destruct (_ && _). Qed.

Lemma shift_cel_back_step t cels0 lo0 lo w :
  NoDup (map cel_frame cels0) -> NoDup (map cel_id cels0) ->
  1 <= lo0 <= lo -> ready t w ->
  wp (shift_cel_back t (map (shifted lo0 lo) cels0) lo)
     (fun cels' w' =>
        cels' = map (shifted lo0 (lo + 1)) cels0 /\ ready t w' /\ sprite w' = sprite w) w.
Proof.
  intros Hnf Hni Hlo Hr. unfold shift_cel_back.
  rewrite getCel_map; cycle 1.
  { intros c _. unfold shifted.
    destruct (Z.leb_spec lo0 (cel_frame c)); destruct (Z.ltb_spec (cel_frame c) lo);
      simpl; lia. }
  destruct (getCel cels0 lo) as [cel|] eqn:Hget; simpl.
  - apply getCel_Some in Hget as [Hin Hfr].
    assert (Hcel : shifted lo0 lo cel = cel).
    { unfold shifted. rewrite Hfr. by rewrite Z.ltb_irrefl, andb_false_r. }
    rewrite Hcel. unfold setCelFramePosition. apply wp_bind.
    apply wp_bind, wp_ASSERT; [apply Z.geb_le; lia|].
    apply wp_bind, wp_logged; [auto with recording | exact Hr |].
    intros w1 Hs1 Hn1 Hr1. apply wp_bind, wp_emit, wp_ret, wp_ret. simpl.
    split; [|split; [exact Hr1 | exact Hs1]].
    unfold cels_update. rewrite map_map. apply map_ext_elem. intros c Hc.
    rewrite shifted_id. simpl.
    destruct (Nat.eqb_spec (cel_id c) (cel_id cel)) as [Heq|Hne].
    + assert (c = cel) as -> by (eapply (NoDup_map_eq cel_id); eauto).
      unfold shifted. rewrite Hfr.
      destruct (Z.leb_spec lo0 lo); [|lia].
      destruct (Z.ltb_spec lo (lo + 1)); [|lia]. reflexivity.
    + assert (cel_frame c <> lo).
      { intros Heq. apply Hne. f_equal.
        eapply (NoDup_map_eq cel_frame); eauto. congruence. }
      unfold shifted.
      destruct (Z.leb_spec lo0 (cel_frame c)); simpl; [|reflexivity].
      destruct (Z.ltb_spec (cel_frame c) lo);
        destruct (Z.ltb_spec (cel_frame c) (lo + 1)); try reflexivity; lia.
  - apply wp_ret. split; [|auto].
    apply map_ext_elem. intros c Hc.
    pose proof (getCel_None _ _ Hget c Hc).
    unfold shifted.
    destruct (Z.leb_spec lo0 (cel_frame c)); simpl; [|reflexivity].
    destruct (Z.ltb_spec (cel_frame c) lo);
      destruct (Z.ltb_spec (cel_frame c) (lo + 1)); try reflexivity; lia.
Qed.

(** The loop over the frames after the removed one. *)
Lemma shift_cel_back_loop t cels0 lo0 (n : nat) w :
  NoDup (map cel_frame cels0) -> NoDup (map cel_id cels0) ->
  1 <= lo0 -> ready t w ->
  wp (foldM (shift_cel_back t) cels0 (zrange lo0 n))
     (fun cels' w' =>
        cels' = map (shifted lo0 (lo0 + Z.of_nat n)) cels0 /\
        ready t w' /\ sprite w' = sprite w) w.
Proof.
  intros Hnf Hni Hlo Hr.
  eapply wp_mono.
  { apply (wp_foldM _
      (fun pre cels' w' =>
         cels' = map (shifted lo0 (lo0 + Z.of_nat (length pre))) cels0 /\
         ready t w' /\ sprite w' = sprite w)).
    - intros pre c post cels' w' Hsplit (-> & Hr' & Hs').
      apply zrange_split in Hsplit as [-> Hlt].
      eapply wp_mono; [apply shift_cel_back_step; auto; lia|].
      intros cels2 w2 (-> & Hr2 & Hs2).
      rewrite length_app. cbn [length].
      replace (lo0 + Z.of_nat (length pre + 1)) with (lo0 + Z.of_nat (length pre) + 1) by lia.
      split; [reflexivity|]. split; [exact Hr2 | congruence].
    - split; [|auto]. cbn [length]. rewrite <- (map_id cels0) at 1.
      apply map_ext. intros c. unfold shifted. zbool. }
  intros cels' w' (-> & Hr' & Hs'). split; [|auto].
  unfold zrange. by rewrite length_map, length_seq.
Qed.

Lemma stock_getImage_nonneg st i : is_Some (stock_getImage st i) -> 0 <= i.
Proof.
  unfold stock_getImage. destruct (Z.ltb_spec i 0); [|done].
  intros [? ?]. discriminate.
Qed.

Lemma stock_getImage_put_ne st i j v :
  0 <= i -> i <> j -> stock_getImage (stock_put i v st) j = stock_getImage st j.
Proof.
  intros Hi Hne. unfold stock_getImage, stock_put. simpl.
  destruct (Z.ltb_spec j 0); [reflexivity|].
  rewrite list_lookup_insert_ne by lia. reflexivity.
Qed.

Lemma same_but_stock_trans s s' s'' :
  same_but_stock s s' -> same_but_stock s' s'' -> same_but_stock s s''.
Proof.
  unfold same_but_stock. intros H1 H2. rewrite H2.
  generalize (m_stock s''). intros st. rewrite H1. reflexivity.
Qed.

Lemma same_but_stock_frames s s' : same_but_stock s s' -> m_frames s' = m_frames s.
Proof. intros ->. reflexivity. Qed.

Lemma same_but_stock_eq s s' : s' = s -> same_but_stock s s'.
Proof. intros ->. apply same_but_stock_refl. Qed.

Lemma wp_removeImageFromStock t i (Q : unit -> World -> Prop) w :
  ready t w ->
  is_Some (stock_getImage (m_stock (sprite w)) i) ->
  (forall w', ready t w' ->
     sprite w' = set_stock (stock_put i None (m_stock (sprite w))) (sprite w) ->
     Q tt w') ->
  wp (removeImageFromStock t i) Q w.
Proof.
  intros Hr Hlive HQ. unfold removeImageFromStock.
  apply wp_bind, wp_ASSERT; [apply Z.geb_le; eapply stock_getImage_nonneg, Hlive|].
  apply wp_bind, wp_gets. destruct Hlive as [img Himg]. rewrite Himg.
  apply wp_bind, wp_logged; [auto with recording | exact Hr |].
  intros w1 Hs1 Hn1 Hr1. apply wp_mutate. apply HQ; [exact Hr1|].
  simpl. by rewrite Hs1.
Qed.

Lemma wp_removeCel t id p cels cel w :
  ready t w ->
  is_Some (stock_getImage (m_stock (sprite w)) (cel_image cel)) ->
  wp (removeCel t (LayerImage id p cels) cel)
     (fun l' w' =>
        l' = LayerImage id p (cels_remove cel cels) /\
        ready t w' /\
        same_but_stock (sprite w) (sprite w') /\
        forall i, i <> cel_image cel ->
          stock_getImage (m_stock (sprite w')) i = stock_getImage (m_stock (sprite w)) i) w.
Proof.
  intros Hr Hlive. unfold removeCel. apply wp_bind, wp_gets.
  cbn [layer_cels layer_id].
  destruct (image_used cels cel (m_frames (sprite w))); cbn [negb].
  - apply wp_bind, wp_ret.
    apply wp_bind, wp_logged; [auto with recording | exact Hr |].
    intros w1 Hs1 Hn1 Hr1. apply wp_bind, wp_emit, wp_ret. cbn [sprite set_cels].
    split; [reflexivity|]. split; [exact Hr1|].
    split; [by apply same_but_stock_eq|]. intros i _. by rewrite Hs1.
  - apply wp_bind. apply wp_removeImageFromStock; [exact Hr | exact Hlive |].
    intros w0 Hr0 Hs0.
    apply wp_bind, wp_logged; [auto with recording | exact Hr0 |].
    intros w1 Hs1 Hn1 Hr1. apply wp_bind, wp_emit, wp_ret. cbn [sprite set_cels].
    split; [reflexivity|]. split; [exact Hr1|]. rewrite Hs1, Hs0.
    split; [reflexivity|]. intros i Hi. cbn [m_stock set_stock].
    apply stock_getImage_put_ne; [eapply stock_getImage_nonneg, Hlive | congruence].
Qed.

Lemma elem_of_map_image (c : Cel) cels : c ∈ cels -> cel_image c ∈ map cel_image cels.
Proof. apply (list_elem_of_fmap_2 cel_image). Qed.

(** An image layer loses the frame. *)
Lemma removeFrameOfLayer_image t frame id p cels w :
  cels_wf (m_frames (sprite w)) cels ->
  Forall (fun i => is_Some (stock_getImage (m_stock (sprite w)) i)) (map cel_image cels) ->
  0 <= frame < m_frames (sprite w) ->
  ready t w ->
  wp (removeFrameOfLayer t (LayerImage id p cels) frame)
     (fun l' w' =>
        l' = LayerImage id p (cels_without_frame frame cels) /\
        ready t w' /\
        same_but_stock (sprite w) (sprite w') /\
        forall i, i ∉ map cel_image cels ->
          stock_getImage (m_stock (sprite w')) i = stock_getImage (m_stock (sprite w)) i) w.
Proof.
  intros (Hnf & Hni & Hrange) Hlive Hframe Hr. cbn [removeFrameOfLayer].
  apply wp_bind, wp_ASSERT; [apply Z.geb_le; lia|]. apply wp_bind.
  assert (Hfirst :
    wp (match getCel cels frame with
        | Some cel => removeCel t (LayerImage id p cels) cel
        | None => mret (LayerImage id p cels)
        end)
       (fun l' w' =>
          l' = LayerImage id p (filter (fun c => cel_frame c ≠ frame) cels) /\
          ready t w' /\ same_but_stock (sprite w) (sprite w') /\
          forall i, i ∉ map cel_image cels ->
            stock_getImage (m_stock (sprite w')) i =
            stock_getImage (m_stock (sprite w)) i) w).
  { destruct (getCel cels frame) as [cel|] eqn:Hget.
    - apply getCel_Some in Hget as [Hin Hfr].
      eapply wp_mono.
      { apply wp_removeCel; [exact Hr|].
        rewrite Forall_forall in Hlive. by apply Hlive, elem_of_map_image. }
      intros l' w' (-> & Hr' & Hsame & Hst).
      split; [by rewrite cels_remove_frame, Hfr|]. split; [exact Hr'|].
      split; [exact Hsame|]. intros i Hi. apply Hst. intros ->.
      by apply Hi, elem_of_map_image.
    - apply wp_ret. split.
      + f_equal. symmetry. apply filter_all. by apply getCel_None.
      + split; [exact Hr|]. split; [apply same_but_stock_refl | reflexivity]. }
  eapply wp_mono; [exact Hfirst|].
  intros l1 w1 (-> & Hr1 & Hsame1 & Hst1). apply wp_bind, wp_gets.
  cbn [layer_cels]. apply wp_bind.
  eapply wp_mono.
  { apply shift_cel_back_loop; [| | lia | exact Hr1].
    - eapply sublist_NoDup; [exact Hnf | apply (fmap_sublist cel_frame), sublist_filter].
    - eapply sublist_NoDup; [exact Hni | apply (fmap_sublist cel_id), sublist_filter]. }
  intros cels2 w2 (-> & Hr2 & Hs2). apply wp_ret.
  split; [|split; [exact Hr2|]]; [|rewrite Hs2; split; [exact Hsame1 | exact Hst1]].
  f_equal. unfold cels_without_frame. apply map_ext_elem. intros c Hc.
  apply list_elem_of_filter in Hc as [Hc1 Hc2].
  rewrite Forall_forall in Hrange. specialize (Hrange c Hc2).
  rewrite (same_but_stock_frames _ _ Hsame1).
  unfold shifted. zbool.
Qed.

Lemma layer_images_folder id p ls :
  layer_images (LayerFolder id p ls) = flat_map layer_images ls.
Proof.
  unfold layer_images. cbn [image_layers].
  induction ls as [|c cs IH]; [reflexivity|].
  cbn [flat_map]. rewrite concat_app, map_app. by rewrite IH.
Qed.

Lemma layer_images_image id p cels :
  layer_images (LayerImage id p cels) = map cel_image cels.
Proof. unfold layer_images. simpl. by rewrite app_nil_r. Qed.

Lemma foldr_and_Forall {A} (P : A -> Prop) (l : list A) :
  foldr (fun c acc => P c /\ acc) True l <-> Forall P l.
Proof.
  induction l as [|x l IH]; simpl.
  - split; [constructor | done].
  - rewrite Forall_cons, IH. tauto.
Qed.

Lemma pairwise_disjoint_middle (pre : list (list Z)) x post i :
  pairwise_disjoint (pre ++ x :: post) ->
  i ∈ x -> i ∉ concat pre.
Proof.
  induction pre as [|a pre IH]; simpl; intros Hpd Hi.
  - apply not_elem_of_nil.
  - destruct Hpd as [Ha Hpd]. apply not_elem_of_app. split.
    + intros Hia. rewrite Forall_app, Forall_cons in Ha.
      destruct Ha as (_ & Hax & _). exact (Hax i Hia Hi).
    + by apply IH.
Qed.

Lemma flat_map_concat_map {A B} (f : A -> list B) (l : list A) :
  flat_map f l = concat (map f l).
Proof. induction l as [|x l IH]; simpl; [done | by rewrite IH]. Qed.

(** Every layer of a tree loses the frame; the stock changes only at slots
    the tree itself uses. *)
Lemma removeFrameOfLayer_tree t frame l :
  forall w,
  layers_wf (m_frames (sprite w)) l ->
  Forall (fun i => is_Some (stock_getImage (m_stock (sprite w)) i)) (layer_images l) ->
  0 <= frame < m_frames (sprite w) ->
  ready t w ->
  wp (removeFrameOfLayer t l frame)
     (fun l' w' =>
        l' = without_frame frame l /\
        ready t w' /\
        same_but_stock (sprite w) (sprite w') /\
        forall i, i ∉ layer_images l ->
          stock_getImage (m_stock (sprite w')) i = stock_getImage (m_stock (sprite w)) i) w.
Proof.
  induction l as [id p cels | id p ls IH] using Layer_tree_ind;
    intros w Hwf Hlive Hframe Hr.
  - rewrite layer_images_image in Hlive. rewrite layer_images_image.
    by apply removeFrameOfLayer_image.
  - cbn [removeFrameOfLayer].
    apply wp_bind, wp_ASSERT; [apply Z.geb_le; lia|]. apply wp_bind.
    destruct Hwf as [Hall Hpd]. apply foldr_and_Forall in Hall.
    rewrite layer_images_folder in Hlive.
    eapply wp_mono.
    { apply (wp_mapM _ (without_frame frame)
        (fun pre w' =>
           ready t w' /\ same_but_stock (sprite w) (sprite w') /\
           forall i, i ∉ flat_map layer_images pre ->
             stock_getImage (m_stock (sprite w')) i =
             stock_getImage (m_stock (sprite w)) i)).
      - intros pre c post w' Hsplit (Hr' & Hsame' & Hst').
        assert (Hc : c ∈ ls).
        { rewrite Hsplit. apply elem_of_app. right. apply elem_of_cons. by left. }
        rewrite Forall_forall in IH, Hall.
        eapply wp_mono.
        { apply (IH c Hc w').
          - rewrite (same_but_stock_frames _ _ Hsame'). by apply Hall.
          - apply Forall_forall. intros i Hi. rewrite Hst'.
            + rewrite Forall_forall in Hlive. apply Hlive.
              rewrite Hsplit, flat_map_app. apply elem_of_app. right.
              cbn [flat_map]. apply elem_of_app. by left.
            + rewrite flat_map_concat_map.
              eapply pairwise_disjoint_middle; [|exact Hi].
              rewrite Hsplit, map_app in Hpd. exact Hpd.
          - by rewrite (same_but_stock_frames _ _ Hsame').
          - exact Hr'. }
        intros l' w2 (-> & Hr2 & Hsame2 & Hst2). split; [reflexivity|].
        split; [exact Hr2|]. split; [eapply same_but_stock_trans; eauto|].
        intros i Hi. rewrite flat_map_app in Hi. cbn [flat_map] in Hi.
        rewrite app_nil_r in Hi. apply not_elem_of_app in Hi as [Hi1 Hi2].
        rewrite Hst2 by exact Hi2. by apply Hst'.
      - split; [exact Hr|]. split; [apply same_but_stock_refl | reflexivity]. }
    intros ls' w' (-> & Hr' & Hsame' & Hst'). apply wp_ret.
    split; [reflexivity|]. split; [exact Hr'|]. split; [exact Hsame'|].
    intros i Hi. apply Hst'. by rewrite <- (layer_images_folder id p).
Qed.

(** C6, as the code has it: on a sprite of at least two frames whose layers
    hold one cel per frame, within the frames of the sprite, each showing a
    live stock image that no other layer uses, [removeFrame(frame)] with
    [0 <= frame < totalFrames] removes the cel of that frame from every image
    layer (nothing where there is none), moves every later cel one frame
    earlier, brings the current frame back into range when it was the last
    one, and decrements the frame count. *)
Theorem removeFrame_removes_and_shifts (t : UndoTransaction) (w : World) (frame : Z) :
  ready t w ->
  0 <= frame < m_frames (sprite w) ->
  2 <= m_frames (sprite w) ->
  layers_wf (m_frames (sprite w)) (m_folder (sprite w)) ->
  stock_integrity (sprite w) ->
  wp (removeFrame t frame)
     (fun _ w' =>
        m_folder (sprite w') = without_frame frame (m_folder (sprite w)) /\
        m_frames (sprite w') = m_frames (sprite w) - 1 /\
        m_frame (sprite w') =
          (if m_frame (sprite w) >=? m_frames (sprite w) - 1
           then m_frames (sprite w) - 2 else m_frame (sprite w))) w.
Proof.
  intros Hr Hframe Htwo Hwf Hlive. unfold removeFrame.
  apply wp_bind, wp_ASSERT; [apply Z.geb_le; lia|].
  apply wp_bind, wp_gets. apply wp_bind.
  eapply wp_mono; [apply removeFrameOfLayer_tree; eauto|].
  intros folder w1 (-> & Hr1 & Hsame1 & _).
  apply wp_bind, wp_store_folder, wp_bind, wp_gets. cbn [sprite].
  set (w2 := mkWorld _ _ _ _).
  assert (Hr2 : ready t w2) by exact Hr1.
  assert (Hfr2 : m_frames (sprite w2) = m_frames (sprite w)).
  { subst w2. cbn. by rewrite Hsame1. }
  assert (Hcur2 : m_frame (sprite w2) = m_frame (sprite w)).
  { subst w2. cbn. by rewrite Hsame1. }
  assert (Hfo2 : m_folder (sprite w2) = without_frame frame (m_folder (sprite w))).
  { reflexivity. }
  change (m_frames (set_folder (without_frame frame (m_folder (sprite w))) (sprite w1)))
    with (m_frames (sprite w2)).
  change (m_frame (set_folder (without_frame frame (m_folder (sprite w))) (sprite w1)))
    with (m_frame (sprite w2)).
  clearbody w2. rewrite Hfr2, Hcur2.
  unfold setNumberOfFrames, setCurrentFrame.
  destruct (Z.geb_spec (m_frame (sprite w)) (m_frames (sprite w) - 1)) as [Hlast|Hin];
    cbn [when].
  - apply wp_bind. apply wp_bind, wp_ASSERT; [apply Z.geb_le; lia|].
    apply wp_bind, wp_logged; [auto with recording | exact Hr2 |].
    intros w3 Hs3 Hn3 Hr3. apply wp_mutate.
    apply wp_bind, wp_ASSERT; [apply Z.geb_le; lia|].
    apply wp_bind, wp_logged; [auto with recording | exact Hr3 |].
    intros w4 Hs4 Hn4 Hr4. apply wp_mutate. cbn. rewrite Hs4. cbn. rewrite Hs3.
    split; [exact Hfo2|]. split; [reflexivity | lia].
  - apply wp_bind, wp_ret.
    apply wp_bind, wp_ASSERT; [apply Z.geb_le; lia|].
    apply wp_bind, wp_logged; [auto with recording | exact Hr2 |].
    intros w4 Hs4 Hn4 Hr4. apply wp_mutate. cbn. rewrite Hs4.
    split; [exact Hfo2|]. split; [reflexivity | exact Hcur2].
Qed.

(** ** [removeLayer] *)

Lemma find_layer_folder id i p ls :
  find_layer id (LayerFolder i p ls) =
  if Nat.eqb i id then Some (LayerFolder i p ls) else find_layers id ls.
Proof.
  simpl. destruct (Nat.eqb i id); [reflexivity|].
  induction ls as [|c cs IH]; simpl; [reflexivity|].
  destruct (find_layer id c); [reflexivity | exact IH].
Qed.

Lemma get_parent_folder id i p ls :
  get_parent id (LayerFolder i p ls) =
  if has_child id ls then Some i else get_parents id ls.
Proof.
  simpl. destruct (has_child id ls); [reflexivity|].
  induction ls as [|c cs IH]; simpl; [reflexivity|].
  destruct (get_parent id c); [reflexivity | exact IH].
Qed.

Lemma layer_id_head l : layer_id l ∈ layer_ids l.
Proof. destruct l; simpl; apply elem_of_cons; by left. Qed.

Lemma layer_ids_child (c : Layer) ls : c ∈ ls -> forall j, j ∈ layer_ids c -> j ∈ flat_map layer_ids ls.
Proof.
  intros Hc j Hj. apply list_elem_of_In, in_flat_map. exists c.
  split; by apply list_elem_of_In.
Qed.

Lemma has_child_true i ls :
  has_child i ls = true -> exists c, c ∈ ls /\ layer_id c = i.
Proof.
  unfold has_child. rewrite existsb_exists. intros (c & Hc & Heq).
  exists c. split; [by apply list_elem_of_In | by apply Nat.eqb_eq].
Qed.

Lemma has_child_false i ls :
  i ∉ flat_map layer_ids ls -> has_child i ls = false.
Proof.
  intros Hi. destruct (has_child i ls) eqn:E; [|reflexivity].
  apply has_child_true in E as (c & Hc & <-).
  exfalso. apply Hi. eapply layer_ids_child; [exact Hc | apply layer_id_head].
Qed.

(** The identifiers of a node found in a tree are identifiers of the tree. *)
Lemma find_layer_sublist id l n :
  find_layer id l = Some n -> layer_ids n `sublist_of` layer_ids l.
Proof.
  revert n. induction l as [i p cels | i p ls IH] using Layer_tree_ind; intros n.
  - simpl. destruct (Nat.eqb i id); [|done]. by intros [= <-].
  - rewrite find_layer_folder. destruct (Nat.eqb i id); [by intros [= <-]|].
    intros Hfind. cbn [layer_ids]. apply sublist_cons.
    induction ls as [|c cs IHcs]; [done|]. cbn [find_layers flat_map] in *.
    apply Forall_cons in IH as [IHc IH].
    destruct (find_layer id c) as [r|] eqn:E.
    + injection Hfind as ->. apply sublist_inserts_r. by apply IHc.
    + apply sublist_inserts_l. by apply IHcs.
Qed.

Lemma find_layers_sublist id ls n :
  find_layers id ls = Some n -> layer_ids n `sublist_of` flat_map layer_ids ls.
Proof.
  induction ls as [|c cs IH]; [done|]. cbn [find_layers flat_map].
  destruct (find_layer id c) as [r|] eqn:E.
  - intros [= ->]. apply sublist_inserts_r. by eapply find_layer_sublist.
  - intros H. apply sublist_inserts_l. by apply IH.
Qed.

Lemma find_layer_in id l : id ∈ layer_ids l -> is_Some (find_layer id l).
Proof.
  induction l as [i p cels | i p ls IH] using Layer_tree_ind.
  - simpl. intros Hin. apply list_elem_of_singleton in Hin as ->.
    rewrite Nat.eqb_refl. eauto.
  - rewrite find_layer_folder. cbn [layer_ids].
    destruct (Nat.eqb_spec i id) as [|Hne]; [eauto|].
    intros Hin. apply elem_of_cons in Hin as [->|Hin]; [done|].
    induction ls as [|c cs IHcs]; [by apply elem_of_nil in Hin|].
    cbn [find_layers flat_map] in *. apply Forall_cons in IH as [IHc IH].
    apply elem_of_app in Hin as [Hin|Hin].
    + destruct (IHc Hin) as [r ->]. eauto.
    + destruct (find_layer id c); [eauto | by apply IHcs].
Qed.

Lemma find_layer_None id l : find_layer id l = None -> id ∉ layer_ids l.
Proof.
  intros Hnone Hin. destruct (find_layer_in id l Hin) as [r Hr]. congruence.
Qed.

Lemma find_layer_id id l n : find_layer id l = Some n -> layer_id n = id.
Proof.
  revert n. induction l as [i p cels | i p ls IH] using Layer_tree_ind; intros n.
  - simpl. destruct (Nat.eqb_spec i id); [|done]. by intros [= <-].
  - rewrite find_layer_folder. destruct (Nat.eqb_spec i id); [by intros [= <-]|].
    induction ls as [|c cs IHcs]; [done|]. cbn [find_layers].
    apply Forall_cons in IH as [IHc IH].
    destruct (find_layer id c) as [r|] eqn:E; [intros [= <-]; by apply IHc | by apply IHcs].
Qed.

Lemma get_parent_notin i l : i ∉ layer_ids l -> get_parent i l = None.
Proof.
  induction l as [id p cels | id p ls IH] using Layer_tree_ind; [done|].
  rewrite get_parent_folder. cbn [layer_ids]. intros Hi.
  apply not_elem_of_cons in Hi as [_ Hi].
  rewrite has_child_false by exact Hi.
  induction ls as [|c cs IHcs]; [done|]. cbn [get_parents flat_map] in *.
  apply Forall_cons in IH as [IHc IH]. apply not_elem_of_app in Hi as [Hi1 Hi2].
  rewrite IHc by exact Hi1. by apply IHcs.
Qed.

Lemma update_layer_notin id f l : id ∉ layer_ids l -> update_layer id f l = l.
Proof.
  induction l as [i p cels | i p ls IH] using Layer_tree_ind; intros Hi.
  - simpl. simpl in Hi. apply not_elem_of_cons in Hi as [Hne _].
    destruct (Nat.eqb_spec i id); [congruence | reflexivity].
  - cbn [update_layer layer_id]. cbn [layer_ids] in Hi.
    apply not_elem_of_cons in Hi as [Hne Hi].
    destruct (Nat.eqb_spec i id); [congruence|]. f_equal.
    induction ls as [|c cs IHcs]; [done|]. cbn [map flat_map] in *.
    apply Forall_cons in IH as [IHc IH]. apply not_elem_of_app in Hi as [Hi1 Hi2].
    rewrite IHc by exact Hi1. f_equal. by apply IHcs.
Qed.

Lemma update_layers_notin id f ls :
  id ∉ flat_map layer_ids ls -> map (update_layer id f) ls = ls.
Proof.
  induction ls as [|c cs IH]; [done|]. cbn [map flat_map]. intros Hi.
  apply not_elem_of_app in Hi as [Hi1 Hi2].
  rewrite update_layer_notin by exact Hi1. f_equal. by apply IH.
Qed.

(** A child of a folder found in [c] lies strictly below the top of [c]. *)
Lemma child_below P pp cs c i :
  find_layer P c = Some (LayerFolder P pp cs) ->
  i ∈ flat_map layer_ids cs ->
  i ∈ flat_map layer_ids (get_layers_list c).
Proof.
  destruct c as [id p cels | id p ls].
  - simpl. destruct (Nat.eqb id P); [|done]. intros [=].
  - rewrite find_layer_folder. cbn [get_layers_list].
    destruct (Nat.eqb id P).
    + by intros [= -> -> ->].
    + intros Hfind Hi. eapply elem_of_sublist; [|eapply find_layers_sublist, Hfind].
      cbn [layer_ids]. apply elem_of_cons. by right.
Qed.

Lemma layer_ids_unfold l : layer_ids l = layer_id l :: flat_map layer_ids (get_layers_list l).
Proof. by destruct l. Qed.

Lemma child_id_in (cs : list Layer) i :
  i ∈ map layer_id cs -> i ∈ flat_map layer_ids cs.
Proof.
  intros Hi. apply list_elem_of_fmap in Hi as (c & -> & Hc).
  eapply layer_ids_child; [exact Hc | apply layer_id_head].
Qed.

Lemma has_child_cons i c cs :
  has_child i (c :: cs) = Nat.eqb (layer_id c) i || has_child i cs.
Proof. reflexivity. Qed.

Lemma get_parents_of_child P pp cs i ls :
  NoDup (flat_map layer_ids ls) ->
  Forall (fun c => NoDup (layer_ids c) ->
                   find_layer P c = Some (LayerFolder P pp cs) ->
                   get_parent i c = Some P) ls ->
  find_layers P ls = Some (LayerFolder P pp cs) ->
  i ∈ map layer_id cs ->
  has_child i ls = false /\ get_parents i ls = Some P.
Proof.
  intros Hnd IH Hfind Hi. apply child_id_in in Hi.
  induction ls as [|c rest IHrest]; [done|].
  cbn [flat_map find_layers get_parents] in *. rewrite has_child_cons.
  apply NoDup_app in Hnd as (Hc & Hdisj & Hrest).
  apply Forall_cons in IH as [IHc IH].
  destruct (find_layer P c) as [r|] eqn:E.
  - injection Hfind as ->.
    pose proof (child_below _ _ _ _ _ E Hi) as Hbelow.
    assert (Hin : i ∈ layer_ids c).
    { rewrite layer_ids_unfold. apply elem_of_cons. by right. }
    assert (Hne : layer_id c <> i).
    { rewrite layer_ids_unfold in Hc. apply NoDup_cons in Hc as [Hhead _].
      intros Heq. apply Hhead. by rewrite Heq. }
    apply Nat.eqb_neq in Hne. rewrite Hne.
    rewrite has_child_false by (by apply Hdisj).
    rewrite (IHc Hc eq_refl). done.
  - assert (Hin : i ∈ flat_map layer_ids rest).
    { eapply elem_of_sublist; [|eapply find_layers_sublist, Hfind].
      cbn [layer_ids]. apply elem_of_cons. by right. }
    assert (Hnot : i ∉ layer_ids c) by (intros Hc'; by apply (Hdisj i Hc')).
    assert (Hne : layer_id c <> i) by (intros <-; apply Hnot, layer_id_head).
    apply Nat.eqb_neq in Hne. rewrite Hne.
    rewrite get_parent_notin by exact Hnot.
    by apply IHrest.
Qed.

(** With distinct identifiers, the parent of a child of [P] is [P]. *)
Lemma get_parent_of_child P pp cs i root :
  NoDup (layer_ids root) ->
  find_layer P root = Some (LayerFolder P pp cs) ->
  i ∈ map layer_id cs ->
  get_parent i root = Some P.
Proof.
  intros Hnd Hfind Hi. revert Hnd Hfind.
  induction root as [id p cels | id p ls IH] using Layer_tree_ind; intros Hnd Hfind.
  - simpl in Hfind. destruct (Nat.eqb id P); [|done]. by injection Hfind.
  - rewrite find_layer_folder in Hfind. rewrite get_parent_folder.
    destruct (Nat.eqb_spec id P) as [->|Hne].
    + injection Hfind as -> ->.
      assert (has_child i cs = true) as ->; [|done].
      apply list_elem_of_fmap in Hi as (c & -> & Hc).
      unfold has_child. apply existsb_exists. exists c.
      split; [by apply list_elem_of_In | apply Nat.eqb_refl].
    + cbn [layer_ids] in Hnd. apply NoDup_cons in Hnd as [_ Hnd].
      destruct (get_parents_of_child P pp cs i ls Hnd IH Hfind Hi) as [-> ->]. done.
Qed.

Lemma remove_child_middle (pre : list Layer) L post :
  layer_id L ∉ map layer_id pre ->
  layer_id L ∉ map layer_id post ->
  remove_child (layer_id L) (pre ++ L :: post) = pre ++ post.
Proof.
  intros Hpre Hpost. unfold remove_child.
  rewrite filter_app, filter_cons.
  destruct (decide (layer_id L ≠ layer_id L)) as [Hne|_]; [done|].
  rewrite !filter_all; [done | |].
  - intros c Hc Heq. apply Hpost. rewrite <- Heq.
    by apply (list_elem_of_fmap_2 layer_id).
  - intros c Hc Heq. apply Hpre. rewrite <- Heq.
    by apply (list_elem_of_fmap_2 layer_id).
Qed.

Lemma prev_in_middle (pre : list Layer) L post :
  layer_id L ∉ map layer_id pre ->
  prev_in (layer_id L) (pre ++ L :: post) = layer_id <$> last pre.
Proof.
  induction pre as [|a pre IH]; intros Hpre.
  - simpl. destruct post; [done|]. by rewrite Nat.eqb_refl.
  - cbn [map] in Hpre. apply not_elem_of_cons in Hpre as [Hne Hpre].
    assert (Ha : Nat.eqb (layer_id a) (layer_id L) = false) by (apply Nat.eqb_neq; congruence).
    destruct pre as [|b pre].
    + simpl. by rewrite Ha, Nat.eqb_refl.
    + cbn [map] in Hpre. pose proof Hpre as Hpre'.
      apply not_elem_of_cons in Hpre' as [Hneb _].
      assert (Hb : Nat.eqb (layer_id b) (layer_id L) = false)
        by (apply Nat.eqb_neq; congruence).
      change (prev_in (layer_id L) ((a :: b :: pre) ++ L :: post))
        with (if Nat.eqb (layer_id a) (layer_id L) then None
              else if Nat.eqb (layer_id b) (layer_id L) then Some (layer_id a)
              else prev_in (layer_id L) ((b :: pre) ++ L :: post)).
      rewrite Ha, Hb. rewrite IH by exact Hpre. reflexivity.
Qed.

Lemma next_in_middle (pre : list Layer) L post :
  layer_id L ∉ map layer_id pre ->
  next_in (layer_id L) (pre ++ L :: post) = layer_id <$> head post.
Proof.
  induction pre as [|a pre IH]; intros Hpre.
  - simpl. by rewrite Nat.eqb_refl.
  - cbn [map] in Hpre. apply not_elem_of_cons in Hpre as [Hne Hpre].
    assert (Ha : Nat.eqb (layer_id a) (layer_id L) = false) by (apply Nat.eqb_neq; congruence).
    simpl. rewrite Ha. by apply IH.
Qed.

(** In a folder with distinct identifiers, a child's identifier is met
    nowhere else among the children. *)
Lemma NoDup_children_middle (pre : list Layer) L post :
  NoDup (flat_map layer_ids (pre ++ L :: post)) ->
  (layer_id L ∉ flat_map layer_ids pre) /\ (layer_id L ∉ flat_map layer_ids post).
Proof.
  rewrite flat_map_app. cbn [flat_map]. intros Hnd.
  apply NoDup_app in Hnd as (_ & Hdisj & Hnd).
  apply NoDup_app in Hnd as (_ & Hdisj' & _).
  split.
  - intros Hin. apply (Hdisj _ Hin). apply elem_of_app. left. apply layer_id_head.
  - apply Hdisj', layer_id_head.
Qed.

Lemma not_in_flat_map_ids (ls : list Layer) i :
  i ∉ flat_map layer_ids ls -> i ∉ map layer_id ls.
Proof. intros Hi Hin. by apply Hi, child_id_in. Qed.

Lemma remove_in_children P i n n' ls :
  NoDup (flat_map layer_ids ls) ->
  i ∈ layer_ids n ->
  Forall (fun c => NoDup (layer_ids c) -> find_layer P c = Some n ->
                   find_layer P (remove_layer P i c) = Some n' /\
                   (i ∉ layer_ids (remove_layer P i c))) ls ->
  find_layers P ls = Some n ->
  find_layers P (map (remove_layer P i) ls) = Some n' /\
  (i ∉ flat_map layer_ids (map (remove_layer P i) ls)).
Proof.
  intros Hnd Hi IH Hfind.
  induction ls as [|c rest IHrest]; [done|].
  cbn [flat_map find_layers map] in *.
  apply NoDup_app in Hnd as (Hc & Hdisj & Hrest).
  apply Forall_cons in IH as [IHc IH].
  destruct (find_layer P c) as [r|] eqn:E.
  - injection Hfind as ->. destruct (IHc Hc eq_refl) as [-> Hnot].
    split; [done|].
    assert (HP : P ∈ layer_ids c).
    { eapply elem_of_sublist; [|eapply find_layer_sublist, E].
      rewrite <- (find_layer_id _ _ _ E) at 1. apply layer_id_head. }
    assert (Hic : i ∈ layer_ids c).
    { eapply elem_of_sublist; [exact Hi | eapply find_layer_sublist, E]. }
    unfold remove_layer at 2. rewrite update_layers_notin by (by apply Hdisj).
    apply not_elem_of_app. split; [exact Hnot | by apply Hdisj].
  - pose proof (find_layer_None _ _ E) as HP.
    assert (Hin : i ∈ flat_map layer_ids rest).
    { eapply elem_of_sublist; [exact Hi | eapply find_layers_sublist, Hfind]. }
    assert (Hnot : i ∉ layer_ids c) by (intros Hc'; by apply (Hdisj i Hc')).
    unfold remove_layer at 1 3. rewrite update_layer_notin by exact HP.
    rewrite E. destruct (IHrest Hrest IH Hfind) as [-> Hrest'].
    split; [done|]. apply not_elem_of_app. split; [exact Hnot | exact Hrest'].
Qed.

(** With distinct identifiers, removing a child from its folder leaves the
    folder with its other children and the child nowhere in the tree. *)
Lemma remove_layer_detaches P pp pre L post root :
  NoDup (layer_ids root) ->
  find_layer P root = Some (LayerFolder P pp (pre ++ L :: post)) ->
  find_layer P (remove_layer P (layer_id L) root) = Some (LayerFolder P pp (pre ++ post)) /\
  (layer_id L ∉ layer_ids (remove_layer P (layer_id L) root)).
Proof.
  induction root as [id p cels | id p ls IH] using Layer_tree_ind; intros Hnd Hfind.
  - simpl in Hfind. destruct (Nat.eqb id P); [|done]. by injection Hfind.
  - rewrite find_layer_folder in Hfind.
    unfold remove_layer. cbn [update_layer layer_id].
    cbn [layer_ids] in Hnd. apply NoDup_cons in Hnd as [Hhead Hnd].
    destruct (Nat.eqb_spec id P) as [->|Hne].
    + injection Hfind as -> ->.
      rewrite update_layers_notin by exact Hhead.
      cbn [set_layers get_layers_list].
      destruct (NoDup_children_middle _ _ _ Hnd) as [Hpre Hpost].
      rewrite remove_child_middle by (by apply not_in_flat_map_ids).
      rewrite find_layer_folder, Nat.eqb_refl. split; [done|].
      cbn [layer_ids]. apply not_elem_of_cons. split.
      * intros Heq. apply Hhead. rewrite <- Heq.
        apply child_id_in, (list_elem_of_fmap_2 layer_id).
        apply elem_of_app. right. apply elem_of_cons. by left.
      * rewrite flat_map_app. by apply not_elem_of_app.
    + assert (Hi : layer_id L ∈ layer_ids (LayerFolder P pp (pre ++ L :: post))).
      { cbn [layer_ids]. apply elem_of_cons. right.
        apply child_id_in, (list_elem_of_fmap_2 layer_id).
        apply elem_of_app. right. apply elem_of_cons. by left. }
      destruct (remove_in_children P (layer_id L) _ (LayerFolder P pp (pre ++ post))
                  ls Hnd Hi IH Hfind) as [Hf Hn].
      rewrite find_layer_folder.
      apply Nat.eqb_neq in Hne. rewrite Hne. split; [exact Hf|].
      cbn [layer_ids]. apply not_elem_of_cons. split; [|exact Hn].
      intros Heq. apply Hhead. rewrite <- Heq.
      eapply elem_of_sublist; [exact Hi | eapply find_layers_sublist, Hfind].
Qed.

Lemma wp_record r (Q : unit -> World -> Prop) w :
  is_Some (h_open (undoHistory w)) ->
  (forall w', sprite w' = sprite w -> next_id w' = next_id w ->
              is_Some (h_open (undoHistory w')) -> Q tt w') ->
  wp (record r) Q w.
Proof.
  intros Ho HQ. destruct (recording_record r w Ho) as (r' & g & Hg & Hrun).
  eapply wp_intro; [exact Hrun|]. apply HQ; simpl; eauto.
Qed.

(** C5: removing a layer [L] listed by the folder [P] between the siblings
    [pre] and [post].  When [L] is the current layer, the selection becomes
    the sibling just before it, else the sibling just after it, else [P]
    unless [P] is the root folder (then nothing is selected); when [L] is
    not the current layer the selection stays.  In all cases [P] is left
    with the other children and [L] is nowhere in the tree. *)
Theorem removeLayer_selects_and_detaches (t : UndoTransaction) (w : World)
    (P : LayerId) (pp : LayerProps) (pre : list Layer) (L : Layer) (post : list Layer) :
  ready t w ->
  NoDup (layer_ids (m_folder (sprite w))) ->
  find_layer P (m_folder (sprite w)) = Some (LayerFolder P pp (pre ++ L :: post)) ->
  wp (removeLayer t (layer_id L))
     (fun _ w' =>
        m_layer (sprite w') =
          (if bool_decide (m_layer (sprite w) = Some (layer_id L)) then
             match last pre, head post with
             | Some prev, _ => Some (layer_id prev)
             | None, Some next => Some (layer_id next)
             | None, None =>
                 if bool_decide (P = layer_id (m_folder (sprite w))) then None
                 else Some P
             end
           else m_layer (sprite w)) /\
        find_layer P (m_folder (sprite w')) = Some (LayerFolder P pp (pre ++ post)) /\
        (layer_id L ∉ layer_ids (m_folder (sprite w')))) w.
Proof.
  intros Hr Hnd Hfind.
  assert (Hchild : layer_id L ∈ map layer_id (pre ++ L :: post)).
  { apply (list_elem_of_fmap_2 layer_id), elem_of_app. right. apply elem_of_cons. by left. }
  pose proof (get_parent_of_child _ _ _ _ _ Hnd Hfind Hchild) as Hparent.
  assert (Hndn : NoDup (flat_map layer_ids (pre ++ L :: post))).
  { pose proof (sublist_NoDup _ _ Hnd (find_layer_sublist _ _ _ Hfind)) as Hn.
    cbn [layer_ids] in Hn. by apply NoDup_cons in Hn as [_ Hn]. }
  destruct (NoDup_children_middle _ _ _ Hndn) as [Hpre Hpost].
  apply not_in_flat_map_ids in Hpre.
  assert (Hsib : siblings (layer_id L) (m_folder (sprite w)) = pre ++ L :: post).
  { unfold siblings. by rewrite Hparent, Hfind. }
  assert (Hsel : layer_select_after (layer_id L) (m_folder (sprite w)) =
                 match last pre, head post with
                 | Some prev, _ => Some (layer_id prev)
                 | None, Some next => Some (layer_id next)
                 | None, None =>
                     if bool_decide (P = layer_id (m_folder (sprite w))) then None
                     else Some P
                 end).
  { unfold layer_select_after, get_prev, get_next. rewrite Hsib, Hparent.
    rewrite prev_in_middle, next_in_middle by exact Hpre.
    destruct (last pre); [done|]. destruct (head post); [done|]. simpl.
    destruct (Nat.eqb_spec P (layer_id (m_folder (sprite w)))) as [Heq|Hne].
    - by rewrite bool_decide_eq_true_2.
    - by rewrite bool_decide_eq_false_2. }
  destruct (find_layer_in (layer_id L) (m_folder (sprite w))) as [Lnode HL].
  { eapply elem_of_sublist; [|eapply find_layer_sublist, Hfind].
    cbn [layer_ids]. apply elem_of_cons. right. by apply child_id_in. }
  destruct (remove_layer_detaches _ _ _ _ _ _ Hnd Hfind) as [Hdet Hgone].
  unfold removeLayer. apply wp_bind, wp_gets. rewrite Hparent, Hsel.
  set (selection := match last pre, head post with
                    | Some prev, _ => Some (layer_id prev)
                    | None, Some next => Some (layer_id next)
                    | None, None =>
                        if bool_decide (P = layer_id (m_folder (sprite w))) then None
                        else Some P
                    end).
  assert (Htail : forall w1, ready t w1 -> m_folder (sprite w1) = m_folder (sprite w) ->
    wp (when (isEnabled t) (undo_remove_layer (layer_id L));;
        mutate OnFolder
          (fun s => set_folder (remove_layer P (layer_id L) (m_folder s)) s))
       (fun _ w' =>
          m_layer (sprite w') = m_layer (sprite w1) /\
          find_layer P (m_folder (sprite w')) = Some (LayerFolder P pp (pre ++ post)) /\
          (layer_id L ∉ layer_ids (m_folder (sprite w')))) w1).
  { intros w1 Hr1 Hf1. apply wp_bind, wp_when.
    - intros He. unfold undo_remove_layer. apply wp_bind, wp_gets.
      rewrite Hf1, Hparent, HL. apply wp_record; [by apply Hr1|].
      intros w2 Hs2 Hn2 Ho2. apply wp_mutate. cbn. rewrite Hs2, Hf1. auto.
    - intros He. apply wp_mutate. cbn. rewrite Hf1. auto. }
  apply wp_bind, wp_when.
  - intros Hcur. rewrite Hcur. unfold setCurrentLayer.
    apply wp_bind, wp_logged; [auto with recording | exact Hr |].
    intros w1 Hs1 Hn1 Hr1. apply wp_mutate.
    eapply wp_mono; [apply Htail; [exact Hr1 | cbn; by rewrite Hs1]|].
    intros [] w' (Hl & Hf & Hg). cbn in Hl. auto.
  - intros Hcur. rewrite Hcur.
    eapply wp_mono; [apply Htail; [exact Hr | reflexivity]|].
    intros [] w' (Hl & Hf & Hg). auto.
Qed.

(** ** [removeCel] and the shared images *)

Lemma getCel_of_member cels c :
  NoDup (map cel_frame cels) -> c ∈ cels -> getCel cels (cel_frame c) = Some c.
Proof.
  intros Hnd Hc. destruct (getCel cels (cel_frame c)) as [c'|] eqn:Hget.
  - apply getCel_Some in Hget as [Hc' Hf]. f_equal.
    eapply (NoDup_map_eq cel_frame); eauto.
  - exfalso. by apply (getCel_None _ _ Hget c Hc).
Qed.

(** What the scan of [removeCel] finds: another cel of the same layer with
    the same image. *)
Lemma image_used_iff cels cel frames :
  NoDup (map cel_frame cels) ->
  Forall (fun c => 0 <= cel_frame c < frames) cels ->
  image_used cels cel frames = true <->
  exists c, c ∈ cels /\ cel_id c <> cel_id cel /\ cel_image c = cel_image cel.
Proof.
  intros Hnd Hrange. unfold image_used. rewrite existsb_exists. split.
  - intros (f & _ & Hf). destruct (getCel cels f) as [it|] eqn:Hget; [|done].
    apply getCel_Some in Hget as [Hit _].
    apply andb_prop in Hf as [Hid Himg]. exists it. split; [exact Hit|].
    split; [by apply Nat.eqb_neq, negb_true_iff | by apply Z.eqb_eq].
  - intros (c & Hc & Hid & Himg). exists (cel_frame c). split.
    + rewrite Forall_forall in Hrange. specialize (Hrange c Hc).
      apply list_elem_of_In, elem_of_zrange. lia.
    + rewrite (getCel_of_member _ _ Hnd Hc).
      apply andb_true_intro. split.
      * by apply negb_true_iff, Nat.eqb_neq.
      * by apply Z.eqb_eq.
Qed.

Lemma stock_getImage_put_None st i : stock_getImage (stock_put i None st) i = None.
Proof.
  unfold stock_getImage, stock_put. simpl. destruct (i <? 0); [reflexivity|].
  destruct (decide (Z.to_nat i < length (stock_images st))%nat) as [Hlt|Hge].
  - by rewrite list_lookup_insert_eq.
  - rewrite list_insert_ge by lia. by rewrite lookup_ge_None_2 by lia.
Qed.

(** X4: What the scan of [removeCel] does guarantee: it looks for another user of
    the cel's image among the cels of the same layer only.  In a layer with one cel per
    frame, within the frames of the sprite, all showing live images, the slot
    of the removed cel is freed exactly when no other cel of that layer shows
    it; the cels that stay in the layer still show live images, and no other
    slot of the stock is touched.  Cels of other layers are not looked at. *)
Theorem removeCel_frees_slot_unused_in_layer (t : UndoTransaction) (w : World)
    (id : LayerId) (p : LayerProps) (cels : list Cel) (cel : Cel) :
  ready t w ->
  cels_wf (m_frames (sprite w)) cels ->
  Forall (fun i => is_Some (stock_getImage (m_stock (sprite w)) i)) (map cel_image cels) ->
  cel ∈ cels ->
  wp (removeCel t (LayerImage id p cels) cel)
     (fun l' w' =>
        l' = LayerImage id p (cels_remove cel cels) /\
        (stock_getImage (m_stock (sprite w')) (cel_image cel) = None <->
         ~ exists c, c ∈ cels /\ cel_id c <> cel_id cel /\ cel_image c = cel_image cel) /\
        Forall (fun i => is_Some (stock_getImage (m_stock (sprite w')) i))
          (map cel_image (cels_remove cel cels)) /\
        forall i, i <> cel_image cel ->
          stock_getImage (m_stock (sprite w')) i = stock_getImage (m_stock (sprite w)) i) w.
Proof.
  intros Hr (Hnf & Hni & Hrange) Hlive Hcel.
  pose proof (image_used_iff cels cel (m_frames (sprite w)) Hnf Hrange) as Hused.
  assert (Hcel_live : is_Some (stock_getImage (m_stock (sprite w)) (cel_image cel))).
  { rewrite Forall_forall in Hlive. by apply Hlive, elem_of_map_image. }
  assert (Hstay : forall c, c ∈ cels_remove cel cels -> c ∈ cels /\ cel_id c <> cel_id cel).
  { intros c Hc. apply list_elem_of_filter in Hc. tauto. }
  unfold removeCel. apply wp_bind, wp_gets. cbn [layer_cels layer_id].
  destruct (image_used cels cel (m_frames (sprite w))) eqn:Hscan; cbn [negb].
  - apply wp_bind, wp_ret.
    apply wp_bind, wp_logged; [auto with recording | exact Hr |].
    intros w1 Hs1 Hn1 Hr1. apply wp_bind, wp_emit, wp_ret. cbn [sprite set_cels].
    rewrite Hs1. split; [reflexivity|]. split; [|split; [|reflexivity]].
    + split.
      * intros Hnone. destruct Hcel_live as [img Himg]. congruence.
      * intros Hno. exfalso. apply Hno, Hused. reflexivity.
    + apply Forall_forall. intros i Hi.
      apply list_elem_of_fmap in Hi as (c & -> & Hc).
      rewrite Forall_forall in Hlive. apply Hlive, elem_of_map_image.
      by apply Hstay.
  - apply wp_bind. apply wp_removeImageFromStock; [exact Hr | exact Hcel_live |].
    intros w0 Hr0 Hs0.
    apply wp_bind, wp_logged; [auto with recording | exact Hr0 |].
    intros w1 Hs1 Hn1 Hr1. apply wp_bind, wp_emit, wp_ret. cbn [sprite set_cels].
    rewrite Hs1, Hs0. cbn [m_stock set_stock].
    assert (Hnone : ~ exists c, c ∈ cels /\ cel_id c <> cel_id cel /\
                                cel_image c = cel_image cel).
    { intros Hex. apply Hused in Hex. congruence. }
    assert (Hother : forall i, i <> cel_image cel ->
      stock_getImage (stock_put (cel_image cel) None (m_stock (sprite w))) i =
      stock_getImage (m_stock (sprite w)) i).
    { intros i Hi. apply stock_getImage_put_ne;
        [eapply stock_getImage_nonneg, Hcel_live | congruence]. }
    split; [reflexivity|]. split; [|split; [|exact Hother]].
    + split; [intros _; exact Hnone | intros _; apply stock_getImage_put_None].
    + apply Forall_forall. intros i Hi.
      apply list_elem_of_fmap in Hi as (c & -> & Hc).
      destruct (Hstay c Hc) as [Hin Hid].
      rewrite Hother.
      * rewrite Forall_forall in Hlive. by apply Hlive, elem_of_map_image.
      * intros Himg. apply Hnone. eauto.
Qed.

(** ** [cropSprite] and [autocropSprite] run to completion *)

Lemma stock_put_Some_live st i img j :
  is_Some (stock_getImage st j) ->
  is_Some (stock_getImage (stock_put i (Some img) st) j).
Proof.
  unfold stock_getImage, stock_put. cbn [stock_images].
  destruct (j <? 0); [done|].
  destruct (stock_images st !! Z.to_nat j) as [slot|] eqn:Hj; [|intros [? ?]; discriminate].
  intros Hlive. destruct (decide (Z.to_nat i = Z.to_nat j)) as [->|Hne].
  - rewrite list_lookup_insert_eq by (eapply lookup_lt_Some, Hj). by eexists.
  - rewrite list_lookup_insert_ne by exact Hne. by rewrite Hj.
Qed.

Lemma wp_setCelPosition t cel x y (Q : Cel -> World -> Prop) w :
  ready t w ->
  (forall w', ready t w' -> sprite w' = sprite w -> Q (cel_set_position x y cel) w') ->
  wp (setCelPosition t cel x y) Q w.
Proof.
  intros Hr HQ. unfold setCelPosition.
  apply wp_bind, wp_logged2; [auto with recording | auto with recording | exact Hr |].
  intros w1 Hs1 Hn1 Hr1. apply wp_bind, wp_emit, wp_bind, wp_emit, wp_ret.
  apply HQ; [exact Hr1 | exact Hs1].
Qed.

Lemma wp_replaceStockImage t i img (Q : unit -> World -> Prop) w :
  ready t w ->
  is_Some (stock_getImage (m_stock (sprite w)) i) ->
  (forall w', ready t w' ->
     sprite w' = set_stock (stock_put i (Some img) (m_stock (sprite w))) (sprite w) ->
     Q tt w') ->
  wp (replaceStockImage t i img) Q w.
Proof.
  intros Hr [old Hold] HQ. unfold replaceStockImage.
  apply wp_bind, wp_gets. rewrite Hold.
  apply wp_bind, wp_logged; [auto with recording | exact Hr |].
  intros w1 Hs1 Hn1 Hr1. apply wp_mutate. apply HQ; [exact Hr1|].
  simpl. by rewrite Hs1.
Qed.

Lemma displaceLayers_completes t dx dy l :
  forall w, ready t w ->
  wp (displaceLayers t l dx dy)
     (fun l' w' =>
        l' = map_cels (fun c => cel_set_position (int_wrap (cel_x c + dx)) (int_wrap (cel_y c + dy)) c) l /\
        ready t w' /\ sprite w' = sprite w) w.
Proof.
  induction l as [id p cels | id p ls IH] using Layer_tree_ind; intros w Hr; simpl.
  - apply wp_bind. eapply wp_mono.
    { apply (wp_mapM _
        (fun c => cel_set_position (int_wrap (cel_x c + dx)) (int_wrap (cel_y c + dy)) c)
        (fun _ w' => ready t w' /\ sprite w' = sprite w)).
      - intros pre c post w' _ (Hr' & Hs').
        apply wp_setCelPosition; [exact Hr'|].
        intros w1 Hr1 Hs1. split; [reflexivity|]. split; [exact Hr1 | congruence].
      - auto. }
    intros cels' w' (-> & Hr' & Hs'). apply wp_ret. auto.
  - apply wp_bind. eapply wp_mono.
    { apply (wp_mapM _
        (map_cels (fun c => cel_set_position (int_wrap (cel_x c + dx)) (int_wrap (cel_y c + dy)) c))
        (fun _ w' => ready t w' /\ sprite w' = sprite w)).
      - intros pre c post w' Hsplit (Hr' & Hs').
        assert (Hc : c ∈ ls).
        { rewrite Hsplit. apply elem_of_app. right. apply elem_of_cons. by left. }
        rewrite Forall_forall in IH.
        eapply wp_mono; [apply (IH c Hc w' Hr')|].
        intros l' w2 (-> & Hr2 & Hs2). split; [reflexivity|].
        split; [exact Hr2 | congruence].
      - auto. }
    intros ls' w' (-> & Hr' & Hs'). apply wp_ret. auto.
Qed.

(** The worlds met while the cels of a layer are cropped, from [w0] on: the
    group is open, the current frame is the same and no slot has died. *)
Lemma cropCel_completes t cel x y w h bg w0 wd :
  ready t wd ->
  m_frame (sprite wd) = m_frame (sprite w0) ->
  (forall j, is_Some (stock_getImage (m_stock (sprite w0)) j) ->
             is_Some (stock_getImage (m_stock (sprite wd)) j)) ->
  is_Some (stock_getImage (m_stock (sprite w0)) (cel_image cel)) ->
  wp (cropCel t cel x y w h bg)
     (fun c' w' =>
        c' = cel_set_position x y cel /\
        ready t w' /\
        m_frame (sprite w') = m_frame (sprite w0) /\
        forall j, is_Some (stock_getImage (m_stock (sprite w0)) j) ->
                  is_Some (stock_getImage (m_stock (sprite w')) j)) wd.
Proof.
  intros Hr Hfr Hmono Hlive. unfold cropCel. apply wp_bind, wp_gets.
  destruct (Hmono _ Hlive) as [image Himage]. rewrite Himage.
  apply wp_bind, wp_replaceStockImage; [exact Hr | by eexists |].
  intros w1 Hr1 Hs1. apply wp_setCelPosition; [exact Hr1|].
  intros w2 Hr2 Hs2. split; [reflexivity|]. split; [exact Hr2|].
  rewrite Hs2, Hs1. cbn [m_frame m_stock set_stock]. split; [exact Hfr|].
  intros j Hj. apply stock_put_Some_live, Hmono, Hj.
Qed.

Lemma cropLayer_completes t l x y w h bg wd :
  ready t wd ->
  Forall (fun i => is_Some (stock_getImage (m_stock (sprite wd)) i)) (layer_images l) ->
  wp (cropLayer t l x y w h bg)
     (fun _ w' => ready t w' /\ m_frame (sprite w') = m_frame (sprite wd)) wd.
Proof.
  intros Hr Hlive. destruct l as [id p cels | id p ls]; simpl; [|by apply wp_ret].
  rewrite layer_images_image in Hlive.
  apply wp_bind. eapply wp_mono.
  { apply (wp_mapM _ (cel_set_position x y)
      (fun _ w' =>
         ready t w' /\ m_frame (sprite w') = m_frame (sprite wd) /\
         forall j, is_Some (stock_getImage (m_stock (sprite wd)) j) ->
                   is_Some (stock_getImage (m_stock (sprite w')) j))).
    - intros pre c post w' Hsplit (Hr' & Hfr' & Hmono').
      apply cropCel_completes; try assumption.
      rewrite Forall_forall in Hlive. apply Hlive, elem_of_map_image.
      rewrite Hsplit. apply elem_of_app. right. apply elem_of_cons. by left.
    - auto. }
  intros cels' w' (_ & Hr' & Hfr' & _). apply wp_ret. auto.
Qed.

Lemma layer_images_map_cels (g : Cel -> Cel) l :
  (forall c, cel_image (g c) = cel_image c) ->
  layer_images (map_cels g l) = layer_images l.
Proof.
  intros Hg. induction l as [id p cels | id p ls IH] using Layer_tree_ind; simpl.
  - rewrite !layer_images_image, map_map. apply map_ext. intros c. apply Hg.
  - rewrite !layer_images_folder. induction IH as [|c cs Hc _ IHcs]; [reflexivity|].
    simpl. by rewrite Hc, IHcs.
Qed.

Lemma child_images (P : Z -> Prop) root l :
  Forall P (layer_images root) -> In l (get_layers_list root) ->
  Forall P (layer_images l).
Proof.
  destruct root as [id p cels | id p ls]; simpl; [tauto|].
  rewrite layer_images_folder. intros Hall Hin.
  induction ls as [|c cs IH]; [destruct Hin|].
  simpl in Hall. apply Forall_app in Hall as [Hc Hcs].
  destruct Hin as [->|Hin]; [exact Hc | by apply IH].
Qed.

Lemma cropSprite_completes t x y w h bgcolor wd :
  ready t wd ->
  stock_integrity (sprite wd) ->
  0 < w -> 0 < h ->
  wp (cropSprite t x y w h bgcolor)
     (fun _ w' => m_frame (sprite w') = m_frame (sprite wd)) wd.
Proof.
  intros Hr Hlive Hw Hh. unfold cropSprite, setSpriteSize.
  apply wp_bind, wp_bind, wp_ASSERT; [by apply Z.gtb_lt|].
  apply wp_bind, wp_ASSERT; [by apply Z.gtb_lt|].
  apply wp_bind, wp_logged; [auto with recording | exact Hr |].
  intros w1 Hs1 Hn1 Hr1. apply wp_mutate, wp_bind, wp_gets. cbn [sprite].
  apply wp_bind. eapply wp_mono; [apply displaceLayers_completes; exact Hr1|].
  intros folder w2 (-> & Hr2 & Hs2). cbn [sprite] in Hs2.
  apply wp_bind, wp_store_folder, wp_bind, wp_gets. cbn [sprite].
  set (w3 := mkWorld _ _ _ _).
  assert (Hr3 : ready t w3) by exact Hr2.
  assert (Hfr3 : m_frame (sprite w3) = m_frame (sprite wd)).
  { unfold w3. cbn [sprite]. rewrite Hs2, Hs1. reflexivity. }
  assert (Hlive3 : stock_integrity (sprite w3)).
  { unfold stock_integrity, w3. cbn [sprite]. rewrite Hs2. cbn [m_stock m_folder set_folder set_size].
    rewrite layer_images_map_cels by reflexivity. rewrite Hs1. exact Hlive. }
  apply wp_bind with (Q := fun _ _ => _).
  assert (Hbg : wp match getBackgroundLayer (sprite w3) with
                   | Some background_layer =>
                       l ← cropLayer t background_layer 0 0 (m_width (sprite w3))
                             (m_height (sprite w3)) bgcolor;
                       store_layer l
                   | None => mret tt
                   end
                  (fun _ w' => ready t w' /\ m_frame (sprite w') = m_frame (sprite wd)) w3).
  { destruct (getBackgroundLayer (sprite w3)) as [bgl|] eqn:Hfind; [|by apply wp_ret].
    apply find_some in Hfind as [Hin _].
    apply wp_bind. eapply wp_mono.
    { apply cropLayer_completes; [exact Hr3|]. eapply child_images; [exact Hlive3 | exact Hin]. }
    intros l' w4 (Hr4 & Hfr4). unfold wp, store_layer, modify. simpl.
    split; [exact Hr4 | congruence]. }
  eapply wp_mono; [exact Hbg|].
  intros [] w4 (Hr4 & Hfr4). apply wp_bind, wp_gets.
  destruct (negb (mask_is_empty (m_mask (sprite w4)))); [|by apply wp_ret].
  unfold setMaskPosition. apply wp_bind, wp_gets.
  apply wp_bind, wp_logged2; [auto with recording | auto with recording | exact Hr4 |].
  intros w5 Hs5 Hn5 Hr5. apply wp_bind, wp_mutate, wp_mutate. simpl.
  by rewrite Hs5.
Qed.

(** C10: the scan of [autocropSprite] over the frames always completes and
    hands over the sprite and the journal exactly as it found them, current
    frame included: with an empty bounding box that is the end and nothing
    has changed; otherwise [cropSprite] runs from that unchanged document.
    Whenever [autocropSprite] completes, the current frame afterwards is the
    one before; and it does complete, in both cases, when the group of an
    enabled transaction is open and every cel shows a live image. *)
Theorem autocropSprite_keeps_current_frame (t : UndoTransaction) (bgcolor : Z)
    (w : World) :
  wp autocrop_scan
     (fun box w1 =>
        sprite w1 = sprite w /\ undoHistory w1 = undoHistory w /\
        autocropSprite t bgcolor w =
          (let '(x1, y1, x2, y2) := box in
           if (x1 >? x2) || (y1 >? y2) then Some (tt, w1)
           else cropSprite t x1 y1 (x2 - x1 + 1) (y2 - y1 + 1) bgcolor w1)) w /\
  keeps m_frame (autocropSprite t bgcolor) /\
  (ready t w -> stock_integrity (sprite w) ->
   wp (autocropSprite t bgcolor)
      (fun _ w' => m_frame (sprite w') = m_frame (sprite w)) w).
Proof.
  split; [|split].
  - pose proof (autocrop_scan_restores w) as Hscan. unfold wp in *.
    unfold autocropSprite. rewrite run_bind.
    destruct (autocrop_scan w) as [[[[[x1 y1] x2] y2] w1]|]; [|done].
    destruct Hscan as (Hs & Hh & Hn). split; [exact Hs|]. split; [exact Hh|].
    by destruct ((x1 >? x2) || (y1 >? y2)).
  - intros w0 a w' Hrun.
    pose proof (autocrop_scan_restores w0) as Hscan. unfold wp in Hscan.
    unfold autocropSprite in Hrun. rewrite run_bind in Hrun.
    destruct (autocrop_scan w0) as [[[[[x1 y1] x2] y2] w1]|]; [|done].
    destruct Hscan as (Hs & Hh & Hn). rewrite <- Hs.
    destruct ((x1 >? x2) || (y1 >? y2)).
    + by injection Hrun as <- <-.
    + eapply keeps_frame_cropSprite, Hrun.
  - intros Hr Hlive. unfold autocropSprite. apply wp_bind.
    eapply wp_mono; [apply autocrop_scan_restores|].
    intros [[[x1 y1] x2] y2] w1 (Hs & Hh & Hn).
    destruct ((x1 >? x2) || (y1 >? y2)) eqn:Hbox.
    + apply wp_ret. by rewrite Hs.
    + apply orb_false_iff in Hbox as [Hx Hy].
      rewrite Z.gtb_ltb in Hx, Hy. apply Z.ltb_ge in Hx. apply Z.ltb_ge in Hy.
      rewrite <- Hs. apply cropSprite_completes.
      * unfold ready. rewrite Hh. exact Hr.
      * by rewrite Hs.
      * lia.
      * lia.
Qed.

(** * Further properties of the methods *)

Lemma wp_and {A} (m : Tx A) (Q1 Q2 : A -> World -> Prop) w :
  wp m Q1 w -> wp m Q2 w -> wp m (fun a w' => Q1 a w' /\ Q2 a w') w.
Proof. unfold wp. destruct (m w) as [[a w']|]; tauto. Qed.

Lemma wp_completes {A} (m : Tx A) Q w : wp m Q w -> m w <> None.
Proof. unfold wp. destruct (m w); [discriminate | tauto]. Qed.

(** ** A transaction on a disabled journal *)

(** X15: With the journal disabled the constructor opens nothing and the
    destructor does nothing: an operation run in a transaction that is
    destroyed without commit is not rolled back, the outcome is the one of
    the operation alone. *)
Theorem rolled_back_without_journal (label : string)
    (O : UndoTransaction -> Tx unit) (w : World) :
  h_enabled (undoHistory w) = false ->
  rolled_back label O w = O (mkTransaction false false) w.
Proof.
  intros Hoff. unfold rolled_back, UndoTransaction_new.
  rewrite !run_bind. cbn [gets]. rewrite Hoff. cbn [isEnabled m_enabledFlag when].
  rewrite run_bind. cbn [mret M_ret]. rewrite run_bind.
  destruct (O (mkTransaction false false) w) as [[[] w']|]; reflexivity.
Qed.

(** ** The assertions of the setters *)

(** X14: The setters stop exactly on the values their assertions exclude:
    [setNumberOfFrames] below one frame, [setSpriteSize] on a width or a
    height that is not positive, [setCurrentFrame] and [setCelFramePosition]
    on a negative frame.  No upper bound is checked: [setCurrentFrame]
    accepts a frame past the last one. *)
Theorem setters_stop_on_assertions (t : UndoTransaction) (w : World) :
  ready t w ->
  (forall frames, setNumberOfFrames t frames w = None <-> frames < 1) /\
  (forall width height,
      setSpriteSize t width height w = None <-> width <= 0 \/ height <= 0) /\
  (forall frame, setCurrentFrame t frame w = None <-> frame < 0) /\
  (forall cel frame, setCelFramePosition t cel frame w = None <-> frame < 0) /\
  (forall frame, 0 <= frame ->
      wp (setCurrentFrame t frame)
         (fun _ w' => sprite w' = set_frame frame (sprite w)) w).
Proof.
  intros Hr. repeat split.
  - intros Hnone. destruct (Z.lt_ge_cases frames 1) as [Hlt|Hge]; [exact Hlt|].
    exfalso. revert Hnone. apply (wp_completes _ (fun _ _ => True)).
    unfold setNumberOfFrames. apply wp_bind, wp_ASSERT; [apply Z.geb_le; lia|].
    apply wp_bind, wp_logged; [auto with recording | exact Hr |].
    intros. by apply wp_mutate.
  - intros Hlt. unfold setNumberOfFrames. rewrite run_bind.
    destruct (Z.geb_spec frames 1); [lia | reflexivity].
  - intros Hnone.
    destruct (Z.le_gt_cases width 0) as [Hw|Hw]; [by left|].
    destruct (Z.le_gt_cases height 0) as [Hh|Hh]; [by right|].
    exfalso. revert Hnone. apply (wp_completes _ (fun _ _ => True)).
    unfold setSpriteSize. apply wp_bind, wp_ASSERT; [by apply Z.gtb_lt|].
    apply wp_bind, wp_ASSERT; [by apply Z.gtb_lt|].
    apply wp_bind, wp_logged; [auto with recording | exact Hr |].
    intros. by apply wp_mutate.
  - intros Hbad. unfold setSpriteSize. rewrite !run_bind.
    destruct (Z.gtb_spec width 0); cbn [ASSERT]; [|reflexivity].
    cbn [mret M_ret]. rewrite run_bind.
    destruct (Z.gtb_spec height 0); [lia | reflexivity].
  - intros Hnone. destruct (Z.lt_ge_cases frame 0) as [Hlt|Hge]; [exact Hlt|].
    exfalso. revert Hnone. apply (wp_completes _ (fun _ _ => True)).
    unfold setCurrentFrame. apply wp_bind, wp_ASSERT; [apply Z.geb_le; lia|].
    apply wp_bind, wp_logged; [auto with recording | exact Hr |].
    intros. by apply wp_mutate.
  - intros Hlt. unfold setCurrentFrame. rewrite run_bind.
    destruct (Z.geb_spec frame 0); [lia | reflexivity].
  - intros Hnone. destruct (Z.lt_ge_cases frame 0) as [Hlt|Hge]; [exact Hlt|].
    exfalso. revert Hnone. apply (wp_completes _ (fun _ _ => True)).
    unfold setCelFramePosition. apply wp_bind, wp_ASSERT; [apply Z.geb_le; lia|].
    apply wp_bind, wp_logged; [auto with recording | exact Hr |].
    intros. by apply wp_bind, wp_emit, wp_ret.
  - intros Hlt. unfold setCelFramePosition. rewrite run_bind.
    destruct (Z.geb_spec frame 0); [lia | reflexivity].
  - intros frame Hge. unfold setCurrentFrame.
    apply wp_bind, wp_ASSERT; [apply Z.geb_le; lia|].
    apply wp_bind, wp_logged; [auto with recording | exact Hr |].
    intros w1 Hs1 _ _. apply wp_mutate. cbn [sprite]. by rewrite Hs1.
Qed.

(** ** [displaceLayers] *)

Lemma map_cels_map_cels (f g : Cel -> Cel) l :
  map_cels f (map_cels g l) = map_cels (fun c => f (g c)) l.
Proof.
  induction l as [id p cels | id p ls IH] using Layer_tree_ind; simpl.
  - by rewrite map_map.
  - f_equal. rewrite map_map. apply map_ext_elem. intros c Hc.
    rewrite Forall_forall in IH. by apply IH.
Qed.

Lemma map_cels_ext (f g : Cel -> Cel) l :
  (forall c, f c = g c) -> map_cels f l = map_cels g l.
Proof.
  intros Hfg. induction l as [id p cels | id p ls IH] using Layer_tree_ind; simpl.
  - f_equal. apply map_ext, Hfg.
  - f_equal. apply map_ext_elem. intros c Hc.
    rewrite Forall_forall in IH. by apply IH.
Qed.

Lemma map_cels_id l : map_cels (fun c => c) l = l.
Proof.
  induction l as [id p cels | id p ls IH] using Layer_tree_ind; simpl.
  - by rewrite map_id.
  - f_equal. rewrite <- (map_id ls) at 2. apply map_ext_elem. intros c Hc.
    rewrite Forall_forall in IH. by apply IH.
Qed.

(** ** [int] arithmetic *)

Lemma int_wrap_range z : INT_MIN <= int_wrap z <= INT_MAX.
Proof.
  unfold int_wrap, INT_MIN, INT_MAX.
  pose proof (Z.mod_pos_bound (z + 2147483648) 4294967296 ltac:(lia)). lia.
Qed.

Lemma int_wrap_small z : INT_MIN <= z <= INT_MAX -> int_wrap z = z.
Proof.
  unfold int_wrap, INT_MIN, INT_MAX. intros Hz.
  rewrite Z.mod_small by lia. lia.
Qed.

Lemma int_wrap_add_l a b : int_wrap (int_wrap a + b) = int_wrap (a + b).
Proof.
  unfold int_wrap. f_equal.
  replace ((a + 2147483648) mod 4294967296 - 2147483648 + b + 2147483648)
    with ((a + 2147483648) mod 4294967296 + b) by lia.
  rewrite Zplus_mod_idemp_l. f_equal. lia.
Qed.

Lemma int_wrap_add_r a b : int_wrap (a + int_wrap b) = int_wrap (a + b).
Proof. rewrite (Z.add_comm a), int_wrap_add_l. f_equal. lia. Qed.

(** ** [setConstantFrameRate] *)

Lemma setConstantFrameRate_run (t : UndoTransaction) (msecs : Z) (w : World) :
  ready t w ->
  wp (setConstantFrameRate t msecs)
     (fun _ w' =>
        new_events w w' =
          (if isEnabled t
           then map (fun fr => Recorded (UndoSetFrlen fr (getFrameDuration (sprite w) fr)))
                    (frames_upto (m_frames (sprite w)))
           else [])
          ++ [Mutated OnSprite] /\
        sprite w' = setDurationForAllFrames msecs (sprite w)) w.
Proof.
  intros Hr. unfold setConstantFrameRate. apply wp_bind.
  set (recs := fun frs =>
    map (fun fr => Recorded (UndoSetFrlen fr (getFrameDuration (sprite w) fr))) frs).
  assert (Hlog :
    wp (when (isEnabled t)
          (s ← gets sprite; forM_ (frames_upto (m_frames s)) undo_set_frlen))
       (fun _ w' =>
          sprite w' = sprite w /\
          trace w' = trace w ++
            (if isEnabled t then recs (frames_upto (m_frames (sprite w))) else [])) w).
  { apply wp_when; intros He; rewrite He.
    - apply wp_bind, wp_gets.
      eapply wp_mono.
      { apply (wp_forM_ _
          (fun pre w' => sprite w' = sprite w /\ is_Some (h_open (undoHistory w')) /\
                         trace w' = trace w ++ recs pre)).
        - intros pre fr post w' _ (Hs' & Ho' & Ht').
          unfold undo_set_frlen. apply wp_bind, wp_gets.
          destruct Ho' as [g Hg]. unfold wp, record, with_history, gets, modify.
          rewrite run_bind. cbn. rewrite Hg. cbn.
          split; [exact Hs'|]. split; [by eexists|].
          rewrite Ht', Hs'. unfold recs. rewrite map_app, app_assoc. reflexivity.
        - split; [reflexivity|]. split; [exact (Hr He)|].
          by rewrite app_nil_r. }
      intros [] w' (Hs' & _ & Ht'). auto.
    - split; [reflexivity | by rewrite app_nil_r]. }
  eapply wp_mono; [exact Hlog|].
  intros [] w1 (Hs1 & Ht1). apply wp_mutate. cbn [sprite trace].
  split.
  - apply new_events_app. cbn [trace]. rewrite Ht1. by rewrite <- app_assoc.
  - by rewrite Hs1.
Qed.

(** X13: [setConstantFrameRate] records the duration of every frame, from the
    first to the last, each as it was, before it changes anything; the one
    change is [setDurationForAllFrames] on the sprite as it was found.  A
    disabled transaction records nothing. *)
Theorem setConstantFrameRate_records_every_frame (t : UndoTransaction) (msecs : Z)
    (w : World) :
  ready t w ->
  wp (setConstantFrameRate t msecs)
     (fun _ w' =>
        new_events w w' =
          (if isEnabled t
           then map (fun fr => Recorded (UndoSetFrlen fr (getFrameDuration (sprite w) fr)))
                    (frames_upto (m_frames (sprite w)))
           else [])
          ++ [Mutated OnSprite] /\
        sprite w' = setDurationForAllFrames msecs (sprite w)) w.
Proof. apply setConstantFrameRate_run. Qed.

(** ** Editing the current cel: [clearMask] and [pasteImage] *)

Lemma stock_getImage_lt st i img :
  stock_getImage st i = Some img -> 0 <= i < stock_size st.
Proof.
  unfold stock_getImage, stock_size. destruct (Z.ltb_spec i 0); [done|].
  destruct (stock_images st !! Z.to_nat i) eqn:E; [|done].
  intros _. apply lookup_lt_Some in E. lia.
Qed.

Lemma stock_getImage_put_eq st i slot img :
  stock_getImage st i = Some img ->
  stock_getImage (stock_put i slot st) i = slot.
Proof.
  intros Hlive. pose proof (stock_getImage_lt _ _ _ Hlive) as Hi.
  unfold stock_getImage, stock_put, stock_size in *. cbn [stock_images].
  destruct (Z.ltb_spec i 0); [lia|].
  by rewrite list_lookup_insert_eq by lia.
Qed.

Lemma getCelImage_live s c img :
  stock_getImage (m_stock s) (cel_image c) = Some img ->
  getCelImage s (Some c) = Some img.
Proof.
  intros Hlive. pose proof (stock_getImage_lt _ _ _ Hlive) as Hi.
  unfold getCelImage.
  destruct (Z.geb_spec (cel_image c) 0); [|lia].
  destruct (Z.ltb_spec (cel_image c) (stock_size (m_stock s))); [|lia].
  exact Hlive.
Qed.

Lemma recording_undo_image i img : recording (undo_image i img).
Proof. apply recording_record. Qed.

Section Surfaces.
Context {P : Pixels}.


(** X11: With nothing selected [clearMask] acts on the whole cel: on the
    background layer the image of the cel is cleared with the colour given,
    after one record, and the cel stays; on any other layer the cel is
    removed from the layer, as [removeCel] does, and the colour plays no
    part.  No other slot of the stock is touched. *)
Theorem clearMask_whole_cel (t : UndoTransaction) (bgcolor : Z) (w : World)
    (id : LayerId) (p : LayerProps) (cels : list Cel) (cel : Cel) (image : Image) :
  ready t w ->
  mask_is_empty (m_mask (sprite w)) = true ->
  getCurrentLayer (sprite w) = Some (LayerImage id p cels) ->
  getCel cels (m_frame (sprite w)) = Some cel ->
  stock_getImage (m_stock (sprite w)) (cel_image cel) = Some image ->
  wp (clearMask t bgcolor)
     (fun _ w' =>
        (if is_background p then
           m_folder (sprite w') = m_folder (sprite w) /\
           stock_getImage (m_stock (sprite w')) (cel_image cel) =
             Some (image_clear image bgcolor) /\
           new_events w w' =
             (if isEnabled t then [Recorded (UndoDirty (cel_image cel) image)] else [])
             ++ [Mutated OnStock]
         else
           m_folder (sprite w') =
             replace_layer (LayerImage id p (cels_remove cel cels)) (m_folder (sprite w))) /\
        forall i, i <> cel_image cel ->
          stock_getImage (m_stock (sprite w')) i =
          stock_getImage (m_stock (sprite w)) i) w.
Proof.
  intros Hr Hmask Hlayer Hcel Himage. unfold clearMask.
  apply wp_bind, wp_gets. unfold getCurrentCel. rewrite Hlayer, Hcel.
  rewrite (getCelImage_live _ _ _ Himage), Hmask. cbn [layer_props].
  pose proof (stock_getImage_lt _ _ _ Himage) as Hrange.
  destruct (is_background p).
  - apply wp_bind. apply wp_when; intros He.
    + destruct (Hr He) as [g Hg].
      unfold wp, undo_image, record, with_history, gets, modify.
      rewrite run_bind. cbn. rewrite Hg. cbn.
      split; [split; [reflexivity|split]|].
      * by apply stock_getImage_put_eq with (img := image).
      * rewrite He. apply new_events_app. cbn. by rewrite <- app_assoc.
      * intros i Hi. apply stock_getImage_put_ne; [lia | congruence].
    + apply wp_mutate. cbn [sprite m_folder set_stock m_stock].
      split; [split; [reflexivity|split]|].
      * by apply stock_getImage_put_eq with (img := image).
      * rewrite He. by apply new_events_app.
      * intros i Hi. apply stock_getImage_put_ne; [lia | congruence].
  - apply wp_bind. eapply wp_mono.
    { apply wp_removeCel; [exact Hr | by eexists]. }
    intros l' w1 (-> & Hr1 & Hsame & Hst).
    unfold wp, store_layer, modify. cbn.
    split; [|exact Hst]. rewrite Hsame. reflexivity.
Qed.

(** X12: [pasteImage] runs to completion exactly when the current layer is an
    image layer, visible and editable, with a cel at the current frame that
    shows a live image; it then replaces that image by the merge of the
    pasted one, at the position relative to the cel, and changes nothing
    else of the sprite. *)
Theorem pasteImage_needs_editable_cel (t : UndoTransaction) (src_image : Image)
    (x y opacity : Z) (w : World) :
  ready t w ->
  (pasteImage t src_image x y opacity w <> None <->
   exists id p cels cel img,
     getCurrentLayer (sprite w) = Some (LayerImage id p cels) /\
     is_readable p = true /\ is_writable p = true /\
     getCel cels (m_frame (sprite w)) = Some cel /\
     stock_getImage (m_stock (sprite w)) (cel_image cel) = Some img) /\
  (forall id p cels cel img,
     getCurrentLayer (sprite w) = Some (LayerImage id p cels) ->
     is_readable p = true -> is_writable p = true ->
     getCel cels (m_frame (sprite w)) = Some cel ->
     stock_getImage (m_stock (sprite w)) (cel_image cel) = Some img ->
     wp (pasteImage t src_image x y opacity)
        (fun _ w' =>
           sprite w' =
             set_stock
               (stock_put (cel_image cel)
                  (Some (image_merge img src_image (x - cel_x cel) (y - cel_y cel)
                           opacity BLEND_MODE_NORMAL))
                  (m_stock (sprite w)))
               (sprite w)) w).
Proof.
  intros Hr.
  assert (Hrun : forall id p cels cel img,
     getCurrentLayer (sprite w) = Some (LayerImage id p cels) ->
     is_readable p = true -> is_writable p = true ->
     getCel cels (m_frame (sprite w)) = Some cel ->
     stock_getImage (m_stock (sprite w)) (cel_image cel) = Some img ->
     wp (pasteImage t src_image x y opacity)
        (fun _ w' =>
           sprite w' =
             set_stock
               (stock_put (cel_image cel)
                  (Some (image_merge img src_image (x - cel_x cel) (y - cel_y cel)
                           opacity BLEND_MODE_NORMAL))
                  (m_stock (sprite w)))
               (sprite w)) w).
  { intros id p cels cel img Hlayer Hread Hwrite Hcel Himg. unfold pasteImage.
    apply wp_bind, wp_gets. rewrite Hlayer. cbn [is_image layer_props layer_cels].
    apply wp_bind, wp_ASSERT; [reflexivity|].
    apply wp_bind, wp_ASSERT; [exact Hread|].
    apply wp_bind, wp_ASSERT; [exact Hwrite|].
    rewrite Hcel, Himg.
    apply wp_replaceStockImage; [exact Hr | by eexists |].
    intros w' _ Hs'. exact Hs'. }
  split; [|exact Hrun]. split.
  - intros Hsome. unfold pasteImage in Hsome. rewrite run_bind in Hsome.
    cbn [gets] in Hsome.
    destruct (getCurrentLayer (sprite w)) as [[id p cels | id p ls]|]; [| |done].
    + cbn [is_image layer_props layer_cels] in Hsome.
      rewrite !run_bind in Hsome. cbn [ASSERT mret M_ret] in Hsome.
      rewrite run_bind in Hsome.
      destruct (is_readable p) eqn:Hread; [|done]. cbn [ASSERT mret M_ret] in Hsome.
      rewrite run_bind in Hsome.
      destruct (is_writable p) eqn:Hwrite; [|done]. cbn [ASSERT mret M_ret] in Hsome.
      destruct (getCel cels (m_frame (sprite w))) as [cel|] eqn:Hcel; [|done].
      destruct (stock_getImage (m_stock (sprite w)) (cel_image cel)) as [img|] eqn:Himg;
        [|done].
      by exists id, p, cels, cel, img.
    + cbn [is_image] in Hsome. rewrite run_bind in Hsome. done.
  - intros (id & p & cels & cel & img & Hlayer & Hread & Hwrite & Hcel & Himg).
    eapply wp_completes, Hrun; eauto.
Qed.

End Surfaces.

(** ** [cropSprite] *)




Lemma layer_id_map_cels f l : layer_id (map_cels f l) = layer_id l.
Proof. by destruct l. Qed.




Lemma getBackgroundLayer_image s bg :
  getBackgroundLayer s = Some bg ->
  In bg (get_layers_list (m_folder s)) /\
  exists id p cels, bg = LayerImage id p cels /\ is_background p = true.
Proof.
  unfold getBackgroundLayer. intros Hfind. apply find_some in Hfind as [Hin Hbg].
  split; [exact Hin|]. apply andb_prop in Hbg as [Himage Hflag].
  destruct bg as [id p cels | id p ls]; [|discriminate]. by exists id, p, cels.
Qed.


(** ** The invariants of the document through [removeFrame] *)

Lemma removeCel_scan t id p cels cel w :
  ready t w ->
  cels_wf (m_frames (sprite w)) cels ->
  Forall (fun i => is_Some (stock_getImage (m_stock (sprite w)) i)) (map cel_image cels) ->
  cel ∈ cels ->
  wp (removeCel t (LayerImage id p cels) cel)
     (fun l' w' =>
        l' = LayerImage id p (cels_remove cel cels) /\
        ready t w' /\
        same_but_stock (sprite w) (sprite w') /\
        (forall i, i <> cel_image cel ->
           stock_getImage (m_stock (sprite w')) i = stock_getImage (m_stock (sprite w)) i) /\
        Forall (fun i => is_Some (stock_getImage (m_stock (sprite w')) i))
          (map cel_image (cels_remove cel cels))) w.
Proof.
  intros Hr (Hnf & Hni & Hrange) Hlive Hcel.
  pose proof (image_used_iff cels cel (m_frames (sprite w)) Hnf Hrange) as Hused.
  assert (Hcel_live : is_Some (stock_getImage (m_stock (sprite w)) (cel_image cel))).
  { rewrite Forall_forall in Hlive. by apply Hlive, elem_of_map_image. }
  assert (Hstay : forall c, c ∈ cels_remove cel cels -> c ∈ cels /\ cel_id c <> cel_id cel).
  { intros c Hc. apply list_elem_of_filter in Hc. tauto. }
  eapply wp_mono; [apply wp_and; [apply wp_removeCel; [exact Hr | exact Hcel_live]|]|].
  - unfold removeCel. apply wp_bind, wp_gets. cbn [layer_cels layer_id].
    instantiate (1 := fun _ w' =>
      Forall (fun i => is_Some (stock_getImage (m_stock (sprite w')) i))
        (map cel_image (cels_remove cel cels))).
    destruct (image_used cels cel (m_frames (sprite w))) eqn:Hscan; cbn [negb].
    + apply wp_bind, wp_ret.
      apply wp_bind, wp_logged; [auto with recording | exact Hr |].
      intros w1 Hs1 Hn1 Hr1. apply wp_bind, wp_emit, wp_ret. cbn [sprite].
      rewrite Hs1. apply Forall_forall. intros i Hi.
      apply list_elem_of_fmap in Hi as (c & -> & Hc).
      rewrite Forall_forall in Hlive. apply Hlive, elem_of_map_image. by apply Hstay.
    + apply wp_bind. apply wp_removeImageFromStock; [exact Hr | exact Hcel_live |].
      intros w0 Hr0 Hs0.
      apply wp_bind, wp_logged; [auto with recording | exact Hr0 |].
      intros w1 Hs1 Hn1 Hr1. apply wp_bind, wp_emit, wp_ret. cbn [sprite].
      rewrite Hs1, Hs0. cbn [m_stock set_stock].
      apply Forall_forall. intros i Hi.
      apply list_elem_of_fmap in Hi as (c & -> & Hc).
      destruct (Hstay c Hc) as [Hin Hid].
      rewrite stock_getImage_put_ne.
      * rewrite Forall_forall in Hlive. by apply Hlive, elem_of_map_image.
      * eapply stock_getImage_nonneg, Hcel_live.
      * intros Himg. assert (Hex : false = true); [|discriminate].
        apply Hused. exists c. auto.
  - intros l' w' ((-> & Hr' & Hsame & Hst) & Hl). auto.
Qed.

Lemma cels_without_frame_images frame cels :
  map cel_image (cels_without_frame frame cels) =
  map cel_image (filter (fun c => cel_frame c ≠ frame) cels).
Proof.
  unfold cels_without_frame. rewrite map_map. apply map_ext. intros c.
  by destruct (cel_frame c >? frame).
Qed.

Lemma removeFrameOfLayer_image_live t frame id p cels w :
  cels_wf (m_frames (sprite w)) cels ->
  Forall (fun i => is_Some (stock_getImage (m_stock (sprite w)) i)) (map cel_image cels) ->
  0 <= frame < m_frames (sprite w) ->
  ready t w ->
  wp (removeFrameOfLayer t (LayerImage id p cels) frame)
     (fun l' w' =>
        Forall (fun i => is_Some (stock_getImage (m_stock (sprite w')) i))
          (layer_images l')) w.
Proof.
  intros Hwf Hlive Hframe Hr.
  pose proof Hwf as (Hnf & Hni & Hrange).
  cbn [removeFrameOfLayer].
  apply wp_bind, wp_ASSERT; [apply Z.geb_le; lia|]. apply wp_bind.
  assert (Hfirst :
    wp (match getCel cels frame with
        | Some cel => removeCel t (LayerImage id p cels) cel
        | None => mret (LayerImage id p cels)
        end)
       (fun l' w' =>
          l' = LayerImage id p (filter (fun c => cel_frame c ≠ frame) cels) /\
          ready t w' /\ same_but_stock (sprite w) (sprite w') /\
          Forall (fun i => is_Some (stock_getImage (m_stock (sprite w')) i))
            (layer_images l')) w).
  { destruct (getCel cels frame) as [cel|] eqn:Hget.
    - apply getCel_Some in Hget as [Hin Hfr].
      eapply wp_mono; [apply removeCel_scan; eauto|].
      intros l' w' (-> & Hr' & Hsame & _ & Hl).
      rewrite layer_images_image.
      rewrite cels_remove_frame, Hfr in * by assumption. auto.
    - apply wp_ret.
      assert (Hsame : filter (fun c => cel_frame c ≠ frame) cels = cels).
      { apply filter_all. by apply getCel_None. }
      rewrite Hsame. split; [reflexivity|]. split; [exact Hr|].
      split; [apply same_but_stock_refl|]. by rewrite layer_images_image. }
  eapply wp_mono; [exact Hfirst|].
  intros l1 w1 (-> & Hr1 & Hsame1 & Hl1). apply wp_bind, wp_gets.
  cbn [layer_cels]. apply wp_bind.
  eapply wp_mono.
  { apply shift_cel_back_loop; [| | lia | exact Hr1].
    - eapply sublist_NoDup; [exact Hnf | apply (fmap_sublist cel_frame), sublist_filter].
    - eapply sublist_NoDup; [exact Hni | apply (fmap_sublist cel_id), sublist_filter]. }
  intros cels2 w2 (-> & Hr2 & Hs2). apply wp_ret.
  rewrite layer_images_image in *. rewrite Hs2, map_map.
  erewrite map_ext; [exact Hl1|]. intros c. unfold shifted. by destruct (_ && _).
Qed.

Lemma sublist_without_frame frame l :
  layer_images (without_frame frame l) `sublist_of` layer_images l.
Proof.
  induction l as [id p cels | id p ls IH] using Layer_tree_ind; cbn [without_frame].
  - rewrite !layer_images_image, cels_without_frame_images.
    apply (fmap_sublist cel_image), sublist_filter.
  - rewrite !layer_images_folder.
    induction IH as [|c cs Hc _ IHcs]; [reflexivity|].
    cbn [map flat_map]. by apply sublist_app.
Qed.

Lemma elem_of_without_frame frame l i :
  i ∈ layer_images (without_frame frame l) -> i ∈ layer_images l.
Proof. intros Hi. eapply elem_of_sublist; [exact Hi | apply sublist_without_frame]. Qed.

Lemma removeFrameOfLayer_tree_live t frame l :
  forall w,
  layers_wf (m_frames (sprite w)) l ->
  Forall (fun i => is_Some (stock_getImage (m_stock (sprite w)) i)) (layer_images l) ->
  0 <= frame < m_frames (sprite w) ->
  ready t w ->
  wp (removeFrameOfLayer t l frame)
     (fun l' w' =>
        Forall (fun i => is_Some (stock_getImage (m_stock (sprite w')) i))
          (layer_images l')) w.
Proof.
  induction l as [id p cels | id p ls IH] using Layer_tree_ind;
    intros w Hwf Hlive Hframe Hr.
  - rewrite layer_images_image in Hlive. by apply removeFrameOfLayer_image_live.
  - cbn [removeFrameOfLayer].
    apply wp_bind, wp_ASSERT; [apply Z.geb_le; lia|]. apply wp_bind.
    destruct Hwf as [Hall Hpd]. apply foldr_and_Forall in Hall.
    rewrite layer_images_folder in Hlive.
    eapply wp_mono.
    { apply (wp_mapM _ (without_frame frame)
        (fun pre w' =>
           ready t w' /\ same_but_stock (sprite w) (sprite w') /\
           (forall i, i ∉ flat_map layer_images pre ->
              stock_getImage (m_stock (sprite w')) i =
              stock_getImage (m_stock (sprite w)) i) /\
           Forall (fun i => is_Some (stock_getImage (m_stock (sprite w')) i))
             (flat_map layer_images (map (without_frame frame) pre)))).
      - intros pre c post w' Hsplit (Hr' & Hsame' & Hst' & Hl').
        assert (Hc : c ∈ ls).
        { rewrite Hsplit. apply elem_of_app. right. apply elem_of_cons. by left. }
        assert (Hfresh : forall i, i ∈ layer_images c -> i ∉ flat_map layer_images pre).
        { intros i Hi. rewrite flat_map_concat_map.
          eapply pairwise_disjoint_middle; [|exact Hi].
          rewrite Hsplit, map_app in Hpd. exact Hpd. }
        assert (Hwfc : layers_wf (m_frames (sprite w')) c).
        { rewrite (same_but_stock_frames _ _ Hsame').
          rewrite Forall_forall in Hall. by apply Hall. }
        assert (Hlivec : Forall (fun i => is_Some (stock_getImage (m_stock (sprite w')) i))
                           (layer_images c)).
        { apply Forall_forall. intros i Hi. rewrite Hst' by (by apply Hfresh).
          rewrite Forall_forall in Hlive. apply Hlive.
          rewrite Hsplit, flat_map_app. apply elem_of_app. right.
          cbn [flat_map]. apply elem_of_app. by left. }
        assert (Hframec : 0 <= frame < m_frames (sprite w')).
        { by rewrite (same_but_stock_frames _ _ Hsame'). }
        rewrite Forall_forall in IH.
        eapply wp_mono.
        { apply wp_and.
          - apply (removeFrameOfLayer_tree t frame c w' Hwfc Hlivec Hframec Hr').
          - apply (IH c Hc w' Hwfc Hlivec Hframec Hr'). }
        intros l' w2 ((-> & Hr2 & Hsame2 & Hst2) & Hl2). split; [reflexivity|].
        split; [exact Hr2|]. split; [eapply same_but_stock_trans; eauto|]. split.
        + intros i Hi. rewrite flat_map_app in Hi. cbn [flat_map] in Hi.
          rewrite app_nil_r in Hi. apply not_elem_of_app in Hi as [Hi1 Hi2].
          rewrite Hst2 by exact Hi2. by apply Hst'.
        + rewrite map_app, flat_map_app. cbn [map flat_map]. rewrite app_nil_r.
          apply Forall_app. split; [|exact Hl2].
          apply Forall_forall. intros i Hi.
          rewrite Hst2.
          * rewrite Forall_forall in Hl'. by apply Hl'.
          * intros Hic. apply (Hfresh i Hic).
            apply list_elem_of_In, in_flat_map in Hi as (n & Hn & Hin).
            apply in_map_iff in Hn as (n0 & <- & Hn0).
            apply list_elem_of_In, in_flat_map. exists n0. split; [exact Hn0|].
            apply list_elem_of_In. eapply elem_of_without_frame.
            by apply list_elem_of_In.
      - split; [exact Hr|]. split; [apply same_but_stock_refl|].
        split; [reflexivity | constructor]. }
    intros ls' w' (-> & _ & _ & _ & Hl'). apply wp_ret.
    by rewrite layer_images_folder.
Qed.

Lemma cels_wf_without_frame frames frame cels :
  0 <= frame < frames ->
  cels_wf frames cels -> cels_wf (frames - 1) (cels_without_frame frame cels).
Proof.
  intros Hframe (Hnf & Hni & Hrange). unfold cels_without_frame.
  set (kept := filter (fun c => cel_frame c ≠ frame) cels).
  assert (Hkept : forall c, c ∈ kept -> c ∈ cels /\ cel_frame c <> frame).
  { intros c Hc. apply list_elem_of_filter in Hc. tauto. }
  assert (Hnf' : NoDup (map cel_frame kept)).
  { eapply sublist_NoDup; [exact Hnf | apply (fmap_sublist cel_frame), sublist_filter]. }
  assert (Hni' : NoDup (map cel_id kept)).
  { eapply sublist_NoDup; [exact Hni | apply (fmap_sublist cel_id), sublist_filter]. }
  split; [|split].
  - rewrite map_map.
    erewrite (map_ext _ (fun c => (fun f => if f >? frame then f - 1 else f) (cel_frame c)));
      [|intros c; by destruct (cel_frame c >? frame)].
    rewrite <- (map_map cel_frame (fun f => if f >? frame then f - 1 else f)).
    apply (NoDup_fmap_2_strong _ (map cel_frame kept)); [|exact Hnf'].
    intros a b Ha Hb.
    apply list_elem_of_fmap in Ha as (ca & -> & Hca).
    apply list_elem_of_fmap in Hb as (cb & -> & Hcb).
    destruct (Hkept _ Hca) as [_ Hna]. destruct (Hkept _ Hcb) as [_ Hnb].
    destruct (Z.gtb_spec (cel_frame ca) frame); destruct (Z.gtb_spec (cel_frame cb) frame);
      lia.
  - rewrite map_map.
    erewrite (map_ext _ cel_id); [exact Hni'|].
    intros c. by destruct (cel_frame c >? frame).
  - apply Forall_forall. intros c' Hc'.
    apply list_elem_of_fmap in Hc' as (c & -> & Hc).
    destruct (Hkept _ Hc) as [Hin Hne].
    rewrite Forall_forall in Hrange. specialize (Hrange c Hin).
    destruct (Z.gtb_spec (cel_frame c) frame); cbn; lia.
Qed.

Lemma no_common_sublist (a a' b b' : list Z) :
  a' `sublist_of` a -> b' `sublist_of` b -> no_common a b -> no_common a' b'.
Proof.
  intros Ha Hb Hab i Hia Hib.
  apply (Hab i); [exact (elem_of_sublist _ _ _ Hia Ha) | exact (elem_of_sublist _ _ _ Hib Hb)].
Qed.

Lemma pairwise_disjoint_sublists (ls ls' : list (list Z)) :
  Forall2 (fun a' a => a' `sublist_of` a) ls' ls ->
  pairwise_disjoint ls -> pairwise_disjoint ls'.
Proof.
  induction 1 as [|a' a ls' ls Ha Hls IH]; [done|].
  cbn [pairwise_disjoint]. intros [Hall Hpd]. split; [|by apply IH].
  clear IH Hpd. induction Hls as [|b' b ls' ls Hb Hls IH]; [constructor|].
  apply Forall_cons in Hall as [Hab Hall]. constructor.
  - eapply no_common_sublist; eauto.
  - by apply IH.
Qed.

Lemma layers_wf_without_frame frames frame l :
  0 <= frame < frames ->
  layers_wf frames l -> layers_wf (frames - 1) (without_frame frame l).
Proof.
  intros Hframe.
  induction l as [id p cels | id p ls IH] using Layer_tree_ind; cbn [layers_wf without_frame].
  - by apply cels_wf_without_frame.
  - intros [Hall Hpd]. apply foldr_and_Forall in Hall. split.
    + apply foldr_and_Forall. apply Forall_forall. intros c' Hc'.
      apply list_elem_of_fmap in Hc' as (c & -> & Hc).
      rewrite Forall_forall in IH, Hall. by apply IH, Hall.
    + eapply pairwise_disjoint_sublists; [|exact Hpd].
      rewrite map_map. clear. induction ls as [|c cs IHcs]; [constructor|].
      constructor; [apply sublist_without_frame | exact IHcs].
Qed.

Lemma removeFrame_run t w frame :
  ready t w ->
  0 <= frame < m_frames (sprite w) ->
  2 <= m_frames (sprite w) ->
  layers_wf (m_frames (sprite w)) (m_folder (sprite w)) ->
  stock_integrity (sprite w) ->
  wp (removeFrame t frame)
     (fun _ w' =>
        m_folder (sprite w') = without_frame frame (m_folder (sprite w)) /\
        m_frames (sprite w') = m_frames (sprite w) - 1 /\
        m_frame (sprite w') =
          (if m_frame (sprite w) >=? m_frames (sprite w) - 1
           then m_frames (sprite w) - 2 else m_frame (sprite w)) /\
        stock_integrity (sprite w')) w.
Proof.
  intros Hr Hframe Htwo Hwf Hlive. unfold removeFrame.
  apply wp_bind, wp_ASSERT; [apply Z.geb_le; lia|].
  apply wp_bind, wp_gets. apply wp_bind.
  eapply wp_mono.
  { apply wp_and; [apply removeFrameOfLayer_tree | apply removeFrameOfLayer_tree_live];
      eauto. }
  intros folder w1 ((-> & Hr1 & Hsame1 & _) & Hl1).
  apply wp_bind, wp_store_folder.
  match goal with |- wp _ _ ?W => set (w2 := W) end.
  assert (Hr2 : ready t w2) by exact Hr1.
  assert (Hfr2 : m_frames (sprite w2) = m_frames (sprite w)).
  { subst w2. cbn. by rewrite Hsame1. }
  assert (Hcur2 : m_frame (sprite w2) = m_frame (sprite w)).
  { subst w2. cbn. by rewrite Hsame1. }
  assert (Hfo2 : m_folder (sprite w2) = without_frame frame (m_folder (sprite w))).
  { reflexivity. }
  assert (Hl2 : stock_integrity (sprite w2)).
  { unfold stock_integrity. rewrite Hfo2. exact Hl1. }
  clearbody w2. apply wp_bind, wp_gets. rewrite Hfr2, Hcur2.
  unfold setNumberOfFrames, setCurrentFrame.
  destruct (Z.geb_spec (m_frame (sprite w)) (m_frames (sprite w) - 1)) as [Hlast|Hin];
    cbn [when].
  - apply wp_bind. apply wp_bind, wp_ASSERT; [apply Z.geb_le; lia|].
    apply wp_bind, wp_logged; [auto with recording | exact Hr2 |].
    intros w3 Hs3 Hn3 Hr3. apply wp_mutate.
    apply wp_bind, wp_ASSERT; [apply Z.geb_le; lia|].
    apply wp_bind, wp_logged; [auto with recording | exact Hr3 |].
    intros w4 Hs4 Hn4 Hr4. apply wp_mutate. cbn [sprite]. rewrite Hs4. cbn [sprite].
    rewrite Hs3. cbn. split; [exact Hfo2|]. split; [lia|]. split; [lia | exact Hl2].
  - apply wp_bind, wp_ret.
    apply wp_bind, wp_ASSERT; [apply Z.geb_le; lia|].
    apply wp_bind, wp_logged; [auto with recording | exact Hr2 |].
    intros w4 Hs4 Hn4 Hr4. apply wp_mutate. cbn [sprite]. rewrite Hs4. cbn.
    split; [exact Hfo2|]. split; [lia|]. split; [exact Hcur2 | exact Hl2].
Qed.

(** X3: [removeFrame] keeps the document well formed.  On a sprite of at least
    two frames with the current frame in range, whose layers hold one cel
    per frame, within the frames of the sprite, each showing a live image
    that no other layer uses, the same holds after [removeFrame(frame)] for
    the new frame count: no cel is left with a dead image, no two cels of a
    layer share a frame, and the current frame is a frame of the sprite. *)
Theorem removeFrame_keeps_invariants (t : UndoTransaction) (w : World) (frame : Z) :
  ready t w ->
  0 <= frame < m_frames (sprite w) ->
  2 <= m_frames (sprite w) ->
  0 <= m_frame (sprite w) < m_frames (sprite w) ->
  layers_wf (m_frames (sprite w)) (m_folder (sprite w)) ->
  stock_integrity (sprite w) ->
  wp (removeFrame t frame)
     (fun _ w' =>
        layers_wf (m_frames (sprite w')) (m_folder (sprite w')) /\
        stock_integrity (sprite w') /\
        0 <= m_frame (sprite w') < m_frames (sprite w')) w.
Proof.
  intros Hr Hframe Htwo Hcur Hwf Hlive.
  eapply wp_mono; [by apply removeFrame_run|].
  intros [] w' (Hfo & Hfr & Hc & Hl). rewrite Hfo, Hfr, Hc.
  split; [by apply layers_wf_without_frame|]. split; [exact Hl|].
  destruct (Z.geb_spec (m_frame (sprite w)) (m_frames (sprite w) - 1)); lia.
Qed.

(** ** [newFrame] *)

Lemma wp_fresh (Q : nat -> World -> Prop) w :
  Q (next_id w) (mkWorld (sprite w) (undoHistory w) (S (next_id w)) (trace w)) ->
  wp fresh Q w.
Proof. auto. Qed.

Lemma recording_undo_add_cel l c : recording (undo_add_cel l c).
Proof. apply recording_record. Qed.

Lemma raised_id lo hi c : cel_id (raised lo hi c) = cel_id c.
Proof. unfold raised. by destruct (_ && _). Qed.

Lemma shift_cel_forward_step t cels0 lo hi w :
  NoDup (map cel_frame cels0) -> NoDup (map cel_id cels0) ->
  0 <= lo <= hi -> ready t w ->
  wp (shift_cel_forward t (map (raised (lo + 1) hi) cels0) lo)
     (fun cels' w' =>
        cels' = map (raised lo hi) cels0 /\ ready t w' /\ sprite w' = sprite w) w.
Proof.
  intros Hnf Hni Hlo Hr. unfold shift_cel_forward.
  rewrite getCel_map; cycle 1.
  { intros c _. unfold raised.
    destruct (Z.leb_spec (lo + 1) (cel_frame c)); destruct (Z.leb_spec (cel_frame c) hi);
      simpl; lia. }
  destruct (getCel cels0 lo) as [cel|] eqn:Hget; simpl.
  - apply getCel_Some in Hget as [Hin Hfr].
    assert (Hcel : raised (lo + 1) hi cel = cel).
    { unfold raised. rewrite Hfr.
      destruct (Z.leb_spec (lo + 1) lo); [lia | reflexivity]. }
    rewrite Hcel. unfold setCelFramePosition. apply wp_bind.
    apply wp_bind, wp_ASSERT; [apply Z.geb_le; lia|].
    apply wp_bind, wp_logged; [auto with recording | exact Hr |].
    intros w1 Hs1 Hn1 Hr1. apply wp_bind, wp_emit, wp_ret, wp_ret. simpl.
    split; [|split; [exact Hr1 | exact Hs1]].
    unfold cels_update. rewrite map_map. apply map_ext_elem. intros c Hc.
    rewrite raised_id. simpl.
    destruct (Nat.eqb_spec (cel_id c) (cel_id cel)) as [Heq|Hne].
    + assert (c = cel) as -> by (eapply (NoDup_map_eq cel_id); eauto).
      unfold raised. rewrite Hfr.
      destruct (Z.leb_spec lo lo); [|lia].
      destruct (Z.leb_spec lo hi); [|lia]. reflexivity.
    + assert (cel_frame c <> lo).
      { intros Heq. apply Hne. f_equal.
        eapply (NoDup_map_eq cel_frame); eauto. congruence. }
      unfold raised.
      destruct (Z.leb_spec (lo + 1) (cel_frame c)); destruct (Z.leb_spec lo (cel_frame c));
        destruct (Z.leb_spec (cel_frame c) hi); simpl; try reflexivity; lia.
  - apply wp_ret. split; [|auto].
    apply map_ext_elem. intros c Hc.
    pose proof (getCel_None _ _ Hget c Hc).
    unfold raised.
    destruct (Z.leb_spec (lo + 1) (cel_frame c)); destruct (Z.leb_spec lo (cel_frame c));
      destruct (Z.leb_spec (cel_frame c) hi); simpl; try reflexivity; lia.
Qed.

(** The loop over the frames from the last one down to the new one. *)
Lemma shift_cel_forward_loop t cels0 hi (n : nat) w :
  NoDup (map cel_frame cels0) -> NoDup (map cel_id cels0) ->
  0 <= hi - Z.of_nat n + 1 -> ready t w ->
  wp (foldM (shift_cel_forward t) cels0 (zrange_down hi n))
     (fun cels' w' =>
        cels' = map (raised (hi - Z.of_nat n + 1) hi) cels0 /\
        ready t w' /\ sprite w' = sprite w) w.
Proof.
  intros Hnf Hni Hlo Hr.
  eapply wp_mono.
  { apply (wp_foldM _
      (fun pre cels' w' =>
         cels' = map (raised (hi - Z.of_nat (length pre) + 1) hi) cels0 /\
         ready t w' /\ sprite w' = sprite w)).
    - intros pre c post cels' w' Hsplit (-> & Hr' & Hs').
      apply zrange_down_split in Hsplit as [-> Hlt].
      eapply wp_mono; [apply shift_cel_forward_step; auto; lia|].
      intros cels2 w2 (-> & Hr2 & Hs2).
      rewrite length_app. cbn [length].
      replace (hi - Z.of_nat (length pre + 1) + 1) with (hi - Z.of_nat (length pre)) by lia.
      split; [reflexivity|]. split; [exact Hr2 | congruence].
    - split; [|auto]. cbn [length]. rewrite <- (map_id cels0) at 1.
      apply map_ext. intros c. unfold raised. zbool. }
  intros cels' w' (-> & Hr' & Hs'). split; [|auto].
  unfold zrange_down. by rewrite length_map, length_seq.
Qed.

Lemma raised_shifted_from frames frame cels :
  Forall (fun c => 0 <= cel_frame c < frames) cels ->
  map (raised frame (frames - 1)) cels = cels_shifted_from frame cels.
Proof.
  intros Hrange. unfold cels_shifted_from. apply map_ext_elem. intros c Hc.
  rewrite Forall_forall in Hrange. specialize (Hrange c Hc). unfold raised. zbool.
Qed.

Lemma getCel_shifted_from frame cels :
  getCel (cels_shifted_from frame cels) (frame - 1) = getCel cels (frame - 1).
Proof.
  unfold cels_shifted_from. rewrite getCel_map.
  - destruct (getCel cels (frame - 1)) as [src|] eqn:Hget; [|reflexivity].
    apply getCel_Some in Hget as [_ Hfr]. cbn. rewrite Hfr.
    destruct (Z.geb_spec (frame - 1) frame); [lia | reflexivity].
  - intros c _. destruct (Z.geb_spec (cel_frame c) frame); cbn; lia.
Qed.

Lemma prefix_stock_size (st st' : Stock) :
  stock_images st `prefix_of` stock_images st' -> stock_size st <= stock_size st'.
Proof.
  intros [k Hk]. unfold stock_size. rewrite Hk, length_app. lia.
Qed.

Lemma prefix_stock_getImage (st st' : Stock) i img :
  stock_images st `prefix_of` stock_images st' ->
  stock_getImage st i = Some img -> stock_getImage st' i = Some img.
Proof.
  intros [k Hk]. unfold stock_getImage. destruct (i <? 0); [done|].
  destruct (stock_images st !! Z.to_nat i) as [slot|] eqn:E; [|done].
  intros ->. rewrite Hk, lookup_app_l by (eapply lookup_lt_Some, E). by rewrite E.
Qed.

Lemma stock_getImage_added st img :
  stock_getImage (stock_addImage img st) (stock_size st) = Some img.
Proof.
  unfold stock_getImage, stock_addImage, stock_size. cbn [stock_images].
  destruct (Z.ltb_spec (Z.of_nat (length (stock_images st))) 0); [lia|].
  rewrite Nat2Z.id, lookup_app_r by lia. by rewrite Nat.sub_diag.
Qed.

Lemma frame_added_folder frame st st' id p ls id' p' ls' :
  frame_added frame st st' (LayerFolder id p ls) (LayerFolder id' p' ls') <->
  id' = id /\ p' = p /\ frames_added frame st st' ls ls'.
Proof.
  cbn [frame_added].
  assert (Hgo : forall ls ls',
    (fix go (ls ls' : list Layer) : Prop :=
       match ls, ls' with
       | [], [] => True
       | c :: cs, c' :: cs' => frame_added frame st st' c c' /\ go cs cs'
       | _, _ => False
       end) ls ls' <-> frames_added frame st st' ls ls').
  { clear. induction ls as [|c cs IH]; intros [|c' cs']; cbn; try tauto.
    by rewrite IH. }
  by rewrite Hgo.
Qed.

Lemma frames_added_snoc frame st st' ls ls' c c' :
  frames_added frame st st' ls ls' -> frame_added frame st st' c c' ->
  frames_added frame st st' (ls ++ [c]) (ls' ++ [c']).
Proof.
  revert ls'. induction ls as [|a ls IH]; intros [|a' ls']; cbn; try tauto.
  intros [Ha Hls] Hc. split; [exact Ha | by apply IH].
Qed.

(** The relation holds on with a stock that keeps what it had. *)
Lemma frame_added_mono frame st st1 st2 l :
  stock_images st1 `prefix_of` stock_images st2 ->
  forall l', frame_added frame st st1 l l' -> frame_added frame st st2 l l'.
Proof.
  intros Hpre.
  induction l as [id p cels | id p ls IH] using Layer_tree_ind; intros [id' p' cels' | id' p' ls'];
    try (cbn; tauto).
  - cbn [frame_added]. intros (-> & -> & Hcels). split; [reflexivity|]. split; [reflexivity|].
    destruct (getCel cels (frame - 1)) as [src|]; [|exact Hcels].
    destruct Hcels as (c & i & img & Hsrc & Hi & Hnew & ->).
    exists c, i, img. split; [exact Hsrc|]. split; [exact Hi|].
    split; [by eapply prefix_stock_getImage | reflexivity].
  - rewrite !frame_added_folder. intros (-> & -> & Hls).
    split; [reflexivity|]. split; [reflexivity|].
    revert ls' Hls. induction IH as [|c cs Hc _ IHcs]; intros [|c' cs']; cbn; try tauto.
    intros [Hcc Hcs]. split; [by apply Hc | by apply IHcs].
Qed.

Lemma frames_added_mono frame st st1 st2 ls ls' :
  stock_images st1 `prefix_of` stock_images st2 ->
  frames_added frame st st1 ls ls' -> frames_added frame st st2 ls ls'.
Proof.
  intros Hpre. revert ls'. induction ls as [|c cs IH]; intros [|c' cs']; cbn; try tauto.
  intros [Hc Hcs]. split; [by eapply frame_added_mono | by apply IH].
Qed.

(** An image layer gets the frame. *)
Lemma newFrameForLayer_image t frame st0 id p cels w :
  cels_wf (m_frames (sprite w)) cels ->
  Forall (fun i => is_Some (stock_getImage st0 i)) (map cel_image cels) ->
  stock_images st0 `prefix_of` stock_images (m_stock (sprite w)) ->
  1 <= frame <= m_frames (sprite w) ->
  ready t w ->
  wp (newFrameForLayer t (LayerImage id p cels) frame)
     (fun l' w' =>
        frame_added frame st0 (m_stock (sprite w')) (LayerImage id p cels) l' /\
        ready t w' /\
        same_but_stock (sprite w) (sprite w') /\
        stock_images (m_stock (sprite w)) `prefix_of` stock_images (m_stock (sprite w'))) w.
Proof.
  intros (Hnf & Hni & Hrange) Hlive Hpre Hframe Hr. cbn [newFrameForLayer].
  apply wp_bind, wp_ASSERT; [apply Z.geb_le; lia|].
  apply wp_bind, wp_gets. apply wp_bind.
  eapply wp_mono.
  { apply shift_cel_forward_loop; [exact Hnf | exact Hni | lia | exact Hr]. }
  intros cels1 w1 (-> & Hr1 & Hs1).
  replace (m_frames (sprite w) - 1 - Z.of_nat (Z.to_nat (m_frames (sprite w) - frame)) + 1)
    with frame by lia.
  rewrite (raised_shifted_from _ _ _ Hrange).
  unfold copyPreviousFrame. apply wp_bind, wp_ASSERT; [apply Z.gtb_lt; lia|].
  apply wp_bind, wp_gets. cbn [layer_cels]. rewrite getCel_shifted_from.
  cbn [frame_added].
  destruct (getCel cels (frame - 1)) as [src|] eqn:Hget.
  - pose proof (getCel_Some _ _ _ Hget) as [Hin _].
    assert (Hsrc : is_Some (stock_getImage st0 (cel_image src))).
    { rewrite Forall_forall in Hlive. by apply Hlive, elem_of_map_image. }
    destruct Hsrc as [img Himg].
    rewrite Hs1, (prefix_stock_getImage _ _ _ _ Hpre Himg).
    unfold addImageInStock, Stock_addImage.
    apply wp_bind, wp_bind, wp_bind, wp_gets, wp_bind, wp_mutate, wp_ret.
    apply wp_bind, wp_logged; [auto with recording | exact Hr1 |].
    intros w2 Hs2 Hn2 Hr2. apply wp_ret, wp_bind, wp_fresh.
    unfold addCel.
    apply wp_bind, wp_logged; [apply recording_undo_add_cel | exact Hr2 |].
    intros w3 Hs3 Hn3 Hr3. apply wp_bind, wp_emit, wp_ret.
    cbn [sprite layer_cels set_cels] in *. rewrite Hs3, Hs2, Hs1. cbn [m_stock set_stock].
    split; [|split; [exact Hr3|split]].
    + split; [reflexivity|]. split; [reflexivity|].
      exists (next_id w2), (stock_size (m_stock (sprite w))), img.
      split; [exact Himg|]. split; [by apply prefix_stock_size|].
      split; [apply stock_getImage_added | reflexivity].
    + reflexivity.
    + by exists [Some img].
  - apply wp_ret. rewrite Hs1.
    split; [auto|]. split; [exact Hr1|]. split; [apply same_but_stock_refl | reflexivity].
Qed.

(** A loop that rebuilds its elements, told by the part already visited and
    what was made of it. *)
Lemma wp_mapM_rel {A B} (body : A -> Tx B)
    (J : list A -> list B -> World -> Prop) (xs : list A) w :
  (forall pre x post ys w, xs = pre ++ x :: post -> J pre ys w ->
     wp (body x) (fun y w' => J (pre ++ [x]) (ys ++ [y]) w') w) ->
  J [] [] w ->
  wp (mapM body xs) (fun ys w' => J xs ys w') w.
Proof.
  intros Hbody.
  assert (Hgen : forall post pre ys0 w, xs = pre ++ post -> J pre ys0 w ->
            wp (mapM body post) (fun ys w' => J xs (ys0 ++ ys) w') w).
  { induction post as [|x post IH]; intros pre ys0 w0 Hxs HJ.
    - rewrite app_nil_r in Hxs. subst pre. apply wp_ret. by rewrite app_nil_r.
    - simpl. apply wp_bind. eapply wp_mono; [apply (Hbody pre x post); eauto|].
      intros y w1 HJ1. apply wp_bind.
      eapply wp_mono; [apply (IH (pre ++ [x]) (ys0 ++ [y])); auto|].
      { rewrite <- app_assoc. exact Hxs. }
      intros ys w2 HJ2. apply wp_ret. cbv beta in HJ2.
      rewrite <- app_assoc in HJ2. exact HJ2. }
  intros HJ. apply (Hgen xs [] []); auto.
Qed.

Lemma every_layer_folder (P : list Cel -> Prop) id p ls :
  every_layer P (LayerFolder id p ls) <-> Forall (every_layer P) ls.
Proof.
  unfold every_layer. cbn [image_layers].
  induction ls as [|c cs IH]; cbn [flat_map].
  - split; constructor.
  - rewrite Forall_app, Forall_cons, IH. tauto.
Qed.

Lemma every_layer_image (P : list Cel -> Prop) id p cels :
  every_layer P (LayerImage id p cels) <-> P cels.
Proof.
  unfold every_layer. cbn [image_layers]. rewrite Forall_cons. split; [tauto|].
  intros H. split; [exact H | constructor].
Qed.

(** Every layer of a tree gets the frame; the stock only grows. *)
Lemma newFrameForLayer_tree t frame st0 l :
  forall w,
  every_layer (cels_wf (m_frames (sprite w))) l ->
  Forall (fun i => is_Some (stock_getImage st0 i)) (layer_images l) ->
  stock_images st0 `prefix_of` stock_images (m_stock (sprite w)) ->
  1 <= frame <= m_frames (sprite w) ->
  ready t w ->
  wp (newFrameForLayer t l frame)
     (fun l' w' =>
        frame_added frame st0 (m_stock (sprite w')) l l' /\
        ready t w' /\
        same_but_stock (sprite w) (sprite w') /\
        stock_images (m_stock (sprite w)) `prefix_of` stock_images (m_stock (sprite w'))) w.
Proof.
  induction l as [id p cels | id p ls IH] using Layer_tree_ind;
    intros w Hwf Hlive Hpre Hframe Hr.
  - rewrite layer_images_image in Hlive. apply every_layer_image in Hwf.
    by apply newFrameForLayer_image.
  - cbn [newFrameForLayer].
    apply wp_bind, wp_ASSERT; [apply Z.geb_le; lia|]. apply wp_bind.
    apply every_layer_folder in Hwf. rewrite layer_images_folder in Hlive.
    eapply wp_mono.
    { apply (wp_mapM_rel _
        (fun pre ys w' =>
           frames_added frame st0 (m_stock (sprite w')) pre ys /\
           ready t w' /\ same_but_stock (sprite w) (sprite w') /\
           stock_images (m_stock (sprite w)) `prefix_of` stock_images (m_stock (sprite w')))).
      - intros pre c post ys w' Hsplit (Hys & Hr' & Hsame' & Hpre').
        assert (Hc : c ∈ ls).
        { rewrite Hsplit. apply elem_of_app. right. apply elem_of_cons. by left. }
        rewrite Forall_forall in IH, Hwf.
        eapply wp_mono.
        { apply (IH c Hc w').
          - rewrite (same_but_stock_frames _ _ Hsame'). by apply Hwf.
          - apply Forall_forall. intros i Hi.
            rewrite Forall_forall in Hlive. apply Hlive.
            rewrite Hsplit, flat_map_app. apply elem_of_app. right.
            cbn [flat_map]. apply elem_of_app. by left.
          - by etrans.
          - by rewrite (same_but_stock_frames _ _ Hsame').
          - exact Hr'. }
        intros l' w2 (Hl' & Hr2 & Hsame2 & Hpre2).
        split; [|split; [exact Hr2|split]].
        + apply frames_added_snoc; [|exact Hl'].
          by eapply frames_added_mono.
        + eapply same_but_stock_trans; eauto.
        + by etrans.
      - split; [exact I|]. split; [exact Hr|].
        split; [apply same_but_stock_refl | reflexivity]. }
    intros ls' w' (Hls & Hr' & Hsame' & Hpre'). apply wp_ret.
    split; [by apply frame_added_folder | auto].
Qed.

Lemma newFrame_run t w :
  ready t w ->
  0 <= m_frame (sprite w) < m_frames (sprite w) ->
  every_layer (cels_wf (m_frames (sprite w))) (m_folder (sprite w)) ->
  stock_integrity (sprite w) ->
  wp (newFrame t)
     (fun _ w' =>
        m_frames (sprite w') = m_frames (sprite w) + 1 /\
        m_frame (sprite w') = m_frame (sprite w) + 1 /\
        frame_added (m_frame (sprite w) + 1) (m_stock (sprite w)) (m_stock (sprite w'))
          (m_folder (sprite w)) (m_folder (sprite w')) /\
        stock_images (m_stock (sprite w)) `prefix_of` stock_images (m_stock (sprite w'))) w.
Proof.
  intros Hr Hcur Hwf Hlive. unfold newFrame.
  apply wp_bind, wp_gets. apply wp_bind.
  eapply wp_mono.
  { apply (newFrameForLayer_tree t _ (m_stock (sprite w)));
      [exact Hwf | exact Hlive | reflexivity | lia | exact Hr]. }
  intros folder w1 (Hadded & Hr1 & Hsame1 & Hpre1).
  apply wp_bind, wp_store_folder.
  match goal with |- wp _ _ ?W => set (w2 := W) end.
  assert (Hr2 : ready t w2) by exact Hr1.
  assert (Hs2 : sprite w2 = set_folder folder (sprite w1)) by reflexivity.
  clearbody w2. apply wp_bind, wp_gets.
  unfold setNumberOfFrames, setCurrentFrame.
  assert (Hfr2 : m_frames (sprite w2) = m_frames (sprite w)).
  { rewrite Hs2. cbn. by rewrite Hsame1. }
  assert (Hcur2 : m_frame (sprite w2) = m_frame (sprite w)).
  { rewrite Hs2. cbn. by rewrite Hsame1. }
  apply wp_bind. apply wp_bind, wp_ASSERT; [apply Z.geb_le; lia|].
  apply wp_bind, wp_logged; [auto with recording | exact Hr2 |].
  intros w3 Hs3 Hn3 Hr3. apply wp_mutate, wp_bind, wp_gets. cbn [sprite].
  apply wp_bind, wp_ASSERT; [apply Z.geb_le; rewrite Hs3; cbn; lia|].
  apply wp_bind, wp_logged; [auto with recording | exact Hr3 |].
  intros w4 Hs4 Hn4 Hr4. apply wp_mutate. cbn [sprite]. rewrite Hs4. cbn [sprite].
  rewrite Hs3, Hs2. cbn. rewrite Hsame1. cbn.
  split; [reflexivity|]. split; [reflexivity|]. split; [exact Hadded | exact Hpre1].
Qed.

(** X1: [newFrame] on a sprite whose current frame is one of its frames, whose
    layers hold one cel per frame within the frames of the sprite, each
    showing a live image: there is one frame more, the current frame is the
    new one, just after the one that was current, and the stock only gets
    new slots.  In every image layer the cels that were after the current
    frame are one frame later, and a layer that had a cel at the current
    frame has a new cel at the new frame: same position, same opacity, its
    own new slot of the stock holding a copy of the image.  A layer without
    a cel at the current frame gets no cel. *)
Theorem newFrame_adds_frame (t : UndoTransaction) (w : World) :
  ready t w ->
  0 <= m_frame (sprite w) < m_frames (sprite w) ->
  every_layer (cels_wf (m_frames (sprite w))) (m_folder (sprite w)) ->
  stock_integrity (sprite w) ->
  wp (newFrame t)
     (fun _ w' =>
        m_frames (sprite w') = m_frames (sprite w) + 1 /\
        m_frame (sprite w') = m_frame (sprite w) + 1 /\
        frame_added (m_frame (sprite w) + 1) (m_stock (sprite w)) (m_stock (sprite w'))
          (m_folder (sprite w)) (m_folder (sprite w')) /\
        stock_images (m_stock (sprite w)) `prefix_of` stock_images (m_stock (sprite w'))) w.
Proof. apply newFrame_run. Qed.

Lemma cels_add_perm c cels : cels_add c cels ≡ₚ c :: cels.
Proof.
  induction cels as [|a cels IH]; cbn [cels_add]; [reflexivity|].
  destruct (cel_frame a >? cel_frame c); [reflexivity|].
  rewrite IH. apply perm_swap.
Qed.

Lemma cels_shifted_from_frames frame cels :
  map cel_frame (cels_shifted_from frame cels) =
  map (fun f => if f >=? frame then f + 1 else f) (map cel_frame cels).
Proof.
  unfold cels_shifted_from. rewrite !map_map. apply map_ext. intros c.
  by destruct (cel_frame c >=? frame).
Qed.

Lemma cels_shifted_from_images frame cels :
  map cel_image (cels_shifted_from frame cels) = map cel_image cels.
Proof.
  unfold cels_shifted_from. rewrite map_map. apply map_ext. intros c.
  by destruct (cel_frame c >=? frame).
Qed.

Lemma cels_shifted_from_wf frames frame cels :
  cels_wf frames cels ->
  NoDup (map cel_frame (cels_shifted_from frame cels)) /\
  Forall (fun c => 0 <= cel_frame c < frames + 1) (cels_shifted_from frame cels) /\
  frame ∉ map cel_frame (cels_shifted_from frame cels).
Proof.
  intros (Hnf & _ & Hrange). split; [|split].
  - rewrite cels_shifted_from_frames.
    apply (NoDup_fmap_2_strong _ (map cel_frame cels)); [|exact Hnf].
    intros a b _ _.
    destruct (Z.geb_spec a frame); destruct (Z.geb_spec b frame); lia.
  - apply Forall_forall. intros c' Hc'. unfold cels_shifted_from in Hc'.
    apply list_elem_of_fmap in Hc' as (c & -> & Hc).
    rewrite Forall_forall in Hrange. specialize (Hrange c Hc).
    destruct (Z.geb_spec (cel_frame c) frame); cbn; lia.
  - rewrite cels_shifted_from_frames. intros Hin.
    apply list_elem_of_fmap in Hin as (f & Hf & _).
    destruct (Z.geb_spec f frame); lia.
Qed.

(** After [newFrame] every layer still has one cel per frame, within the
    frames of the sprite. *)
Lemma frame_added_one_per_frame frames frame st st' l :
  1 <= frame <= frames ->
  every_layer (cels_wf frames) l ->
  forall l', frame_added frame st st' l l' ->
  every_layer (fun cels => NoDup (map cel_frame cels) /\
                           Forall (fun c => 0 <= cel_frame c < frames + 1) cels) l'.
Proof.
  intros Hframe.
  induction l as [id p cels | id p ls IH] using Layer_tree_ind;
    intros Hwf [id' p' cels' | id' p' ls']; try (cbn; tauto).
  - cbn [frame_added]. intros (-> & -> & Hcels).
    apply every_layer_image in Hwf. apply every_layer_image.
    destruct (cels_shifted_from_wf frames frame cels Hwf) as (Hnd & Hrange & Hfree).
    destruct (getCel cels (frame - 1)) as [src|]; [|by subst cels'].
    destruct Hcels as (c & i & img & _ & _ & _ & ->). split.
    + rewrite (cels_add_perm _ _). cbn [map cel_copy cel_frame].
      by apply NoDup_cons.
    + rewrite (cels_add_perm _ _). apply Forall_cons. split; [cbn; lia | exact Hrange].
  - rewrite frame_added_folder. intros (-> & -> & Hls).
    apply every_layer_folder in Hwf. apply every_layer_folder.
    revert ls' Hls Hwf.
    induction IH as [|c cs Hc _ IHcs]; intros ls' Hls Hwf; destruct ls' as [|c' cs'];
      cbn in Hls; try contradiction.
    + constructor.
    + destruct Hls as [Hcc Hcs]. apply Forall_cons in Hwf as [Hwc Hwcs].
      constructor; [by apply Hc | by apply IHcs].
Qed.

(** After [newFrame] every cel still shows a live image. *)
Lemma frame_added_live frame st st' l :
  stock_images st `prefix_of` stock_images st' ->
  Forall (fun i => is_Some (stock_getImage st i)) (layer_images l) ->
  forall l', frame_added frame st st' l l' ->
  Forall (fun i => is_Some (stock_getImage st' i)) (layer_images l').
Proof.
  intros Hpre.
  assert (Hkeep : forall i, is_Some (stock_getImage st i) -> is_Some (stock_getImage st' i)).
  { intros i [img Himg]. exists img. by eapply prefix_stock_getImage. }
  induction l as [id p cels | id p ls IH] using Layer_tree_ind;
    intros Hlive [id' p' cels' | id' p' ls']; try (cbn; tauto).
  - cbn [frame_added]. intros (-> & -> & Hcels).
    rewrite layer_images_image in *.
    assert (Hshift : Forall (fun i => is_Some (stock_getImage st' i))
                       (map cel_image (cels_shifted_from frame cels))).
    { rewrite cels_shifted_from_images. eapply Forall_impl; [exact Hlive | exact Hkeep]. }
    destruct (getCel cels (frame - 1)) as [src|]; [|by subst cels'].
    destruct Hcels as (c & i & img & _ & _ & Hnew & ->).
    rewrite (cels_add_perm _ _). cbn [map cel_copy cel_image].
    apply Forall_cons. split; [by eexists | exact Hshift].
  - rewrite frame_added_folder. intros (-> & -> & Hls).
    rewrite layer_images_folder in *.
    revert ls' Hls Hlive.
    induction IH as [|c cs Hc _ IHcs]; intros ls' Hls Hlive; destruct ls' as [|c' cs'];
      cbn in Hls; try contradiction.
    + constructor.
    + destruct Hls as [Hcc Hcs]. cbn [flat_map] in *.
      apply Forall_app in Hlive as [Hlc Hlcs].
      apply Forall_app. split; [by apply Hc | by apply IHcs].
Qed.

(** X2: [newFrame] keeps the document well formed: on a sprite whose current
    frame is one of its frames, whose layers hold one cel per frame within
    the frames of the sprite, each showing a live image, the same holds
    afterwards with the new frame count: every layer has at most one cel per
    frame, within the frames of the sprite, every cel shows a live image,
    and the current frame is a frame of the sprite. *)
Theorem newFrame_keeps_invariants (t : UndoTransaction) (w : World) :
  ready t w ->
  0 <= m_frame (sprite w) < m_frames (sprite w) ->
  every_layer (cels_wf (m_frames (sprite w))) (m_folder (sprite w)) ->
  stock_integrity (sprite w) ->
  wp (newFrame t)
     (fun _ w' =>
        every_layer (fun cels => NoDup (map cel_frame cels) /\
                                 Forall (fun c => 0 <= cel_frame c < m_frames (sprite w')) cels)
          (m_folder (sprite w')) /\
        stock_integrity (sprite w') /\
        0 <= m_frame (sprite w') < m_frames (sprite w')) w.
Proof.
  intros Hr Hcur Hwf Hlive.
  eapply wp_mono; [by apply newFrame_run|].
  intros [] w' (Hfr & Hc & Hadded & Hpre). rewrite Hfr, Hc.
  split; [|split; [|lia]].
  - eapply frame_added_one_per_frame; [|exact Hwf | exact Hadded]. lia.
  - eapply frame_added_live; [exact Hpre | exact Hlive | exact Hadded].
Qed.

(** ** [flattenLayers] *)

Lemma find_layer_notin id l : id ∉ layer_ids l -> find_layer id l = None.
Proof.
  intros Hn. destruct (find_layer id l) as [n|] eqn:E; [|done].
  exfalso. apply Hn. pose proof (find_layer_id _ _ _ E) as Hid.
  eapply elem_of_sublist; [|eapply find_layer_sublist, E].
  rewrite <- Hid. apply layer_id_head.
Qed.

Lemma find_layer_self l : find_layer (layer_id l) l = Some l.
Proof. destruct l; simpl; by rewrite Nat.eqb_refl. Qed.

Lemma find_layers_middle bg pre B post :
  bg ∉ flat_map layer_ids pre -> layer_id B = bg ->
  find_layers bg (pre ++ B :: post) = Some B.
Proof.
  intros Hpre <-. induction pre as [|a pre IH]; cbn [app find_layers].
  - by rewrite find_layer_self.
  - cbn [flat_map] in Hpre. apply not_elem_of_app in Hpre as [Ha Hpre].
    rewrite (find_layer_notin _ _ Ha). by apply IH.
Qed.

Lemma find_layer_child rid p bg pre B post :
  rid <> bg -> bg ∉ flat_map layer_ids pre -> layer_id B = bg ->
  find_layer bg (LayerFolder rid p (pre ++ B :: post)) = Some B.
Proof.
  intros Hne Hpre HB. rewrite find_layer_folder.
  destruct (Nat.eqb_spec rid bg); [done|]. by apply find_layers_middle.
Qed.

Lemma update_layer_child rid p bg f pre pb cels post :
  rid <> bg -> bg ∉ flat_map layer_ids pre -> bg ∉ flat_map layer_ids post ->
  update_layer bg f (LayerFolder rid p (pre ++ LayerImage bg pb cels :: post)) =
  LayerFolder rid p (pre ++ f (LayerImage bg pb cels) :: post).
Proof.
  intros Hne Hpre Hpost. cbn [update_layer layer_id].
  destruct (Nat.eqb_spec rid bg); [done|].
  rewrite map_app. cbn [map update_layer layer_id].
  rewrite Nat.eqb_refl, !update_layers_notin by assumption. reflexivity.
Qed.

Lemma getCel_is_Some cels f :
  is_Some (getCel cels f) <-> exists c, c ∈ cels /\ cel_frame c = f.
Proof.
  split.
  - intros [c Hc]. exists c. by apply getCel_Some.
  - intros (c & Hc & Hf). destruct (getCel cels f) eqn:E; [by eexists|].
    exfalso. by apply (getCel_None _ _ E c Hc).
Qed.

Lemma getCel_cels_add c cels f :
  cel_frame c = f \/ is_Some (getCel cels f) -> is_Some (getCel (cels_add c cels) f).
Proof.
  intros H. apply getCel_is_Some.
  destruct H as [Hf|H].
  - exists c. split; [|exact Hf]. rewrite (cels_add_perm c cels). apply elem_of_cons. by left.
  - apply getCel_is_Some in H as (c0 & Hc0 & Hf). exists c0. split; [|exact Hf].
    rewrite (cels_add_perm c cels). apply elem_of_cons. by right.
Qed.

Lemma recording_undo_dirty i img : recording (undo_dirty i img).
Proof. apply recording_record. Qed.

(** The copy loop of [flattenLayers]: the background ends with a cel at
    every frame visited, all showing live images. *)
Lemma flatten_frames t bgcolor rid p pre bg pb post frames :
  rid <> bg -> bg ∉ flat_map layer_ids pre -> bg ∉ flat_map layer_ids post ->
  forall image w cels,
  ready t w ->
  m_folder (sprite w) = LayerFolder rid p (pre ++ LayerImage bg pb cels :: post) ->
  Forall (fun i => is_Some (stock_getImage (m_stock (sprite w)) i)) (map cel_image cels) ->
  wp (foldM (flatten_frame t bg bgcolor) image frames)
     (fun _ w' =>
        exists cels',
          m_folder (sprite w') = LayerFolder rid p (pre ++ LayerImage bg pb cels' :: post) /\
          Forall (fun i => is_Some (stock_getImage (m_stock (sprite w')) i))
            (map cel_image cels') /\
          (forall f, f ∈ frames -> is_Some (getCel cels' f)) /\
          ready t w' /\
          m_layer (sprite w') = m_layer (sprite w) /\
          m_frames (sprite w') = m_frames (sprite w)) w.
Proof.
  intros Hne Hpre Hpost image w cels Hr Hfolder Hlive.
  apply (wp_foldM _
    (fun done _ w' =>
       exists cels',
         m_folder (sprite w') = LayerFolder rid p (pre ++ LayerImage bg pb cels' :: post) /\
         Forall (fun i => is_Some (stock_getImage (m_stock (sprite w')) i))
           (map cel_image cels') /\
         (forall f, f ∈ done -> is_Some (getCel cels' f)) /\
         ready t w' /\
         m_layer (sprite w') = m_layer (sprite w) /\
         m_frames (sprite w') = m_frames (sprite w))).
  - intros done frame rest acc w' _ (cels' & Hfolder' & Hlive' & Hdone' & Hr' & Hl' & Hfr').
    unfold flatten_frame. apply wp_bind, wp_gets. cbn zeta.
    rewrite Hfolder'.
    rewrite (find_layer_child rid p bg pre (LayerImage bg pb cels') post Hne Hpre eq_refl).
    cbn [layer_cels].
    apply wp_bind.
    destruct (getCel cels' frame) as [cel|] eqn:Hget.
    + pose proof (getCel_Some _ _ _ Hget) as [Hin _].
      assert (Hcel : is_Some (stock_getImage (m_stock (sprite w')) (cel_image cel))).
      { rewrite Forall_forall in Hlive'. by apply Hlive', elem_of_map_image. }
      destruct Hcel as [cel_img Himg]. rewrite Himg.
      apply wp_bind, wp_logged; [apply recording_undo_dirty | exact Hr' |].
      intros w1 Hs1 Hn1 Hr1. apply wp_mutate, wp_ret. cbn [sprite].
      exists cels'. rewrite Hs1. cbn [m_folder m_stock m_layer m_frames set_stock].
      split; [exact Hfolder'|]. split; [|split; [|auto]].
      * eapply Forall_impl; [exact Hlive'|]. intros i Hi. by apply stock_put_Some_live.
      * intros f Hf. apply elem_of_app in Hf as [Hf|Hf]; [by apply Hdone'|].
        apply list_elem_of_singleton in Hf as ->. rewrite Hget. by eexists.
    + unfold Stock_addImage.
      apply wp_bind, wp_bind, wp_gets, wp_bind, wp_mutate, wp_ret, wp_bind, wp_fresh.
      apply wp_bind, wp_mutate, wp_mutate, wp_ret. cbn [sprite].
      set (image1 := layer_render _ _ _ _ _ _).
      set (index := stock_size (m_stock (sprite w'))).
      set (cel := cel_new (next_id w') frame index).
      exists (cels_add cel cels').
      cbn [m_folder m_stock m_layer m_frames set_stock set_folder].
      rewrite Hfolder', (update_layer_child _ _ _ _ _ _ _ _ Hne Hpre Hpost).
      cbn [set_cels layer_cels].
      assert (Hkeep : forall i,
        is_Some (stock_getImage (m_stock (sprite w')) i) ->
        is_Some (stock_getImage
                   (stock_put index (Some (image_copy image1 image1 0 0))
                      (stock_addImage image1 (m_stock (sprite w')))) i)).
      { intros i [img Himg]. apply stock_put_Some_live. exists img.
        eapply prefix_stock_getImage; [|exact Himg]. by exists [Some image1]. }
      split; [reflexivity|]. split; [|split; [|auto]].
      * rewrite (cels_add_perm _ _). cbn [map]. apply Forall_cons. split.
        -- cbn [cel cel_new cel_image]. apply stock_put_Some_live.
           exists image1. apply stock_getImage_added.
        -- eapply Forall_impl; [exact Hlive' | exact Hkeep].
      * intros f Hf. apply getCel_cels_add.
        apply elem_of_app in Hf as [Hf|Hf]; [right; by apply Hdone'|].
        apply list_elem_of_singleton in Hf as ->. by left.
  - exists cels. split; [exact Hfolder|]. split; [exact Hlive|].
    split; [|auto]. intros f Hf. by apply elem_of_nil in Hf.
Qed.

Lemma has_child_elem (c : Layer) ls : c ∈ ls -> has_child (layer_id c) ls = true.
Proof.
  intros Hc. unfold has_child. apply existsb_exists. exists c.
  split; [by apply list_elem_of_In | apply Nat.eqb_refl].
Qed.

Lemma remove_child_other (x : LayerId) (ls : list Layer) :
  x ∉ map layer_id ls -> remove_child x ls = ls.
Proof.
  intros Hx. unfold remove_child. apply filter_all.
  intros c Hc Heq. apply Hx. rewrite <- Heq. by apply (list_elem_of_fmap_2 layer_id).
Qed.

(** The removal loop of [flattenLayers] over the children of the root, as
    they were listed when the loop began. *)
Lemma flatten_removal t rid p bg children w :
  NoDup (map layer_id children) ->
  ready t w ->
  m_folder (sprite w) = LayerFolder rid p children ->
  wp (forM_ children
        (fun old_layer =>
           when (negb (Nat.eqb (layer_id old_layer) bg))
             (when (isEnabled t) (undo_remove_layer (layer_id old_layer));;
              mutate OnFolder
                (fun s => set_folder
                   (folder_remove_layer (layer_id old_layer) (m_folder s)) s))))
     (fun _ w' =>
        m_folder (sprite w') =
          LayerFolder rid p (filter (fun c => layer_id c = bg) children) /\
        ready t w' /\
        sprite w' = set_folder (m_folder (sprite w')) (sprite w)) w.
Proof.
  intros Hnd Hr Hfolder.
  eapply wp_mono.
  { apply (wp_forM_ _
      (fun done w' =>
         exists rest, children = done ++ rest /\
           m_folder (sprite w') =
             LayerFolder rid p (filter (fun c => layer_id c = bg) done ++ rest) /\
           ready t w' /\
           sprite w' = set_folder (m_folder (sprite w')) (sprite w))).
    - intros done x post w' Hsplit (rest & Hrest & Hfolder' & Hr' & Hs').
      assert (rest = x :: post) as ->.
      { rewrite Hsplit in Hrest. by apply app_inv_head in Hrest. }
      rewrite filter_app, filter_cons, filter_nil.
      rewrite Hsplit, map_app in Hnd. cbn [map] in Hnd.
      apply NoDup_app in Hnd as (_ & Hdis & Hnd2). apply NoDup_cons in Hnd2 as [Hxpost _].
      assert (Hxdone : layer_id x ∉ map layer_id done).
      { intros Hin. apply (Hdis _ Hin). apply elem_of_cons. by left. }
      destruct (Nat.eqb_spec (layer_id x) bg) as [Hbg|Hnbg]; cbn [negb when].
      + apply wp_ret. exists post. rewrite decide_True by exact Hbg.
        rewrite <- !app_assoc. cbn [app]. auto.
      + rewrite decide_False by exact Hnbg. rewrite app_nil_r.
        set (cur := filter (fun c => layer_id c = bg) done ++ x :: post) in *.
        assert (Hx : x ∈ cur).
        { apply elem_of_app. right. apply elem_of_cons. by left. }
        assert (Hparent : get_parent (layer_id x) (m_folder (sprite w')) = Some rid).
        { by rewrite Hfolder', get_parent_folder, (has_child_elem _ _ Hx). }
        destruct (find_layer_in (layer_id x) (m_folder (sprite w'))) as [n Hn].
        { rewrite Hfolder'. cbn [layer_ids]. apply elem_of_cons. right.
          apply child_id_in. by apply (list_elem_of_fmap_2 layer_id). }
        assert (Hremoved : remove_child (layer_id x) cur =
                           filter (fun c => layer_id c = bg) done ++ post).
        { unfold cur, remove_child. rewrite filter_app, filter_cons.
          rewrite decide_False by tauto.
          fold (remove_child (layer_id x) (filter (fun c => layer_id c = bg) done)).
          fold (remove_child (layer_id x) post).
          rewrite !remove_child_other; [reflexivity | exact Hxpost |].
          intros Hin. apply Hxdone.
          eapply elem_of_sublist; [exact Hin|].
          apply (fmap_sublist layer_id), sublist_filter. }
        apply wp_bind, wp_when.
        * intros He. unfold undo_remove_layer. apply wp_bind, wp_gets.
          rewrite Hparent, Hn. apply wp_record; [by apply Hr'|].
          intros w2 Hs2 Hn2 Ho2. apply wp_mutate. cbn [sprite].
          exists post. rewrite Hs2. cbn [m_folder set_folder].
          rewrite Hfolder'. cbn [folder_remove_layer get_layers_list set_layers].
          rewrite Hremoved. rewrite <- app_assoc. split; [exact Hsplit|].
          split; [reflexivity|]. split; [intros _; exact Ho2|].
          rewrite Hs' at 1. reflexivity.
        * intros He. apply wp_mutate. cbn [sprite m_folder set_folder].
          exists post. rewrite Hfolder'. cbn [folder_remove_layer get_layers_list set_layers].
          rewrite Hremoved. rewrite <- app_assoc. split; [exact Hsplit|].
          split; [reflexivity|]. split; [exact Hr'|].
          rewrite Hs' at 1. reflexivity.
    - exists children. split; [reflexivity|]. split; [exact Hfolder|].
      split; [exact Hr | by destruct (sprite w)]. }
  intros [] w' (rest & Hrest & Hfolder' & Hr' & Hs').
  assert (rest = []) as ->.
  { rewrite <- (app_nil_r children) in Hrest at 1. by apply app_inv_head in Hrest. }
  rewrite app_nil_r in Hfolder'. auto.
Qed.

Lemma recording_undo_move_layer l : recording (undo_move_layer l).
Proof. apply recording_gets. intros s. apply recording_record. Qed.

Lemma NoDup_child_ids (ls : list Layer) :
  NoDup (flat_map layer_ids ls) -> NoDup (map layer_id ls).
Proof.
  induction ls as [|c cs IH]; cbn [flat_map map]; [constructor|].
  rewrite (layer_ids_unfold c). cbn [app]. intros Hnd.
  apply NoDup_cons in Hnd as [Hc Hnd]. apply NoDup_app in Hnd as (_ & _ & Hcs).
  apply NoDup_cons. split; [|by apply IH].
  intros Hin. apply Hc, elem_of_app. right. by apply child_id_in.
Qed.

Lemma find_new_child n (ls : list Layer) L :
  n ∉ map layer_id ls -> layer_id L = n ->
  find (fun c => Nat.eqb (layer_id c) n) (ls ++ [L]) = Some L.
Proof.
  intros Hn HL. induction ls as [|c cs IH]; cbn [app find].
  - by rewrite HL, Nat.eqb_refl.
  - cbn [map] in Hn. apply not_elem_of_cons in Hn as [Hc Hcs].
    destruct (Nat.eqb_spec (layer_id c) n); [congruence | by apply IH].
Qed.

(** The new layer of [flattenLayers], once configured: flagged as
    background, at the bottom of the root. *)
Lemma configureAsBackground_new rid p layers n s :
  m_folder s = LayerFolder rid p (layers ++ [LayerImage n default_props []]) ->
  n <> rid -> n ∉ flat_map layer_ids layers -> rid ∉ flat_map layer_ids layers ->
  m_folder (configureAsBackground n s) =
  LayerFolder rid p (LayerImage n (mkProps "Background" true false true true) [] :: layers).
Proof.
  intros Hfolder Hn Hnew Hrid. unfold configureAsBackground. cbn [m_folder set_folder].
  rewrite Hfolder.
  rewrite (update_layer_child rid p n _ layers default_props [] []);
    [|congruence | exact Hnew | apply not_elem_of_nil].
  cbn [set_props layer_props default_props is_readable is_writable layer_id].
  unfold move_layer. cbn [update_layer layer_id]. rewrite Nat.eqb_refl.
  rewrite update_layers_notin; cycle 1.
  { rewrite flat_map_app. apply not_elem_of_app. split; [exact Hrid|].
    cbn. apply not_elem_of_cons. split; [congruence | apply not_elem_of_nil]. }
  cbn [get_layers_list].
  rewrite (find_new_child n layers) by (by apply not_in_flat_map_ids || reflexivity).
  cbn [set_layers]. f_equal.
  unfold remove_child. rewrite filter_app, filter_cons, filter_nil.
  rewrite decide_False by (cbn; tauto). rewrite app_nil_r.
  rewrite filter_all.
  - by destruct layers.
  - intros c Hc Heq. apply (not_in_flat_map_ids _ _ Hnew).
    rewrite <- Heq. by apply (list_elem_of_fmap_2 layer_id).
Qed.

Lemma filter_background_only bg (pre : list Layer) B post :
  layer_id B = bg ->
  bg ∉ map layer_id pre -> bg ∉ map layer_id post ->
  filter (fun c => layer_id c = bg) (pre ++ B :: post) = [B].
Proof.
  intros HB Hpre Hpost. rewrite filter_app, filter_cons, decide_True by exact HB.
  assert (Hnone : forall ls : list Layer, bg ∉ map layer_id ls ->
                    filter (fun c => layer_id c = bg) ls = []).
  { intros ls Hls. induction ls as [|c cs IH]; [reflexivity|].
    cbn [map] in Hls. apply not_elem_of_cons in Hls as [Hc Hcs].
    rewrite filter_cons, decide_False by congruence. by apply IH. }
  by rewrite !Hnone.
Qed.

(** X5: [flattenLayers] on a sprite whose cels show live images, with distinct
    layers: afterwards the root folder lists one layer only, the background
    (the one the sprite had, or a new one), which is the current layer and
    has a cel at every frame of the sprite; every cel shows a live image and
    the number of frames is the same. *)
Theorem flattenLayers_leaves_background (t : UndoTransaction) (bgcolor : Z) (w : World)
    (rid : LayerId) (p : LayerProps) (layers : list Layer) :
  ready t w ->
  m_folder (sprite w) = LayerFolder rid p layers ->
  NoDup (layer_ids (m_folder (sprite w))) ->
  next_id w ∉ layer_ids (m_folder (sprite w)) ->
  stock_integrity (sprite w) ->
  wp (flattenLayers t bgcolor)
     (fun _ w' =>
        exists bg pb cels,
          m_folder (sprite w') = LayerFolder rid p [LayerImage bg pb cels] /\
          is_background pb = true /\
          m_layer (sprite w') = Some bg /\
          (forall f, 0 <= f < m_frames (sprite w) -> is_Some (getCel cels f)) /\
          stock_integrity (sprite w') /\
          m_frames (sprite w') = m_frames (sprite w)) w.
Proof.
  intros Hr Hfolder Hnd Hfresh Hlive.
  rewrite Hfolder in Hnd, Hfresh. cbn [layer_ids] in Hnd, Hfresh.
  apply NoDup_cons in Hnd as [Hrid Hnd].
  apply not_elem_of_cons in Hfresh as [Hnrid Hnew].
  unfold flattenLayers. apply wp_bind, wp_gets. cbn zeta. apply wp_bind.
  assert (Hsetup :
    wp match getBackgroundLayer (sprite w) with
       | Some bg => mret (layer_id bg)
       | None =>
           id ← fresh;
           when (isEnabled t) (undo_add_layer (layer_id (m_folder (sprite w))) id);;
           mutate OnFolder
             (fun s => set_folder
                (folder_add_layer (LayerImage id default_props []) (m_folder s)) s);;
           when (isEnabled t) (undo_move_layer id);;
           mutate (OnLayer id) (configureAsBackground id);;
           mret id
       end
      (fun bg w1 =>
         exists pre pb cels post,
           rid <> bg /\ (bg ∉ flat_map layer_ids pre) /\ (bg ∉ flat_map layer_ids post) /\
           NoDup (map layer_id (pre ++ LayerImage bg pb cels :: post)) /\
           is_background pb = true /\
           m_folder (sprite w1) = LayerFolder rid p (pre ++ LayerImage bg pb cels :: post) /\
           Forall (fun i => is_Some (stock_getImage (m_stock (sprite w1)) i))
             (map cel_image cels) /\
           ready t w1 /\ m_frames (sprite w1) = m_frames (sprite w)) w).
  { destruct (getBackgroundLayer (sprite w)) as [bgl|] eqn:Hfind.
    - destruct (getBackgroundLayer_image _ _ Hfind) as (Hin & bg & pb & cels & -> & Hflag).
      pose proof Hin as Hin'. rewrite Hfolder in Hin'. cbn [get_layers_list] in Hin'.
      apply in_split in Hin' as (pre & post & ->).
      destruct (NoDup_children_middle _ _ _ Hnd) as [Hpre Hpost].
      apply wp_ret. exists pre, pb, cels, post. cbn [layer_id] in *.
      split.
      { intros <-. apply Hrid. rewrite flat_map_app. apply elem_of_app. right.
        cbn [flat_map layer_ids]. apply elem_of_cons. by left. }
      split; [exact Hpre|]. split; [exact Hpost|].
      split; [by apply NoDup_child_ids|]. split; [exact Hflag|].
      split; [exact Hfolder|]. split; [|auto].
      rewrite <- (layer_images_image bg pb).
      eapply child_images; [exact Hlive | exact Hin].
    - apply wp_bind, wp_fresh.
      apply wp_bind, wp_logged; [auto with recording | exact Hr |].
      intros w1 Hs1 Hn1 Hr1. apply wp_bind, wp_mutate.
      apply wp_bind, wp_logged; [apply recording_undo_move_layer | exact Hr1 |].
      intros w2 Hs2 Hn2 Hr2. apply wp_bind, wp_mutate, wp_ret. cbn [sprite].
      exists [], (mkProps "Background" true false true true), [], layers.
      cbn [app map cel_image].
      assert (Hf2 : m_folder (sprite w2) =
                    LayerFolder rid p (layers ++ [LayerImage (next_id w) default_props []])).
      { rewrite Hs2. cbn [sprite m_folder set_folder]. rewrite Hs1. cbn [sprite].
        by rewrite Hfolder. }
      split; [congruence|]. split; [apply not_elem_of_nil|]. split; [exact Hnew|].
      split.
      { cbn [map layer_id]. apply NoDup_cons. split; [by apply not_in_flat_map_ids|].
        by apply NoDup_child_ids. }
      split; [reflexivity|].
      split; [by apply configureAsBackground_new|].
      split; [constructor|]. split; [exact Hr2|].
      unfold configureAsBackground. cbn [m_frames set_folder]. rewrite Hs2. cbn.
      by rewrite Hs1. }
  eapply wp_mono; [exact Hsetup|].
  intros bg w1 (pre & pb & cels & post & Hne & Hpre & Hpost & Hndc & Hflag & Hf1 & Hl1 & Hr1 & Hfr1).
  apply wp_bind.
  eapply wp_mono;
    [by apply (flatten_frames t bgcolor rid p pre bg pb post _ Hne Hpre Hpost _ w1 cels)|].
  intros image w2 (cels' & Hf2 & Hl2 & Hall2 & Hr2 & _ & Hfr2).
  apply wp_bind, wp_gets. apply wp_bind.
  assert (Hselect :
    wp (when (negb (bool_decide (m_layer (sprite w2) = Some bg)))
          (when (isEnabled t) undo_set_layer;;
           mutate OnSprite (set_layer (Some bg))))
       (fun _ w3 =>
          ready t w3 /\ sprite w3 = set_layer (Some bg) (sprite w2)) w2).
  { apply wp_when; intros Hsel.
    - apply wp_bind, wp_logged; [auto with recording | exact Hr2 |].
      intros w3 Hs3 Hn3 Hr3. apply wp_mutate. cbn [sprite]. by rewrite Hs3.
    - split; [exact Hr2|]. apply negb_false_iff, bool_decide_eq_true in Hsel.
      destruct (sprite w2). cbn in *. by rewrite Hsel. }
  eapply wp_mono; [exact Hselect|].
  intros [] w3 (Hr3 & Hs3). apply wp_bind, wp_gets.
  assert (Hf3 : m_folder (sprite w3) =
                LayerFolder rid p (pre ++ LayerImage bg pb cels' :: post)).
  { by rewrite Hs3. }
  rewrite Hf3. cbn [get_layers_list].
  eapply wp_mono.
  { apply (flatten_removal t rid p bg); [|exact Hr3 | exact Hf3].
    rewrite map_app in *. exact Hndc. }
  intros [] w4 (Hf4 & Hr4 & Hs4).
  rewrite map_app in Hndc. cbn [map layer_id] in Hndc.
  apply NoDup_app in Hndc as (_ & Hdis & Hnd2). apply NoDup_cons in Hnd2 as [Hbpost _].
  rewrite (filter_background_only bg pre (LayerImage bg pb cels') post) in Hf4;
    [|reflexivity | | exact Hbpost]; cycle 1.
  { intros Hin. apply (Hdis _ Hin). apply elem_of_cons. by left. }
  assert (Hst4 : m_stock (sprite w4) = m_stock (sprite w2)).
  { rewrite Hs4, Hs3. reflexivity. }
  assert (Hl4 : m_layer (sprite w4) = Some bg).
  { rewrite Hs4, Hs3. reflexivity. }
  assert (Hfr4 : m_frames (sprite w4) = m_frames (sprite w)).
  { rewrite Hs4, Hs3. cbn [m_frames set_folder set_layer]. congruence. }
  exists bg, pb, cels'. split; [exact Hf4|]. split; [exact Hflag|].
  split; [exact Hl4|]. split.
  { intros f Hf. apply Hall2, elem_of_zrange. lia. }
  split; [|exact Hfr4].
  unfold stock_integrity. rewrite Hf4, Hst4.
  rewrite layer_images_folder. cbn [flat_map]. rewrite app_nil_r, layer_images_image.
  exact Hl2.
Qed.

(** ** The invariants of the document through [moveFrameBefore] *)

Lemma new_frame_of_range frames f frame before_frame :
  0 <= frame < frames -> 0 <= before_frame < frames -> 0 <= f < frames ->
  0 <= new_frame_of f frame before_frame < frames.
Proof. intros Hf Hb Hc. unfold new_frame_of. zbool. Qed.

Lemma new_frame_of_inj a b frame before_frame :
  new_frame_of a frame before_frame = new_frame_of b frame before_frame -> a = b.
Proof.
  unfold new_frame_of.
  destruct (Z.ltb_spec frame before_frame); [|destruct (Z.ltb_spec before_frame frame)].
  - destruct (Z.eqb_spec a frame); destruct (Z.eqb_spec b frame);
      destruct (Z.gtb_spec a frame); destruct (Z.ltb_spec a before_frame);
      destruct (Z.gtb_spec b frame); destruct (Z.ltb_spec b before_frame); cbn; lia.
  - destruct (Z.eqb_spec a frame); destruct (Z.eqb_spec b frame);
      destruct (Z.geb_spec a before_frame); destruct (Z.ltb_spec a frame);
      destruct (Z.geb_spec b before_frame); destruct (Z.ltb_spec b frame); cbn; lia.
  - done.
Qed.

Lemma every_layer_map_cels (P Q : list Cel -> Prop) (g : Cel -> Cel) l :
  (forall cels, P cels -> Q (map g cels)) ->
  every_layer P l -> every_layer Q (map_cels g l).
Proof.
  intros HPQ.
  induction l as [id p cels | id p ls IH] using Layer_tree_ind; cbn [map_cels].
  - rewrite !every_layer_image. apply HPQ.
  - rewrite !every_layer_folder. intros Hall.
    apply Forall_forall. intros c' Hc'.
    apply list_elem_of_fmap in Hc' as (c & -> & Hc).
    rewrite Forall_forall in IH, Hall. by apply IH, Hall.
Qed.

(** X8: [moveFrameBefore] keeps one cel per frame: whatever the two indices,
    when every layer has at most one cel per frame, within the frames of the
    sprite, it still has afterwards; the number of frames and the stock are
    as they were. *)
Theorem moveFrameBefore_keeps_one_cel_per_frame (t : UndoTransaction) (w : World)
    (frame before_frame : Z) :
  ready t w ->
  length (m_frlens (sprite w)) = Z.to_nat (m_frames (sprite w)) ->
  every_layer (fun cels => NoDup (map cel_frame cels) /\
                           Forall (fun c => 0 <= cel_frame c < m_frames (sprite w)) cels)
    (m_folder (sprite w)) ->
  wp (moveFrameBefore t frame before_frame)
     (fun _ w' =>
        every_layer (fun cels => NoDup (map cel_frame cels) /\
                                 Forall (fun c => 0 <= cel_frame c < m_frames (sprite w')) cels)
          (m_folder (sprite w')) /\
        m_frames (sprite w') = m_frames (sprite w) /\
        m_stock (sprite w') = m_stock (sprite w)) w.
Proof.
  intros Hr Hlen Hwf. unfold moveFrameBefore. apply wp_bind, wp_gets.
  destruct (negb (frame =? before_frame) && (frame >=? 0) && (frame <? m_frames (sprite w))
            && (before_frame >=? 0) && (before_frame <? m_frames (sprite w))) eqn:Hguard.
  - assert (Hin : frame <> before_frame /\
                  0 <= frame < m_frames (sprite w) /\
                  0 <= before_frame < m_frames (sprite w)).
    { revert Hguard.
      destruct (Z.eqb_spec frame before_frame); destruct (Z.geb_spec frame 0);
        destruct (Z.ltb_spec frame (m_frames (sprite w)));
        destruct (Z.geb_spec before_frame 0);
        destruct (Z.ltb_spec before_frame (m_frames (sprite w)));
        cbn; intros; try discriminate; lia. }
    destruct Hin as (Hne & Hf & Hb).
    apply wp_bind.
    eapply wp_mono; [by apply durations_rotated|].
    intros [] w1 ((Hr1 & Hs1 & Hl1) & Hdur1).
    apply wp_bind, wp_gets. apply wp_bind.
    eapply wp_mono; [apply moveFrameBeforeLayer_remaps; [lia | lia | exact Hr1]|].
    intros folder w2 (-> & Hr2 & Hs2). apply wp_store_folder. cbn [sprite].
    rewrite Hs2, Hs1. cbn [m_folder m_frames m_stock set_folder set_frlens].
    split; [|auto].
    eapply every_layer_map_cels; [|exact Hwf].
    intros cels [Hnd Hrange]. split.
    + rewrite map_map. cbn [cel_set_frame cel_frame].
      rewrite <- (map_map cel_frame (fun f => new_frame_of f frame before_frame)).
      apply (NoDup_fmap_2_strong _ (map cel_frame cels)); [|exact Hnd].
      intros a b _ _. apply new_frame_of_inj.
    + apply Forall_forall. intros c' Hc'.
      apply list_elem_of_fmap in Hc' as (c & -> & Hc).
      rewrite Forall_forall in Hrange. cbn [cel_set_frame cel_frame].
      by apply new_frame_of_range, Hrange.
  - apply wp_ret. auto.
Qed.

(** ** [newLayer] followed by [removeLayer] *)

Lemma remove_new_child n (layers : list Layer) L :
  layer_id L = n -> n ∉ map layer_id layers ->
  remove_child n (layers ++ [L]) = layers.
Proof.
  intros HL Hn. unfold remove_child. rewrite filter_app, filter_cons, filter_nil.
  rewrite decide_False by tauto. rewrite app_nil_r.
  apply filter_all. intros c Hc Heq. apply Hn.
  rewrite <- Heq. by apply (list_elem_of_fmap_2 layer_id).
Qed.

(** X9: Removing the layer that [newLayer] has just made gives the layer tree
    back, with the stock, the frames and the mask as they were; the
    selection does not come back: the current layer is then the layer that
    was on top of the root folder (none when the root was empty), whatever
    was selected before. *)
Theorem newLayer_then_removeLayer (t : UndoTransaction) (w : World)
    (rid : LayerId) (p : LayerProps) (layers : list Layer) :
  ready t w ->
  m_folder (sprite w) = LayerFolder rid p layers ->
  NoDup (layer_ids (m_folder (sprite w))) ->
  next_id w ∉ layer_ids (m_folder (sprite w)) ->
  wp (layer ← newLayer t; removeLayer t layer)
     (fun _ w' =>
        sprite w' = set_layer (layer_id <$> last layers) (sprite w)) w.
Proof.
  intros Hr Hfolder Hnd Hfresh.
  rewrite Hfolder in Hnd, Hfresh. cbn [layer_ids] in Hnd, Hfresh.
  apply NoDup_cons in Hnd as [Hrid Hnd].
  apply not_elem_of_cons in Hfresh as [Hnrid Hnew].
  pose proof (not_in_flat_map_ids _ _ Hnew) as Hnew'.
  set (L := LayerImage (next_id w) default_props []).
  set (root1 := LayerFolder rid p (layers ++ [L])).
  assert (Hadd : folder_add_layer L (m_folder (sprite w)) = root1).
  { by rewrite Hfolder. }
  assert (Hparent : get_parent (next_id w) root1 = Some rid).
  { unfold root1. rewrite get_parent_folder.
    rewrite (has_child_elem L); [reflexivity|].
    apply elem_of_app. right. apply elem_of_cons. by left. }
  assert (Hself : find_layer rid root1 = Some root1).
  { apply (find_layer_self root1). }
  assert (Hsib : siblings (next_id w) root1 = layers ++ [L]).
  { unfold siblings. by rewrite Hparent, Hself. }
  assert (Hsel : layer_select_after (next_id w) root1 = layer_id <$> last layers).
  { unfold layer_select_after, get_prev, get_next. rewrite Hsib, Hparent.
    pose proof (prev_in_middle layers L [] Hnew') as Hprev.
    pose proof (next_in_middle layers L [] Hnew') as Hnext.
    change (layer_id L) with (next_id w) in Hprev, Hnext. rewrite Hprev, Hnext.
    destruct (last layers); [reflexivity|]. cbn. by rewrite Nat.eqb_refl. }
  destruct (find_layer_in (next_id w) root1) as [Ln HLn].
  { unfold root1. cbn [layer_ids]. apply elem_of_cons. right.
    rewrite flat_map_app. apply elem_of_app. right. cbn. apply elem_of_cons. by left. }
  assert (Hremoved : remove_layer rid (next_id w) root1 = m_folder (sprite w)).
  { unfold remove_layer, root1. cbn [update_layer layer_id]. rewrite Nat.eqb_refl.
    rewrite update_layers_notin; cycle 1.
    { rewrite flat_map_app. apply not_elem_of_app. split; [exact Hrid|].
      cbn. apply not_elem_of_cons. split; [congruence | apply not_elem_of_nil]. }
    cbn [get_layers_list set_layers].
    by rewrite (remove_new_child (next_id w) layers L), Hfolder. }
  clearbody root1.
  apply wp_bind. unfold newLayer.
  apply wp_bind, wp_fresh. apply wp_bind, wp_gets. cbn [sprite].
  apply wp_bind, wp_logged; [auto with recording | exact Hr |].
  intros w1 Hs1 Hn1 Hr1. cbn [sprite] in Hs1.
  apply wp_bind, wp_mutate. apply wp_bind. unfold setCurrentLayer.
  apply wp_bind, wp_logged; [auto with recording | exact Hr1 |].
  intros w2 Hs2 Hn2 Hr2. cbn [sprite] in Hs2.
  apply wp_mutate, wp_ret.
  match goal with |- wp _ _ ?W => set (w3 := W) end.
  assert (Hr3 : ready t w3) by exact Hr2.
  assert (Hs3 : sprite w3 = set_layer (Some (next_id w)) (set_folder root1 (sprite w))).
  { unfold w3. cbn [sprite]. rewrite Hs2, Hs1.
    change (LayerImage (next_id w) default_props []) with L. by rewrite Hadd. }
  clearbody w3. unfold removeLayer. apply wp_bind, wp_gets.
  rewrite Hs3. cbn [m_folder m_layer set_layer set_folder].
  rewrite Hparent, Hsel, bool_decide_eq_true_2 by reflexivity. cbn [when].
  apply wp_bind. unfold setCurrentLayer.
  apply wp_bind, wp_logged; [auto with recording | exact Hr3 |].
  intros w4 Hs4 Hn4 Hr4. apply wp_mutate.
  apply wp_bind, wp_when.
  - intros He. unfold undo_remove_layer. apply wp_bind, wp_gets. cbn [sprite].
    rewrite Hs4, Hs3. cbn [m_folder set_layer set_folder].
    rewrite Hparent, HLn. apply wp_record; [by apply Hr4|].
    intros w5 Hs5 Hn5 Ho5. apply wp_mutate. cbn [sprite]. rewrite Hs5. cbn [sprite].
    cbn [m_folder set_layer set_folder]. rewrite Hremoved.
    by destruct (sprite w).
  - intros He. apply wp_mutate. cbn [sprite].
    rewrite Hs4, Hs3. cbn [m_folder set_layer set_folder]. rewrite Hremoved.
    by destruct (sprite w).
Qed.

(** ** Displacements, as [int]s *)

Lemma map_cels_ext_in (f g : Cel -> Cel) l :
  every_layer (Forall (fun c => f c = g c)) l -> map_cels f l = map_cels g l.
Proof.
  induction l as [id p cels | id p ls IH] using Layer_tree_ind; cbn [map_cels].
  - rewrite every_layer_image. intros Hall. f_equal.
    induction Hall as [|c cs Hc _ IHcs]; [reflexivity|]. cbn. by rewrite Hc, IHcs.
  - rewrite every_layer_folder. intros Hall. f_equal.
    apply map_ext_elem. intros c Hc.
    rewrite Forall_forall in IH, Hall. by apply IH, Hall.
Qed.

(** X7: Two displacements in a row move every cel of the tree by the sum of the
    two offsets, and the sprite is otherwise untouched.  The positions are
    [int]s: the sum wraps around at 32 bits, whatever the order.  When the
    positions of the cels fit an [int], a displacement followed by the
    opposite one, [-dx] and [-dy] as the machine computes them, gives the
    tree back, also when a sum on the way has wrapped. *)
Theorem displaceLayers_composes (t : UndoTransaction) (l : Layer)
    (dx dy dx' dy' : Z) (w : World) :
  ready t w ->
  wp (l1 ← displaceLayers t l dx dy; displaceLayers t l1 dx' dy')
     (fun l2 w' =>
        l2 = map_cels (fun c => cel_set_position (int_wrap (cel_x c + (dx + dx')))
                                  (int_wrap (cel_y c + (dy + dy'))) c) l /\
        sprite w' = sprite w /\
        (every_layer (Forall cel_in_range) l ->
         dx' = int_wrap (- dx) -> dy' = int_wrap (- dy) -> l2 = l)) w.
Proof.
  intros Hr. apply wp_bind.
  eapply wp_mono; [apply displaceLayers_completes, Hr|].
  intros l1 w1 (-> & Hr1 & Hs1).
  eapply wp_mono; [apply displaceLayers_completes, Hr1|].
  intros l2 w2 (-> & Hr2 & Hs2).
  set (sum := fun c => cel_set_position (int_wrap (cel_x c + (dx + dx')))
                         (int_wrap (cel_y c + (dy + dy'))) c).
  assert (Hsum :
    map_cels (fun c => cel_set_position (int_wrap (cel_x c + dx'))
                         (int_wrap (cel_y c + dy')) c)
      (map_cels (fun c => cel_set_position (int_wrap (cel_x c + dx))
                            (int_wrap (cel_y c + dy)) c) l)
    = map_cels sum l).
  { rewrite map_cels_map_cels. apply map_cels_ext. intros c.
    unfold sum, cel_set_position. cbn.
    rewrite !int_wrap_add_l, !Z.add_assoc. reflexivity. }
  split; [exact Hsum|]. split; [congruence|].
  intros Hfit -> ->. rewrite Hsum. rewrite <- (map_cels_id l) at 2.
  apply map_cels_ext_in. unfold every_layer in *.
  eapply Forall_impl; [exact Hfit|]. intros cels Hcels.
  eapply Forall_impl; [exact Hcels|].
  intros [i f im cx cy o] [Hx Hy]. unfold sum, cel_set_position.
  cbn in *. rewrite !Z.add_assoc, !int_wrap_add_r.
  f_equal; (etransitivity; [|apply int_wrap_small; eassumption]); f_equal; lia.
Qed.

(** ** The order of recording and mutation *)


Lemma journal_first_precedes (evs : list Event) :
  journal_first evs -> record_precedes_mutation evs = true.
Proof. intros ([|r rs] & os & Hrs & _ & ->); [done | reflexivity]. Qed.





(** ** [removeFrame] on a sprite of one frame *)

Lemma keeps_foldM {A S X} (f : Sprite -> X) (body : S -> A -> Tx S) xs :
  (forall acc x, keeps f (body acc x)) -> forall acc, keeps f (foldM body acc xs).
Proof.
  intros Hbody. induction xs as [|x xs IH]; intros acc; simpl.
  - apply keeps_ret.
  - apply keeps_bind; [apply Hbody | intros acc'; apply IH].
Qed.

Lemma keeps_counters_removeCel t layer cel :
  keeps frame_counters (removeCel t layer cel).
Proof.
  unfold removeCel, removeImageFromStock, undo_remove_image, undo_remove_cel.
  apply keeps_bind; [apply keeps_gets|]. intros s.
  apply keeps_bind.
  { apply keeps_when. apply keeps_bind; [apply keeps_ASSERT|]. intros _.
    apply keeps_bind; [apply keeps_gets|]. intros s'.
    destruct (stock_getImage (m_stock s') (cel_image cel)); keeps_frame. }
  intros _. keeps_frame.
Qed.

Lemma keeps_counters_shift_cel_back t cels frame :
  keeps frame_counters (shift_cel_back t cels frame).
Proof.
  unfold shift_cel_back, setCelFramePosition, undo_int.
  destruct (getCel cels frame); keeps_frame.
Qed.

Lemma keeps_counters_removeFrameOfLayer t l frame :
  keeps frame_counters (removeFrameOfLayer t l frame).
Proof.
  induction l as [id p cels | id p ls IH] using Layer_tree_ind; simpl.
  - apply keeps_bind; [apply keeps_ASSERT|]. intros _.
    apply keeps_bind.
    { destruct (getCel cels frame); [apply keeps_counters_removeCel | apply keeps_ret]. }
    intros layer1. apply keeps_bind; [apply keeps_gets|]. intros s.
    apply keeps_bind; [|intros; apply keeps_ret].
    apply keeps_foldM. intros acc x. apply keeps_counters_shift_cel_back.
  - apply keeps_bind; [apply keeps_ASSERT|]. intros _.
    apply keeps_bind; [|intros; apply keeps_ret].
    by apply keeps_mapM_Forall.
Qed.

(** X16: [removeFrame] never runs to completion on a sprite that has one
    frame only, whatever the frame asked for, the layers and the journal:
    when the layers have been gone through, either the current frame is to
    become [-1], which [setCurrentFrame] refuses, or the frame count is to
    become [0], which [setNumberOfFrames] refuses. *)
Theorem removeFrame_needs_two_frames (t : UndoTransaction) (w : World) (frame : Z) :
  m_frames (sprite w) <= 1 ->
  removeFrame t frame w = None.
Proof.
  intros Hone. unfold removeFrame. rewrite run_bind.
  destruct (frame >=? 0); [|reflexivity]. cbn [ASSERT mret M_ret].
  rewrite run_bind. cbn [gets]. rewrite run_bind.
  destruct (removeFrameOfLayer t (m_folder (sprite w)) frame w) as [[folder w1]|] eqn:Hrun;
    [|reflexivity].
  apply keeps_counters_removeFrameOfLayer in Hrun. injection Hrun as Hframes Hframe.
  rewrite run_bind. cbn [store_folder modify]. rewrite run_bind.
  cbn [gets sprite m_frame m_frames set_folder]. rewrite Hframes, Hframe.
  rewrite run_bind. unfold setCurrentFrame, setNumberOfFrames.
  destruct (Z.geb_spec (m_frame (sprite w)) (m_frames (sprite w) - 1)) as [Hlast|Hin];
    cbn [when].
  - rewrite run_bind.
    destruct (Z.geb_spec (m_frames (sprite w) - 1 - 1) 0) as [Hpos|Hneg]; [lia|].
    reflexivity.
  - cbn [mret M_ret]. rewrite run_bind.
    destruct (Z.geb_spec (m_frames (sprite w) - 1) 1) as [Hpos|Hneg]; [lia|].
    reflexivity.
Qed.

End Reasoning.

(** * Worked examples on the concrete raster *)

(** Closes a goal about a decidable proposition by evaluation. *)
Ltac by_evaluation := apply (bool_decide_unpack _); vm_compute; reflexivity.

(** C4, at a sprite of one frame whose transaction recorded nothing. *)
Lemma commit_then_delete_example :
  exists w',
    UndoTransaction_delete (commit tx_on) one_frame = Some (tt, w') /\
    sprite w' = sprite one_frame /\
    h_redo (undoHistory w') = h_redo (undoHistory one_frame) /\
    h_undo (undoHistory w') =
      (if isEnabled tx_on then [(h_label (undoHistory one_frame), [])] else [])
        ++ h_undo (undoHistory one_frame) /\
    new_events one_frame w' = (if isEnabled tx_on then [Closed] else []).
Proof.
  apply (commit_then_delete_keeps_document tx_on one_frame []).
  intros _. reflexivity.
Defined.


(** C2, as stated, fails for [deselectMask] too: the repository of masks is
    changed before anything is recorded. *)
Lemma deselectMask_mutates_before_recording :
  wp (deselectMask tx_on)
     (fun _ w' => record_precedes_mutation (new_events one_frame w') = false)
     one_frame.
Proof. vm_compute. reflexivity. Qed.


(** The calls of each step at the sprite of one frame, computed. *)
Example step_scenario :
  wp (run_step tx_on (SetSpriteSize 8 8))
     (fun _ w' => new_events one_frame w' =
                  [Recorded (UndoSetSize 4 4); Mutated OnSprite]) one_frame /\
  wp (run_step tx_on (SetMaskPosition 1 2))
     (fun _ w' => new_events one_frame w' =
                  [Recorded (UndoInt MaskX 0); Recorded (UndoInt MaskY 0);
                   Mutated OnMask; Mutated OnMask]) one_frame /\
  wp (run_step tx_on (MoveLayerAfter 1%nat None))
     (fun _ w' => new_events one_frame w' =
                  [Recorded (UndoMoveLayer 1%nat None); Mutated OnFolder]) one_frame /\
  wp (run_step tx_on (AddImageInStock 5))
     (fun _ w' => new_events one_frame w' =
                  [Mutated OnStock; Recorded (UndoAddImage 2)]) one_frame.
Proof. vm_compute. repeat split. Qed.

(** C8, as stated, fails: with the layer 2 of the folder 1 selected, the new
    layer is listed by the root folder 0, not by the folder 1 of the
    selection. *)
Lemma newLayer_not_in_selected_folder :
  wp (newLayer tx_on)
     (fun layer w' =>
        selected_folder (sprite nested_folder) = Some 1%nat /\
        get_parent layer (m_folder (sprite w')) = Some 0%nat /\
        get_parent layer (m_folder (sprite w')) <> selected_folder (sprite nested_folder))
     nested_folder.
Proof. vm_compute. repeat split. discriminate. Qed.

(** C8, at the same sprite: the new layer is the last child of the root. *)
Lemma newLayer_adds_to_root_example :
  wp (newLayer tx_on)
     (fun layer w' =>
        layer = next_id nested_folder /\
        m_folder (sprite w') =
          LayerFolder 0 default_props
            ([LayerFolder 1 default_props [LayerImage 2 default_props [cel_at 10 0 1]]]
               ++ [LayerImage layer default_props []]) /\
        m_layer (sprite w') = Some layer) nested_folder.
Proof.
  apply (newLayer_adds_to_root tx_on nested_folder 0%nat default_props).
  - reflexivity.
  - intros _. by eexists.
Defined.

(** C5, at three layers with the middle one selected: the layer below it
    becomes the selection. *)
Lemma removeLayer_example :
  wp (removeLayer tx_on 2%nat)
     (fun _ w' =>
        m_layer (sprite w') = Some 1%nat /\
        find_layer 0%nat (m_folder (sprite w')) =
          Some (LayerFolder 0 default_props
                  [LayerImage 1 default_props [cel_at 10 0 1];
                   LayerImage 3 default_props [cel_at 30 0 3]]) /\
        (2%nat ∉ layer_ids (m_folder (sprite w')))) three_layers.
Proof.
  apply (removeLayer_selects_and_detaches tx_on three_layers 0%nat default_props
           [LayerImage 1 default_props [cel_at 10 0 1]]
           (LayerImage 2 default_props [cel_at 20 0 2])
           [LayerImage 3 default_props [cel_at 30 0 3]]).
  - intros _. by eexists.
  - by_evaluation.
  - reflexivity.
Defined.

(** C6, as stated, fails on a sprite of one frame: frame 0 is in range, and
    [removeFrame(0)] stops at the assertion of [setCurrentFrame]. *)
Lemma removeFrame_of_only_frame_fails :
  0 <= 0 < m_frames (sprite one_frame) /\ removeFrame tx_on 0 one_frame = None.
Proof. split; [cbn; lia | reflexivity]. Qed.

(** The scenario of five frames: [removeFrame(2)] with cels at 1, 2 and 3. *)
Lemma removeFrame_example :
  wp (removeFrame tx_on 2)
     (fun _ w' =>
        m_folder (sprite w') = without_frame 2 (m_folder (sprite five_frames)) /\
        m_frames (sprite w') = m_frames (sprite five_frames) - 1 /\
        m_frame (sprite w') =
          (if m_frame (sprite five_frames) >=? m_frames (sprite five_frames) - 1
           then m_frames (sprite five_frames) - 2 else m_frame (sprite five_frames)))
     five_frames.
Proof.
  apply (removeFrame_removes_and_shifts tx_on five_frames 2).
  - intros _. by eexists.
  - cbn. lia.
  - cbn. lia.
  - repeat split; try by_evaluation. constructor.
  - repeat constructor; by eexists.
Defined.

(** The frames and the cels that are left, and the frame count. *)
Example removeFrame_scenario :
  wp (removeFrame tx_on 2)
     (fun _ w' =>
        cel_frames_of 1%nat (m_folder (sprite w')) = [1; 2] /\
        map cel_id (layer_cels (LayerImage 1 default_props
                      (concat (image_layers (m_folder (sprite w')))))) = [10; 12]%nat /\
        m_frames (sprite w') = 4) five_frames.
Proof. vm_compute. repeat split. Qed.

(** C7, as stated, fails when a frame moves to the past: the cel at
    [before_frame] is not strictly between the two indices, and it moves. *)
Lemma moveFrameBefore_moves_cel_at_before_frame :
  wp (moveFrameBefore tx_on 1 0)
     (fun _ w' =>
        cel_frames_of 1%nat (m_folder (sprite w')) = [1; 0] /\
        cel_frames_of 1%nat
          (map_cels (fun c => cel_set_frame (new_frame_in_words (cel_frame c) 1 0) c)
             (m_folder (sprite two_frames))) = [0; 0] /\
        m_folder (sprite w') <>
          map_cels (fun c => cel_set_frame (new_frame_in_words (cel_frame c) 1 0) c)
            (m_folder (sprite two_frames))) two_frames.
Proof. vm_compute. repeat split. discriminate. Qed.

(** The scenario of four frames: [moveFrameBefore(0, 3)]. *)
Lemma moveFrameBefore_example :
  (0 = 3 \/ ~ 0 <= 0 < m_frames (sprite four_frames) \/
   ~ 0 <= 3 < m_frames (sprite four_frames) ->
   moveFrameBefore tx_on 0 3 four_frames = Some (tt, four_frames)) /\
  (0 <> 3 ->
   0 <= 0 < m_frames (sprite four_frames) ->
   0 <= 3 < m_frames (sprite four_frames) ->
   wp (moveFrameBefore tx_on 0 3)
      (fun _ w' =>
         m_folder (sprite w') =
           map_cels (fun c => cel_set_frame (new_frame_of (cel_frame c) 0 3) c)
             (m_folder (sprite four_frames)) /\
         m_frames (sprite w') = m_frames (sprite four_frames) /\
         length (m_frlens (sprite w')) = length (m_frlens (sprite four_frames)) /\
         forall f, 0 <= f < m_frames (sprite four_frames) ->
           getFrameDuration (sprite w') (new_frame_of f 0 3) =
           getFrameDuration (sprite four_frames) f) four_frames).
Proof.
  apply (moveFrameBefore_rotates tx_on four_frames 0 3).
  - intros _. by eexists.
  - reflexivity.
Defined.

(** Where the cels and the durations of the four frames end up. *)
Example moveFrameBefore_scenario :
  wp (moveFrameBefore tx_on 0 3)
     (fun _ w' =>
        cel_frames_of 1%nat (m_folder (sprite w')) = [2; 0; 1; 3] /\
        m_frlens (sprite four_frames) = [10; 20; 30; 40] /\
        m_frlens (sprite w') = [20; 30; 10; 40]) four_frames.
Proof. vm_compute. repeat split. Qed.

(** C9, at a sprite in RGB mode converted to grayscale. *)
Lemma setImgType_example :
  (m_imgtype (sprite one_frame) = IMAGE_GRAYSCALE ->
   setImgType tx_on IMAGE_GRAYSCALE DITHERING_NONE one_frame = Some (tt, one_frame)) /\
  (m_imgtype (sprite one_frame) <> IMAGE_GRAYSCALE ->
   wp (setImgType tx_on IMAGE_GRAYSCALE DITHERING_NONE)
      (fun _ w' =>
         stock_images (m_stock (sprite w')) =
           map (option_map (converted (sprite one_frame) IMAGE_GRAYSCALE DITHERING_NONE))
             (stock_images (m_stock (sprite one_frame))) /\
         stock_imgtype (m_stock (sprite w')) = IMAGE_GRAYSCALE /\
         m_imgtype (sprite w') = IMAGE_GRAYSCALE /\
         m_palettes (sprite w') =
           (if IMAGE_GRAYSCALE =? IMAGE_GRAYSCALE then [createGrayscale]
            else m_palettes (sprite one_frame))) one_frame).
Proof.
  apply (setImgType_converts_stock tx_on one_frame IMAGE_GRAYSCALE DITHERING_NONE).
  intros _. by eexists.
Defined.

(** The converted stock and the palettes, computed. *)
Example setImgType_scenario :
  wp (setImgType tx_on IMAGE_GRAYSCALE DITHERING_NONE)
     (fun _ w' =>
        stock_images (m_stock (sprite w')) = [None; Some 111] /\
        m_palettes (sprite w') = [255]) one_frame.
Proof. vm_compute. repeat split. Qed.

(** C3: with two layers showing the image of slot 1, every cel shows a live
    image before the call; [removeCel] on the cel of the first layer scans
    that layer only, finds no other user and frees the slot, although the
    image is not only used by this cel: the cel of the second layer is left
    with a dead image. *)
Theorem removeCel_frees_image_used_by_other_layer :
  stock_integrity (sprite shared_image) /\
  wp (l ← removeCel tx_on (LayerImage 1 default_props [cel_at 10 0 1]) (cel_at 10 0 1);
      store_layer l)
     (fun _ w' =>
        layer_cels <$> find_layer 2%nat (m_folder (sprite w')) = Some [cel_at 20 0 1] /\
        stock_getImage (m_stock (sprite w')) 1 = None /\
        ~ stock_integrity (sprite w')) shared_image.
Proof.
  split.
  - repeat constructor; by eexists.
  - vm_compute. repeat split. intros H.
    apply Forall_cons in H as [[img Himg] _]. discriminate.
Qed.

(** A layer with cels at frames 1, 2 and 3, each with its own image:
    removing the cel of frame 2 frees slot 2 and only that slot. *)
Lemma removeCel_example :
  wp (removeCel tx_on
        (LayerImage 1 default_props [cel_at 10 1 1; cel_at 11 2 2; cel_at 12 3 3])
        (cel_at 11 2 2))
     (fun l' w' =>
        l' = LayerImage 1 default_props
               (cels_remove (cel_at 11 2 2) [cel_at 10 1 1; cel_at 11 2 2; cel_at 12 3 3]) /\
        (stock_getImage (m_stock (sprite w')) (cel_image (cel_at 11 2 2)) = None <->
         ~ exists c, c ∈ [cel_at 10 1 1; cel_at 11 2 2; cel_at 12 3 3] /\
                     cel_id c <> cel_id (cel_at 11 2 2) /\
                     cel_image c = cel_image (cel_at 11 2 2)) /\
        Forall (fun i => is_Some (stock_getImage (m_stock (sprite w')) i))
          (map cel_image
             (cels_remove (cel_at 11 2 2) [cel_at 10 1 1; cel_at 11 2 2; cel_at 12 3 3])) /\
        forall i, i <> cel_image (cel_at 11 2 2) ->
          stock_getImage (m_stock (sprite w')) i =
          stock_getImage (m_stock (sprite five_frames)) i) five_frames.
Proof.
  apply (removeCel_frees_slot_unused_in_layer tx_on five_frames 1%nat default_props
           [cel_at 10 1 1; cel_at 11 2 2; cel_at 12 3 3] (cel_at 11 2 2)).
  - intros _. by eexists.
  - repeat split; by_evaluation.
  - repeat constructor; by eexists.
  - apply list_elem_of_In; simpl; auto.
Defined.

(** C1: [flattenLayers] in a transaction that is destroyed without commit,
    on a sprite of two frames whose background layer has a cel at frame 0
    only.  For frame 1 [flattenLayers] adds an image to the stock and a cel
    to the background without recording either; the only record of the
    group is the saved image of frame 0.  After the rollback the cel and
    the image are still there. *)
Theorem flattenLayers_rollback_leaves_image_in_stock :
  wp (rolled_back "Flatten" (fun t => flattenLayers t 0))
     (fun _ w' =>
        h_redo (undoHistory w') = [] /\
        layer_cels <$> find_layer 1%nat (m_folder (sprite unflattened)) =
          Some [cel_at 10 0 1] /\
        layer_cels <$> find_layer 1%nat (m_folder (sprite w')) =
          Some [cel_at 10 0 1; cel_at 100 1 2] /\
        stock_images (m_stock (sprite unflattened)) = [None; Some 11] /\
        stock_images (m_stock (sprite w')) = [None; Some 11; Some 0] /\
        List.filter (fun e => match e with Recorded _ => true | _ => false end)
          (new_events unflattened w') = [Recorded (UndoDirty 1 11)] /\
        ~ observably_equal (sprite unflattened) (sprite w')) unflattened.
Proof.
  vm_compute. repeat split. intros (Hfolder & _). discriminate.
Qed.

(** C10, at a sprite of four frames whose second frame is current: the scan
    goes through the frames 0 to 3, the crop runs to completion and the
    current frame is the second one again. *)
Lemma autocropSprite_example :
  m_frame (sprite second_of_four) = 1 /\
  wp (autocropSprite tx_on 0)
     (fun _ w' => m_frame (sprite w') = 1) second_of_four.
Proof.
  split; [reflexivity|].
  apply (proj2 (proj2 (autocropSprite_keeps_current_frame tx_on 0 second_of_four))).
  - intros _. by eexists.
  - repeat constructor; by eexists.
Defined.

(** The loop of the scan alone leaves the last frame current; the scan puts
    the second one back. *)
Example autocrop_scan_scenario :
  wp (foldM autocrop_frame (0, (INT_MAX, INT_MAX, INT_MIN, INT_MIN)) (frames_upto 4))
     (fun _ w' => m_frame (sprite w') = 3) second_of_four /\
  wp autocrop_scan
     (fun box w' => m_frame (sprite w') = 1 /\ box = (1, 1, 2, 2)) second_of_four.
Proof. vm_compute. repeat split. Qed.

(** The size of the sprite after the crop, computed. *)
Example autocropSprite_scenario :
  wp (autocropSprite tx_on 0)
     (fun _ w' => m_frame (sprite w') = m_frame (sprite one_frame) /\
                  m_width (sprite w') = 2 /\ m_height (sprite w') = 2) one_frame.
Proof. vm_compute. repeat split. Qed.

(** * Worked examples for the further properties *)

(** A transaction on the disabled journal, destroyed without commit: the
    current frame stays where the operation put it. *)
Lemma rolled_back_without_journal_example :
  rolled_back "Go to frame" (fun t => setCurrentFrame t 3) no_journal =
  setCurrentFrame (mkTransaction false false) 3 no_journal.
Proof.
  apply (rolled_back_without_journal "Go to frame" (fun t => setCurrentFrame t 3) no_journal).
  reflexivity.
Defined.

(** The assertions of the setters, at the sprite of one frame: frame 5 is
    accepted as the current frame although the sprite has one frame. *)
Lemma setters_stop_on_assertions_example :
  (forall frames, setNumberOfFrames tx_on frames one_frame = None <-> frames < 1) /\
  (forall width height,
      setSpriteSize tx_on width height one_frame = None <-> width <= 0 \/ height <= 0) /\
  (forall frame, setCurrentFrame tx_on frame one_frame = None <-> frame < 0) /\
  (forall cel frame, setCelFramePosition tx_on cel frame one_frame = None <-> frame < 0) /\
  (forall frame, 0 <= frame ->
      wp (setCurrentFrame tx_on frame)
         (fun _ w' => sprite w' = set_frame frame (sprite one_frame)) one_frame).
Proof.
  apply (setters_stop_on_assertions tx_on one_frame).
  intros _. by eexists.
Defined.

(** Three layers moved by [(INT_MIN, 3)] and then by the opposite, which for
    [INT_MIN] is [INT_MIN] again: both sums wrap and the tree is back. *)
Lemma displaceLayers_composes_example :
  INT_MIN = int_wrap (- INT_MIN) /\
  wp (l1 ← displaceLayers tx_on (m_folder (sprite three_layers)) INT_MIN 3;
      displaceLayers tx_on l1 INT_MIN (-3))
     (fun l2 w' =>
        l2 = map_cels (fun c => cel_set_position
                                  (int_wrap (cel_x c + (INT_MIN + INT_MIN)))
                                  (int_wrap (cel_y c + (3 + -3))) c)
               (m_folder (sprite three_layers)) /\
        l2 = m_folder (sprite three_layers) /\
        sprite w' = sprite three_layers) three_layers.
Proof.
  split; [reflexivity|].
  eapply wp_mono.
  - apply (displaceLayers_composes tx_on (m_folder (sprite three_layers))
             INT_MIN 3 INT_MIN (-3) three_layers).
    intros _. by eexists.
  - intros l2 w' (Hsum & Hsame & Hback). split; [exact Hsum|].
    split; [|exact Hsame]. apply Hback; [|reflexivity|reflexivity].
    repeat constructor; by_evaluation.
Defined.

(** A cel at [x = 1] moved by [INT_MAX]: the sum leaves the [int]s and the
    cel is at [INT_MIN]; moved by one more, it is at [INT_MIN + 1]. *)
Example displaceLayers_wraps :
  wp (displaceLayers tx_on (LayerImage 1 default_props [mkCel 10 0 1 1 0 255]) INT_MAX 0)
     (fun l1 _ => map cel_x (layer_cels l1) = [INT_MIN]) one_frame /\
  wp (l1 ← displaceLayers tx_on (LayerImage 1 default_props [mkCel 10 0 1 1 0 255])
             INT_MAX 0;
      displaceLayers tx_on l1 1 0)
     (fun l2 _ => map cel_x (layer_cels l2) = [INT_MIN + 1]) one_frame.
Proof. vm_compute. split; reflexivity. Qed.

(** Four frames of durations 10, 20, 30 and 40 set to 50: four records. *)
Lemma setConstantFrameRate_example :
  wp (setConstantFrameRate tx_on 50)
     (fun _ w' =>
        new_events four_frames w' =
          (if isEnabled tx_on
           then map (fun fr => Recorded (UndoSetFrlen fr
                                 (getFrameDuration (sprite four_frames) fr)))
                    (frames_upto (m_frames (sprite four_frames)))
           else [])
          ++ [Mutated OnSprite] /\
        sprite w' = setDurationForAllFrames 50 (sprite four_frames)) four_frames.
Proof.
  apply (setConstantFrameRate_records_every_frame tx_on 50 four_frames).
  intros _. by eexists.
Defined.

Example setConstantFrameRate_scenario :
  wp (setConstantFrameRate tx_on 50)
     (fun _ w' =>
        new_events four_frames w' =
          [Recorded (UndoSetFrlen 0 10); Recorded (UndoSetFrlen 1 20);
           Recorded (UndoSetFrlen 2 30); Recorded (UndoSetFrlen 3 40);
           Mutated OnSprite] /\
        m_frlens (sprite w') = [50; 50; 50; 50]) four_frames.
Proof. vm_compute. repeat split. Qed.


(** Nothing selected, a transparent layer: [clearMask] removes the cel. *)
Lemma clearMask_whole_cel_example :
  wp (clearMask tx_on 0)
     (fun _ w' =>
        m_folder (sprite w') =
          replace_layer
            (LayerImage 1 default_props (cels_remove (cel_at 10 0 1) [cel_at 10 0 1]))
            (m_folder (sprite one_frame)) /\
        forall i, i <> cel_image (cel_at 10 0 1) ->
          stock_getImage (m_stock (sprite w')) i =
          stock_getImage (m_stock (sprite one_frame)) i) one_frame.
Proof.
  apply (clearMask_whole_cel tx_on 0 one_frame 1%nat default_props [cel_at 10 0 1]
           (cel_at 10 0 1) 11).
  - intros _. by eexists.
  - reflexivity.
  - reflexivity.
  - reflexivity.
  - reflexivity.
Defined.

Example clearMask_scenario :
  wp (clearMask tx_on 0)
     (fun _ w' =>
        m_folder (sprite w') = LayerFolder 0 default_props [LayerImage 1 default_props []] /\
        stock_images (m_stock (sprite w')) = [None; None]) one_frame.
Proof. vm_compute. repeat split. Qed.

(** Pasting on the cel of the sprite of one frame. *)
Lemma pasteImage_example :
  (pasteImage tx_on 5 1 1 255 one_frame <> None <->
   exists id p cels cel img,
     getCurrentLayer (sprite one_frame) = Some (LayerImage id p cels) /\
     is_readable p = true /\ is_writable p = true /\
     getCel cels (m_frame (sprite one_frame)) = Some cel /\
     stock_getImage (m_stock (sprite one_frame)) (cel_image cel) = Some img) /\
  (forall id p cels cel (img : @Image example_raster),
     getCurrentLayer (sprite one_frame) = Some (LayerImage id p cels) ->
     is_readable p = true -> is_writable p = true ->
     getCel cels (m_frame (sprite one_frame)) = Some cel ->
     stock_getImage (m_stock (sprite one_frame)) (cel_image cel) = Some img ->
     wp (pasteImage tx_on 5 1 1 255)
        (fun _ w' =>
           sprite w' =
             set_stock
               (stock_put (cel_image cel)
                  (Some (@image_merge example_raster example_pixels img 5
                           (1 - cel_x cel) (1 - cel_y cel) 255 BLEND_MODE_NORMAL))
                  (m_stock (sprite one_frame)))
               (sprite one_frame)) one_frame).
Proof.
  apply (@pasteImage_needs_editable_cel example_raster example_pixels tx_on 5 1 1 255
           one_frame).
  intros _. by eexists.
Defined.

(** On a locked layer [pasteImage] stops. *)
Example pasteImage_on_locked_layer :
  pasteImage tx_on 5 1 1 255 locked_layer = None /\
  wp (pasteImage tx_on 5 1 1 255)
     (fun _ w' => stock_images (m_stock (sprite w')) = [None; Some 16]) one_frame.
Proof. vm_compute. repeat split. Qed.


(** The same call, computed: the background is back at the origin and its
    image is the crop at [(1, 1)]; the layer above is at [(1, 2)] and its
    image is untouched; the selection is at the origin. *)
Example cropSprite_scenario :
  wp (cropSprite tx_on 1 1 2 2 7)
     (fun _ w' =>
        m_folder (sprite w') =
          LayerFolder 0 default_props
            [LayerImage 1 (mkProps "Background" true false true true) [cel_at 10 0 1];
             LayerImage 2 default_props [mkCel 20 0 2 1 2 255]] /\
        stock_images (m_stock (sprite w')) =
          [None; Some (image_crop 11 1 1 2 2 7); Some 12] /\
        (mask_x (m_mask (sprite w')), mask_y (m_mask (sprite w'))) = (0, 0) /\
        (m_width (sprite w'), m_height (sprite w')) = (2, 2)) layers_and_mask.
Proof. vm_compute. repeat split. Qed.

(** A crop from [x = INT_MIN]: [-x] does not fit an [int] and wraps, and the
    cels of the three layers, at [x = 0], end at [INT_MIN]. *)
Example cropSprite_wraps :
  wp (cropSprite tx_on INT_MIN 0 2 2 7)
     (fun _ w' =>
        concat (image_layers (m_folder (sprite w'))) =
          [mkCel 10 0 1 INT_MIN 0 255; mkCel 20 0 2 INT_MIN 0 255;
           mkCel 30 0 3 INT_MIN 0 255]) three_layers.
Proof. vm_compute. reflexivity. Qed.

(** [removeFrame(2)] on the sprite of five frames. *)
Lemma removeFrame_keeps_invariants_example :
  wp (removeFrame tx_on 2)
     (fun _ w' =>
        layers_wf (m_frames (sprite w')) (m_folder (sprite w')) /\
        stock_integrity (sprite w') /\
        0 <= m_frame (sprite w') < m_frames (sprite w')) five_frames.
Proof.
  apply (removeFrame_keeps_invariants tx_on five_frames 2).
  - intros _. by eexists.
  - cbn. lia.
  - cbn. lia.
  - cbn. lia.
  - repeat split; try by_evaluation. constructor.
  - repeat constructor; by eexists.
Defined.

(** [moveFrameBefore(0, 3)] on the sprite of four frames. *)
Lemma moveFrameBefore_keeps_one_cel_per_frame_example :
  wp (moveFrameBefore tx_on 0 3)
     (fun _ w' =>
        every_layer (fun cels => NoDup (map cel_frame cels) /\
                                 Forall (fun c => 0 <= cel_frame c < m_frames (sprite w')) cels)
          (m_folder (sprite w')) /\
        m_frames (sprite w') = m_frames (sprite four_frames) /\
        m_stock (sprite w') = m_stock (sprite four_frames)) four_frames.
Proof.
  apply (moveFrameBefore_keeps_one_cel_per_frame tx_on four_frames 0 3).
  - intros _. by eexists.
  - reflexivity.
  - repeat constructor; try by_evaluation; cbn; lia.
Defined.

(** [newFrame] on the sprite of four frames, the first one current. *)
Lemma newFrame_adds_frame_example :
  wp (newFrame tx_on)
     (fun _ w' =>
        m_frames (sprite w') = m_frames (sprite four_frames) + 1 /\
        m_frame (sprite w') = m_frame (sprite four_frames) + 1 /\
        frame_added (m_frame (sprite four_frames) + 1) (m_stock (sprite four_frames))
          (m_stock (sprite w')) (m_folder (sprite four_frames)) (m_folder (sprite w')) /\
        stock_images (m_stock (sprite four_frames)) `prefix_of`
          stock_images (m_stock (sprite w'))) four_frames.
Proof.
  apply (newFrame_adds_frame tx_on four_frames).
  - intros _. by eexists.
  - cbn. lia.
  - repeat constructor; try by_evaluation; cbn; lia.
  - repeat constructor; by eexists.
Defined.

(** The cels and the stock after that [newFrame]: the copy of the first cel
    stands at frame 1 and shows the new slot 5. *)
Example newFrame_scenario :
  wp (newFrame tx_on)
     (fun _ w' =>
        layer_cels <$> find_layer 1%nat (m_folder (sprite w')) =
          Some [cel_at 10 0 1; cel_at 100 1 5; cel_at 11 2 2; cel_at 12 3 3; cel_at 13 4 4] /\
        stock_images (m_stock (sprite w')) =
          [None; Some 11; Some 12; Some 13; Some 14; Some 11] /\
        (m_frames (sprite w'), m_frame (sprite w')) = (5, 1)) four_frames.
Proof. vm_compute. repeat split. Qed.

Lemma newFrame_keeps_invariants_example :
  wp (newFrame tx_on)
     (fun _ w' =>
        every_layer (fun cels => NoDup (map cel_frame cels) /\
                                 Forall (fun c => 0 <= cel_frame c < m_frames (sprite w')) cels)
          (m_folder (sprite w')) /\
        stock_integrity (sprite w') /\
        0 <= m_frame (sprite w') < m_frames (sprite w')) four_frames.
Proof.
  apply (newFrame_keeps_invariants tx_on four_frames).
  - intros _. by eexists.
  - cbn. lia.
  - repeat constructor; try by_evaluation; cbn; lia.
  - repeat constructor; by eexists.
Defined.

(** [flattenLayers] on three transparent layers. *)
Lemma flattenLayers_leaves_background_example :
  wp (flattenLayers tx_on 0)
     (fun _ w' =>
        exists bg pb cels,
          m_folder (sprite w') = LayerFolder 0 default_props [LayerImage bg pb cels] /\
          is_background pb = true /\
          m_layer (sprite w') = Some bg /\
          (forall f, 0 <= f < m_frames (sprite three_layers) -> is_Some (getCel cels f)) /\
          stock_integrity (sprite w') /\
          m_frames (sprite w') = m_frames (sprite three_layers)) three_layers.
Proof.
  apply (flattenLayers_leaves_background tx_on 0 three_layers 0%nat default_props
           [LayerImage 1 default_props [cel_at 10 0 1];
            LayerImage 2 default_props [cel_at 20 0 2];
            LayerImage 3 default_props [cel_at 30 0 3]]).
  - intros _. by eexists.
  - reflexivity.
  - by_evaluation.
  - by_evaluation.
  - repeat constructor; by eexists.
Defined.

Example flattenLayers_scenario :
  wp (flattenLayers tx_on 0)
     (fun _ w' =>
        m_folder (sprite w') =
          LayerFolder 0 default_props
            [LayerImage 100 (mkProps "Background" true false true true)
               [cel_at 101 0 4]] /\
        m_layer (sprite w') = Some 100%nat) three_layers.
Proof. vm_compute. repeat split. Qed.

(** [newLayer] then [removeLayer] on three layers with the middle one
    selected: the tree is back and the top layer is selected. *)
Lemma newLayer_then_removeLayer_example :
  wp (layer ← newLayer tx_on; removeLayer tx_on layer)
     (fun _ w' =>
        sprite w' =
          set_layer
            (layer_id <$> last [LayerImage 1 default_props [cel_at 10 0 1];
                                LayerImage 2 default_props [cel_at 20 0 2];
                                LayerImage 3 default_props [cel_at 30 0 3]])
            (sprite three_layers)) three_layers.
Proof.
  apply (newLayer_then_removeLayer tx_on three_layers 0%nat default_props
           [LayerImage 1 default_props [cel_at 10 0 1];
            LayerImage 2 default_props [cel_at 20 0 2];
            LayerImage 3 default_props [cel_at 30 0 3]]).
  - intros _. by eexists.
  - reflexivity.
  - by_evaluation.
  - by_evaluation.
Defined.

Example newLayer_then_removeLayer_scenario :
  m_layer (sprite three_layers) = Some 2%nat /\
  wp (layer ← newLayer tx_on; removeLayer tx_on layer)
     (fun _ w' => m_layer (sprite w') = Some 3%nat /\
                  m_folder (sprite w') = m_folder (sprite three_layers)) three_layers.
Proof. vm_compute. repeat split. Qed.

(** [removeFrame] on the sprite of one frame, for a frame that is there, for
    one that is not, and with the journal disabled. *)
Lemma removeFrame_needs_two_frames_example :
  removeFrame tx_on 0 one_frame = None /\
  removeFrame tx_on 5 one_frame = None /\
  removeFrame tx_off 0 no_journal = None.
Proof.
  split; [|split].
  - apply (removeFrame_needs_two_frames tx_on one_frame 0). cbn. lia.
  - apply (removeFrame_needs_two_frames tx_on one_frame 5). cbn. lia.
  - apply (removeFrame_needs_two_frames tx_off no_journal 0). cbn. lia.
Defined.
